(** * ClawFace gateway: log scanners, model normalizer and usage ledger

    A shallow embedding of the accounting core of the gateway:

    - [modelNormalizer.ts]: [normalizeCodexModel], [normalizeClaudeModel];
    - [claudeLogScanner.ts]: the message-oriented scanner;
    - [codexLogScanner.ts]: the counter-oriented scanner;
    - [aiUsageTracker.ts]: the pricing table, [calculateCost], [logRequest]
      and the schema set up by [initDb].

    Conventions.  A JavaScript string is a [string]: a sequence of 8-bit
    characters, which is exact for ASCII text.  Token counts are integers
    ([Z]); JSON numbers are exact rationals ([Q]); prices and costs are
    IEEE-754 binary64 numbers ([float]), as in the runtime.  A JavaScript
    exception that escapes a function is the [Throw] outcome of [result]. *)

From Stdlib Require Import ZArith QArith Qround Floats Ascii String List Permutation Lia Bool.
From stdpp Require Import gmap strings list.

(* Decimal literals denote the nearest binary64 number, as in JavaScript. *)
#[local] Set Warnings "-inexact-float".

Local Open Scope string_scope.
Local Open Scope list_scope.
Local Open Scope Z_scope.

(* ===================================================================== *)
(** ** JavaScript strings *)
(* ===================================================================== *)

Module JsString.

Definition len (s : string) : Z := Z.of_nat (String.length s).

(** [s.startsWith(p)] *)
Fixpoint startsWith (s p : string) : bool :=
  match p, s with
  | EmptyString, _ => true
  | String _ _, EmptyString => false
  | String b p', String a s' => Ascii.eqb a b && startsWith s' p'
  end.

(** [s.includes(sub)] *)
Fixpoint includes (s sub : string) : bool :=
  startsWith s sub ||
  match s with
  | EmptyString => false
  | String _ s' => includes s' sub
  end.

(** [s.indexOf(sub)], [-1] when absent. *)
Fixpoint indexOf (s sub : string) : Z :=
  if startsWith s sub then 0
  else match s with
       | EmptyString => -1
       | String _ s' =>
           let i := indexOf s' sub in
           if i =? -1 then -1 else 1 + i
       end.

(** [s.lastIndexOf(c)] for a one-character needle, [-1] when absent. *)
Fixpoint lastIndexOfChar (s : string) (c : ascii) : Z :=
  match s with
  | EmptyString => -1
  | String a s' =>
      let i := lastIndexOfChar s' c in
      if i =? -1 then (if Ascii.eqb a c then 0 else -1) else 1 + i
  end.

Fixpoint drop (n : nat) (s : string) : string :=
  match n, s with
  | O, _ => s
  | S _, EmptyString => EmptyString
  | S n', String _ s' => drop n' s'
  end.

Fixpoint take (n : nat) (s : string) : string :=
  match n, s with
  | O, _ => EmptyString
  | S _, EmptyString => EmptyString
  | S n', String a s' => String a (take n' s')
  end.

(** A relative index of [slice]: negative counts from the end, the result
    is clamped to [0, len]. *)
Definition relIndex (s : string) (i : Z) : Z :=
  if i <? 0 then Z.max (len s + i) 0 else Z.min i (len s).

(** [s.slice(b, e)] *)
Definition slice (s : string) (b e : Z) : string :=
  let from := relIndex s b in
  let to := relIndex s e in
  take (Z.to_nat (Z.max (to - from) 0)) (drop (Z.to_nat from) s).

(** [s.slice(b)] *)
Definition sliceFrom (s : string) (b : Z) : string := slice s b (len s).

(** The white space and line terminators stripped by [trim], among the
    8-bit characters: TAB, LF, VT, FF, CR, SP and NBSP. *)
Definition isWhiteSpace (c : ascii) : bool :=
  let n := nat_of_ascii c in
  ((9 <=? n)%nat && (n <=? 13)%nat) || (n =? 32)%nat || (n =? 160)%nat.

Fixpoint trimStart (s : string) : string :=
  match s with
  | EmptyString => EmptyString
  | String a s' => if isWhiteSpace a then trimStart s' else s
  end.

Fixpoint trimEnd (s : string) : string :=
  match s with
  | EmptyString => EmptyString
  | String a s' =>
      match trimEnd s' with
      | EmptyString => if isWhiteSpace a then EmptyString else String a EmptyString
      | t => String a t
      end
  end.

(** [s.trim()] *)
Definition trim (s : string) : string := trimEnd (trimStart s).

(** [s.replace(c, d)] for one-character strings: the first occurrence only. *)
Fixpoint replaceFirstChar (s : string) (c d : ascii) : string :=
  match s with
  | EmptyString => EmptyString
  | String a s' =>
      if Ascii.eqb a c then String d s' else String a (replaceFirstChar s' c d)
  end.

(** [s.split(c)] for a one-character separator: never empty, a string
    without separator is its own single piece. *)
Fixpoint split (s : string) (c : ascii) : list string :=
  match s with
  | EmptyString => [EmptyString]
  | String a s' =>
      if Ascii.eqb a c then EmptyString :: split s' c
      else match split s' c with
           | [] => [String a EmptyString]
           | p :: ps => String a p :: ps
           end
  end.

Definition isDigit (c : ascii) : bool :=
  let n := nat_of_ascii c in (48 <=? n)%nat && (n <=? 57)%nat.

Fixpoint rev_acc (s acc : string) : string :=
  match s with
  | EmptyString => acc
  | String a s' => rev_acc s' (String a acc)
  end.

Definition rev (s : string) : string := rev_acc s EmptyString.

(** The longest prefix of digits and what follows it. *)
Fixpoint spanDigits (s : string) : string * string :=
  match s with
  | EmptyString => (EmptyString, EmptyString)
  | String a s' =>
      if isDigit a then let '(d, r) := spanDigits s' in (String a d, r)
      else (EmptyString, s)
  end.

Fixpoint allDigits (s : string) : bool :=
  match s with
  | EmptyString => true
  | String a s' => isDigit a && allDigits s'
  end.

End JsString.

Import JsString.

(* ===================================================================== *)
(** ** modelNormalizer.ts *)
(* ===================================================================== *)

Module ModelNormalizer.

Definition KNOWN_CLAUDE_BASES : gset string :=
  {[ "claude-haiku-4-5";
     "claude-opus-4-5";
     "claude-sonnet-4-5";
     "claude-opus-4-20250514";
     "claude-opus-4-1";
     "claude-sonnet-4-20250514";
     "claude-opus-4-6" ]}.

Definition KNOWN_CODEX_BASES : gset string :=
  {[ "gpt-5"; "gpt-5.1"; "gpt-5.2" ]}.

(** [base] when [KNOWN.has(base)], else the fall-through value. *)
Definition knownOr (known : gset string) (base fallthrough : string) : string :=
  if bool_decide (base ∈ known) then base else fallthrough.

(** The vendor-prefix step shared by both normalizers:
    [if (t.startsWith(p)) t = t.slice(p.length)]. *)
Definition stripPrefix (p t : string) : string :=
  if startsWith t p then sliceFrom t (len p) else t.

(** The last step of [normalizeCodexModel]: the [-codex] marker. *)
Definition stripCodexSuffix (trimmed : string) : string :=
  let codexIdx := indexOf trimmed "-codex" in
  if negb (codexIdx =? -1) then
    knownOr KNOWN_CODEX_BASES (slice trimmed 0 codexIdx) trimmed
  else trimmed.

Definition normalizeCodexModel (raw : string) : string :=
  let trimmed := trim raw in
  let trimmed := stripPrefix "openai/" trimmed in
  stripCodexSuffix trimmed.

(** [t.match(/-v\d+:\d+$/)]: the matched text.  Read from the end: a
    maximal run of digits, a colon, a maximal run of digits, then [-v]. *)
Definition matchVersionSuffix (t : string) : option string :=
  let '(minor, r1) := spanDigits (rev t) in
  match minor, r1 with
  | String _ _, String ":" r2 =>
      let '(major, r3) := spanDigits r2 in
      match major, r3 with
      | String _ _, String "v" (String "-" _) =>
          Some (sliceFrom t (len t - (len minor + 1 + len major + 2)))
      | _, _ => None
      end
  | _, _ => None
  end.

(** [t.match(/-\d{8}$/)]: the matched text, the last nine characters. *)
Definition matchDateSuffix (t : string) : option string :=
  if 9 <=? len t then
    match sliceFrom t (len t - 9) with
    | String "-" ds => if allDigits ds then Some (String "-" ds) else None
    | _ => None
    end
  else None.

(** The Vertex AI nested prefix: the tail after the last dot, when the
    name mentions [claude-] and that tail starts with it. *)
Definition stripVertexPrefix (trimmed : string) : string :=
  if includes trimmed "claude-" then
    let lastDotIdx := lastIndexOfChar trimmed "." in
    if negb (lastDotIdx =? -1) then
      let tail := sliceFrom trimmed (lastDotIdx + 1) in
      if startsWith tail "claude-" then tail else trimmed
    else trimmed
  else trimmed.

Definition stripVersionSuffix (trimmed : string) : string :=
  match matchVersionSuffix trimmed with
  | Some m => slice trimmed 0 (- len m)
  | None => trimmed
  end.

Definition replaceAt (trimmed : string) : string :=
  if includes trimmed "@" then replaceFirstChar trimmed "@" "-" else trimmed.

(** The last step of [normalizeClaudeModel]: the date stamp. *)
Definition stripDateSuffix (trimmed : string) : string :=
  match matchDateSuffix trimmed with
  | Some m => knownOr KNOWN_CLAUDE_BASES (slice trimmed 0 (- len m)) trimmed
  | None => trimmed
  end.

(** Everything [normalizeClaudeModel] does before the date stamp. *)
Definition claudeDecorations (raw : string) : string :=
  let trimmed := trim raw in
  let trimmed := stripPrefix "anthropic." trimmed in
  let trimmed := stripVertexPrefix trimmed in
  let trimmed := stripVersionSuffix trimmed in
  replaceAt trimmed.

Definition normalizeClaudeModel (raw : string) : string :=
  stripDateSuffix (claudeDecorations raw).

(** Everything [normalizeCodexModel] does before the [-codex] marker. *)
Definition codexDecorations (raw : string) : string :=
  stripPrefix "openai/" (trim raw).

End ModelNormalizer.

Import ModelNormalizer.


(* ===================================================================== *)
(** ** JavaScript values and exceptions *)
(* ===================================================================== *)

(** The outcome of a call that may throw. *)
Inductive result (A : Type) : Type :=
| Ok (a : A)
| Throw.
Arguments Ok {A} a.
Arguments Throw {A}.

Definition bind {A B : Type} (r : result A) (k : A -> result B) : result B :=
  match r with
  | Ok a => k a
  | Throw => Throw
  end.

Notation "'do' x <- r ; k" := (bind r (fun x => k))
  (at level 10, x pattern, r at level 100, k at level 200).

#[local] Set Warnings "-register-all".

(** What [JSON.parse] produces.  An object keeps its members in source order. *)
Inductive json : Type :=
| JNull
| JBool (b : bool)
| JNum (q : Q)
| JStr (s : string)
| JArr (items : list json)
| JObj (members : list (string * json)).

(** A JavaScript value read from parsed JSON: [None] is [undefined]. *)
Definition jsval : Type := option json.

Module Js.

(** [o[k]] on the members of an object: with a repeated key the last
    member wins, as [JSON.parse] builds the object. *)
Fixpoint lookupMember (members : list (string * json)) (k : string) : jsval :=
  match members with
  | [] => None
  | (k', v) :: rest =>
      match lookupMember rest k with
      | Some w => Some w
      | None => if String.eqb k' k then Some v else None
      end
  end.

(** [v.k] for a value that is neither [null] nor [undefined]: the keys read
    by the scanners are own properties of objects only. *)
Definition member (v : json) (k : string) : jsval :=
  match v with
  | JObj members => lookupMember members k
  | _ => None
  end.

(** [v.k] for any parsed value: reading a property of [null] throws. *)
Definition get (v : json) (k : string) : result jsval :=
  match v with
  | JNull => Throw
  | _ => Ok (member v k)
  end.

(** [v?.k] *)
Definition optGet (v : jsval) (k : string) : jsval :=
  match v with
  | None | Some JNull => None
  | Some w => member w k
  end.

(** [a ?? b] *)
Definition coalesce (a b : jsval) : jsval :=
  match a with
  | None | Some JNull => b
  | Some _ => a
  end.

(** ToBoolean *)
Definition truthy (v : jsval) : bool :=
  match v with
  | None | Some JNull => false
  | Some (JBool b) => b
  | Some (JNum q) => negb (Qeq_bool q 0)
  | Some (JStr s) => negb (String.eqb s "")
  | Some (JArr _) | Some (JObj _) => true
  end.

(** The value tested by [if (v)], kept when the test succeeds. *)
Definition whenTruthy (v : jsval) : option json :=
  if truthy v then v else None.

(** [v === 'literal'] *)
Definition isString (v : jsval) (lit : string) : bool :=
  match v with
  | Some (JStr s) => String.eqb s lit
  | _ => false
  end.

(** The numeric value of a maximal run of leading digits. *)
Fixpoint digitsValue (s : string) (acc : Z) : Z :=
  match s with
  | EmptyString => acc
  | String a s' =>
      if isDigit a then digitsValue s' (10 * acc + (Z.of_nat (nat_of_ascii a) - 48))
      else acc
  end.

Definition startsWithDigit (s : string) : bool :=
  match s with
  | String a _ => isDigit a
  | EmptyString => false
  end.

(** [parseInt(s, 10) || 0]: leading white space, an optional sign, then
    digits; no digit gives [NaN], which [||] turns into [0]. *)
Definition parseIntOrZero (s : string) : Z :=
  match trimStart s with
  | String "-" t => if startsWithDigit t then - digitsValue t 0 else 0
  | String "+" t => if startsWithDigit t then digitsValue t 0 else 0
  | t => if startsWithDigit t then digitsValue t 0 else 0
  end.

(** [String(n)] for an integer. *)
Fixpoint posDigits (fuel : nat) (n : Z) (acc : string) : string :=
  match fuel with
  | O => acc
  | S fuel' =>
      let acc' := String (ascii_of_nat (Z.to_nat (48 + n mod 10))) acc in
      if n <? 10 then acc' else posDigits fuel' (n / 10) acc'
  end.

Definition intToString (n : Z) : string :=
  if n <? 0 then String "-" (posDigits (S (Z.to_nat (Z.log2 (- n)))) (- n) "")
  else posDigits (S (Z.to_nat (Z.log2 n))) n "".

(** [String(n).padStart(2, '0')] *)
Definition pad2 (n : Z) : string :=
  let s := intToString n in
  if len s <? 2 then String "0" s else s.

End Js.

Import Js.

(* ===================================================================== *)
(** ** The runtime: paths and files *)
(* ===================================================================== *)

(** Node's [path] module on a POSIX host. *)
Module NodePath.

Definition nonEmpty (s : string) : bool := negb (String.eqb s "").

(** The segments kept by [normalizeString]: empty and [.] segments go,
    [..] removes the segment before it, or stays when there is none to
    remove and the path is relative. *)
Fixpoint resolveSegments (allowAboveRoot : bool) (segs stack : list string) : list string :=
  match segs with
  | [] => List.rev stack
  | seg :: rest =>
      if String.eqb seg "" || String.eqb seg "." then
        resolveSegments allowAboveRoot rest stack
      else if String.eqb seg ".." then
        match stack with
        | top :: below =>
            if String.eqb top ".." then resolveSegments allowAboveRoot rest (seg :: stack)
            else resolveSegments allowAboveRoot rest below
        | [] =>
            if allowAboveRoot then resolveSegments allowAboveRoot rest [seg]
            else resolveSegments allowAboveRoot rest []
        end
      else resolveSegments allowAboveRoot rest (seg :: stack)
  end.

Fixpoint joinWith (sep : string) (parts : list string) : string :=
  match parts with
  | [] => ""
  | [p] => p
  | p :: rest => String.append p (String.append sep (joinWith sep rest))
  end.

Definition endsWithSlash (p : string) : bool :=
  match rev p with
  | String "/" _ => true
  | _ => false
  end.

(** [path.normalize(p)] *)
Definition normalize (p : string) : string :=
  if String.eqb p "" then "."
  else
    let isAbsolute := startsWith p "/" in
    let trailingSeparator := endsWithSlash p in
    let body := joinWith "/" (resolveSegments (negb isAbsolute) (split p "/") []) in
    if String.eqb body "" then
      (if isAbsolute then "/" else if trailingSeparator then "./" else ".")
    else
      let body := if trailingSeparator then String.append body "/" else body in
      if isAbsolute then String "/" body else body.

(** [path.join(...parts)] *)
Definition join (parts : list string) : string :=
  let joined := joinWith "/" (List.filter nonEmpty parts) in
  if String.eqb joined "" then "." else normalize joined.

(** [path.basename(p)]: the last non-empty segment. *)
Definition basename (p : string) : string :=
  match List.rev (List.filter nonEmpty (split p "/")) with
  | seg :: _ => seg
  | [] => ""
  end.

End NodePath.

(** A regular file as the scanners observe it: [statSync] gives its size in
    bytes and [mtimeMs]; reading gives its bytes. *)
Record FileData : Type := mkFile {
  content : string;
  mtimeMs : Z;
}.

(** The part of the file system a scan pass reads.  [dirExists] is
    [fs.existsSync]; [jsonlFilesUnder] is the listing computed by
    [findJsonlFiles]; [fileAt] holds the regular files by absolute path. *)
Record Disk : Type := mkDisk {
  dirExists : string -> bool;
  jsonlFilesUnder : string -> list string;
  fileAt : gmap string FileData;
}.

Definition fileSize (f : FileData) : Z := len (content f).

(** The bytes [[offset, size)] of a file, as [readSync] fills the buffer. *)
Definition readFrom (f : FileData) (offset : Z) : string :=
  drop (Z.to_nat offset) (content f).

(* ===================================================================== *)
(** ** Helpers shared by both scanners *)
(* ===================================================================== *)

(** JSON text is written here with apostrophes where the log has double
    quotes: [jsonText] puts the double quotes back. *)
Fixpoint jsonText (s : string) : string :=
  match s with
  | EmptyString => EmptyString
  | String a s' => String (if Ascii.eqb a "'" then "034"%char else a) (jsonText s')
  end.

(** [toInt], the same function in both scanner files.  The count is exact
    here; the code's is a binary64 number, which is the same count up to
    [2^53] in absolute value and the nearest such number beyond. *)
Definition toInt (value : jsval) : Z :=
  match value with
  | Some (JNum q) => Qfloor q
  | Some (JStr s) => parseIntOrZero s
  | _ => 0
  end.

(** An insertion-ordered [Map<string, V>]: [set] on a key already present
    replaces the value where it stands, a new key goes last. *)
Module OrderedMap.
Section WithValue.
Context {V : Type}.

Fixpoint set (k : string) (v : V) (m : list (string * V)) : list (string * V) :=
  match m with
  | [] => [(k, v)]
  | (k', v') :: rest =>
      if String.eqb k' k then (k', v) :: rest else (k', v') :: set k v rest
  end.

Definition values (m : list (string * V)) : list V := map snd m.
End WithValue.
End OrderedMap.

(** What the scanners take from the JavaScript runtime. *)
Record Runtime : Type := mkRuntime {
  (** [JSON.parse(line)]; [None] when it throws a [SyntaxError]. *)
  JSON_parse : string -> option json;
  (** [new Date(v)] read in the local time zone: full year, month index
      (from 0) and day of the month; [None] for an invalid date. *)
  localDate : json -> option (Z * Z * Z);
  (** [String(x)] for a number. *)
  Number_toString : Q -> string;
}.

Section RuntimeHelpers.
Variable rt : Runtime.

(** [dayKeyFromISO], the same function in both scanner files. *)
Definition dayKeyFromISO (isoText : json) : option string :=
  match localDate rt isoText with
  | None => None
  | Some (year, month, day) =>
      Some (String.append (intToString year)
             (String.append "-"
               (String.append (pad2 (month + 1))
                 (String.append "-" (pad2 day)))))
  end.

(** The conversion to string done by a template literal. *)
Fixpoint templateString (v : json) : string :=
  match v with
  | JNull => "null"
  | JBool true => "true"
  | JBool false => "false"
  | JNum q => Number_toString rt q
  | JStr s => s
  | JArr items =>
      NodePath.joinWith ","
        (map (fun i => match i with JNull => "" | _ => templateString i end) items)
  | JObj _ => "[object Object]"
  end.
End RuntimeHelpers.

(* ===================================================================== *)
(** ** claudeLogScanner.ts: the message-oriented scanner *)
(* ===================================================================== *)

Module ClaudeLogScanner.

Record ClaudeUsageEntry : Type := mkEntry {
  dayKey : string;
  model : string;
  inputTokens : Z;
  outputTokens : Z;
  cacheReadInputTokens : Z;
  cacheCreationInputTokens : Z;
  timestamp : json;
  costUSD : option Q;
}.

Record FileScanState : Type := mkState {
  filePath : string;
  lastSize : Z;
  lastMtimeMs : Z;
  lastOffset : Z;
  entries : list ClaudeUsageEntry;
}.

(** What one line contributes to [parseFile]'s two collections. *)
Inductive lineOutcome : Type :=
| Skip
| Keyed (key : string) (entry : ClaudeUsageEntry)
| Keyless (entry : ClaudeUsageEntry).

(** [getProjectRoots]: [envVal] is [process.env.CLAUDE_CONFIG_DIR],
    [home] is [os.homedir()]. *)
Definition getProjectRoots (envVal : option string) (home : string) : list string :=
  let envVal := option_map trim envVal in
  match envVal with
  | Some (String _ _ as envVal) =>
      flat_map
        (fun part =>
           let trimmed := trim part in
           if String.eqb trimmed "" then []
           else if String.eqb (NodePath.basename trimmed) "projects" then [trimmed]
           else [NodePath.join [trimmed; "projects"]])
        (split envVal ",")
  | _ =>
      [ NodePath.join [home; ".config"; "claude"; "projects"];
        NodePath.join [home; ".claude"; "projects"] ]
  end.

Section WithRuntime.
Variable rt : Runtime.

(** The body of the loop of [parseFile] for one line, up to the point
    where the entry is stored. *)
Definition parseLine (line : string) : result lineOutcome :=
  if String.eqb line "" then Ok Skip
  else if negb (includes line (jsonText "'type':'assistant'"))
          && negb (includes line (jsonText "'type': 'assistant'")) then Ok Skip
  else if negb (includes line (jsonText "'usage'")) then Ok Skip
  else
    match JSON_parse rt line with
    | None => Ok Skip
    | Some obj =>
        do type <- get obj "type";
        if negb (isString type "assistant") then Ok Skip
        else
          match whenTruthy (member obj "timestamp") with
          | None => Ok Skip
          | Some tsText =>
          match dayKeyFromISO rt tsText with
          | None => Ok Skip
          | Some dayKey =>
          match whenTruthy (member obj "message") with
          | None => Ok Skip
          | Some message =>
          let model := member message "model" in
          if negb (truthy model) || isString model "<synthetic>" then Ok Skip
          else
          match whenTruthy (member message "usage") with
          | None => Ok Skip
          | Some usage =>
          let inputTokens := Z.max 0 (toInt (member usage "input_tokens")) in
          let outputTokens := Z.max 0 (toInt (member usage "output_tokens")) in
          let cacheReadInputTokens :=
            Z.max 0 (toInt (member usage "cache_read_input_tokens")) in
          let cacheCreationInputTokens :=
            Z.max 0 (toInt (member usage "cache_creation_input_tokens")) in
          if (inputTokens =? 0) && (outputTokens =? 0)
             && (cacheReadInputTokens =? 0) && (cacheCreationInputTokens =? 0)
          then Ok Skip
          else
          let costUSD :=
            match member obj "costUSD" with
            | Some (JNum q) => Some q
            | _ => None
            end in
          match model with
          | Some (JStr modelName) =>
              let entry :=
                {| dayKey := dayKey;
                   model := normalizeClaudeModel modelName;
                   inputTokens := inputTokens;
                   outputTokens := outputTokens;
                   cacheReadInputTokens := cacheReadInputTokens;
                   cacheCreationInputTokens := cacheCreationInputTokens;
                   timestamp := tsText;
                   costUSD := costUSD |} in
              match whenTruthy (member message "id"),
                    whenTruthy (member obj "requestId") with
              | Some messageId, Some requestId =>
                  Ok (Keyed (String.append (templateString rt messageId)
                               (String.append ":" (templateString rt requestId)))
                            entry)
              | _, _ => Ok (Keyless entry)
              end
          | _ =>
              (* [raw.trim] is not a function *)
              Throw
          end
          end end end end
    end.

(** The loop of [parseFile] over the lines that remain, with the two
    collections built so far. *)
Fixpoint parseLines (lines : list string)
    (entryByKey : list (string * ClaudeUsageEntry))
    (keylessEntries : list ClaudeUsageEntry) : result (list ClaudeUsageEntry) :=
  match lines with
  | [] => Ok (OrderedMap.values entryByKey ++ keylessEntries)
  | line :: rest =>
      do outcome <- parseLine line;
      match outcome with
      | Skip => parseLines rest entryByKey keylessEntries
      | Keyed key entry => parseLines rest (OrderedMap.set key entry entryByKey) keylessEntries
      | Keyless entry => parseLines rest entryByKey (keylessEntries ++ [entry])
      end
  end.

(** [parseFile], after the bytes from the offset have been read. *)
Definition parseContent (text : string) : result (list ClaudeUsageEntry) :=
  parseLines (split text "010") [] [].

Definition parseFile (disk : Disk) (filePath : string) (startOffset : Z)
    : result (list ClaudeUsageEntry) :=
  match fileAt disk !! filePath with
  | None => Ok []
  | Some f =>
      let readSize := fileSize f - startOffset in
      if readSize <=? 0 then Ok []
      else parseContent (readFrom f startOffset)
  end.

Definition scanFile (disk : Disk) (fileStates : gmap string FileScanState)
    (filePath : string)
    : result (list ClaudeUsageEntry * gmap string FileScanState) :=
  match fileAt disk !! filePath with
  | None => Ok ([], fileStates)
  | Some f =>
      let size := fileSize f in
      let mtime := mtimeMs f in
      if size <=? 0 then Ok ([], fileStates)
      else
        let cached := fileStates !! filePath in
        match cached with
        | Some c =>
            if (lastSize c =? size) && (lastMtimeMs c =? mtime) then
              Ok (entries c, fileStates)
            else if (lastSize c <? size) && (0 <? lastOffset c) && (lastOffset c <=? size) then
              do newEntries <- parseFile disk filePath (lastOffset c);
              let mergedEntries := entries c ++ newEntries in
              Ok (mergedEntries,
                   <[filePath := mkState filePath size mtime size mergedEntries]> fileStates)
            else
              do entries <- parseFile disk filePath 0;
              Ok (entries, <[filePath := mkState filePath size mtime size entries]> fileStates)
        | None =>
            do entries <- parseFile disk filePath 0;
            Ok (entries, <[filePath := mkState filePath size mtime size entries]> fileStates)
        end
  end.

(** The inner loop of [scan] over the files found under one root. *)
Fixpoint scanFiles (disk : Disk) (files : list string)
    (acc : list ClaudeUsageEntry * gset string * gmap string FileScanState)
    : result (list ClaudeUsageEntry * gset string * gmap string FileScanState) :=
  match files with
  | [] => Ok acc
  | filePath :: rest =>
      let '(allEntries, touchedPaths, fileStates) := acc in
      do (entries, fileStates') <- scanFile disk fileStates filePath;
      scanFiles disk rest (allEntries ++ entries, {[filePath]} ∪ touchedPaths, fileStates')
  end.

(** The outer loop of [scan] over the roots. *)
Fixpoint scanRoots (disk : Disk) (roots : list string)
    (acc : list ClaudeUsageEntry * gset string * gmap string FileScanState)
    : result (list ClaudeUsageEntry * gset string * gmap string FileScanState) :=
  match roots with
  | [] => Ok acc
  | root :: rest =>
      if negb (dirExists disk root) then scanRoots disk rest acc
      else
        do acc' <- scanFiles disk (jsonlFilesUnder disk root) acc;
        scanRoots disk rest acc'
  end.

(** [scan]: the entries of all files, and the cache without the paths
    this pass did not touch. *)
Definition scan (envVal : option string) (home : string) (disk : Disk)
    (fileStates : gmap string FileScanState)
    : result (list ClaudeUsageEntry * gmap string FileScanState) :=
  let roots := getProjectRoots envVal home in
  do (allEntries, touchedPaths, fileStates') <- scanRoots disk roots ([], ∅, fileStates);
  Ok (allEntries,
      filter (fun kv => bool_decide (fst kv ∈ touchedPaths)) fileStates').

End WithRuntime.

End ClaudeLogScanner.

(** Reading a message line the way a person reads the log. *)
Module MessageLine.
Import ClaudeLogScanner.

(** The entry of a line that contributes one. *)
Definition entryOf (o : lineOutcome) : option ClaudeUsageEntry :=
match o with
| Skip => None
| Keyed _ e => Some e
| Keyless e => Some e
end.


(** The deduplication keys of some lines. *)
Definition lineKeys (rt : Runtime) (lines : list string) : list string :=
flat_map (fun line =>
            match parseLine rt line with
            | Ok (Keyed k _) => [k]
            | _ => []
            end)
         lines.

(** The deduplication keys of the lines of a text. *)
Definition keysOf (rt : Runtime) (text : string) : list string :=
lineKeys rt (split text "010").

End MessageLine.

(* ===================================================================== *)
(** ** codexLogScanner.ts: the counter-oriented scanner *)
(* ===================================================================== *)

Module CodexLogScanner.

Record CodexUsageEntry : Type := mkEntry {
  dayKey : string;
  model : string;
  inputTokens : Z;
  cachedInputTokens : Z;
  outputTokens : Z;
  timestamp : json;
}.

Record CumulativeTotals : Type := mkTotals {
  input : Z;
  cached : Z;
  output : Z;
}.

Record FileScanState : Type := mkState {
  filePath : string;
  lastSize : Z;
  lastMtimeMs : Z;
  lastOffset : Z;
  lastTotals : option CumulativeTotals;
  lastModel : jsval;
  entries : list CodexUsageEntry;
}.

(** The value [parseFile] returns: entries and the state to carry on. *)
Record ParseResult : Type := mkResult {
  r_entries : list CodexUsageEntry;
  r_lastModel : jsval;
  r_lastTotals : option CumulativeTotals;
}.

(** [getSessionRoots]: [envVal] is [process.env.CODEX_HOME], [home] is
    [os.homedir()], [existsSync] is [fs.existsSync]. *)
Definition getSessionRoots (envVal : option string) (home : string)
    (existsSync : string -> bool) : list string :=
  let envHome := option_map trim envVal in
  let codexHome :=
    match envHome with
    | Some (String _ _ as envHome) => envHome
    | _ => NodePath.join [home; ".codex"]
    end in
  let sessionsDir := NodePath.join [codexHome; "sessions"] in
  let archivedDir := NodePath.join [codexHome; "archived_sessions"] in
  if existsSync archivedDir then [sessionsDir; archivedDir] else [sessionsDir].

(** [previousTotals?.field ?? 0] *)
Definition previous (field : CumulativeTotals -> Z) (previousTotals : option CumulativeTotals) : Z :=
  match previousTotals with
  | Some t => field t
  | None => 0
  end.

(** The model of a counter line:
    [info?.model ?? info?.model_name ?? payload.model ?? obj.model],
    then [?? currentModel ?? 'gpt-5']. *)
Definition resolveModel (obj payload : json) (info currentModel : jsval) : jsval :=
  let modelFromInfo :=
    coalesce (optGet info "model")
      (coalesce (optGet info "model_name")
         (coalesce (member payload "model") (member obj "model"))) in
  coalesce modelFromInfo (coalesce currentModel (Some (JStr "gpt-5"))).

Section WithRuntime.
Variable rt : Runtime.

(** The body of the loop of [parseFile] for one line: the model and
    totals carried to the next line, and the entry pushed, if any. *)
Definition parseLine (line : string) (currentModel : jsval)
    (previousTotals : option CumulativeTotals)
    : result (jsval * option CumulativeTotals * option CodexUsageEntry) :=
  let skip := Ok (currentModel, previousTotals, None) in
  if String.eqb line "" then skip
  else
    let isEventMsg := includes line (jsonText "'type':'event_msg'")
                      || includes line (jsonText "'type': 'event_msg'") in
    let isTurnContext := includes line (jsonText "'type':'turn_context'")
                         || includes line (jsonText "'type': 'turn_context'") in
    if negb isEventMsg && negb isTurnContext then skip
    else if isEventMsg && negb (includes line (jsonText "'token_count'")) then skip
    else
      match JSON_parse rt line with
      | None => skip
      | Some obj =>
          do type <- get obj "type";
          let tsText := member obj "timestamp" in
          if isString type "turn_context" then
            match whenTruthy (member obj "payload") with
            | Some payload =>
                let modelFromPayload := member payload "model" in
                let info := member payload "info" in
                let modelFromInfo := optGet info "model" in
                Ok (coalesce modelFromPayload (coalesce modelFromInfo currentModel),
                    previousTotals, None)
            | None => skip
            end
          else if negb (isString type "event_msg") then skip
          else
          match whenTruthy tsText with
          | None => skip
          | Some tsText =>
          match dayKeyFromISO rt tsText with
          | None => skip
          | Some dayKey =>
          match whenTruthy (member obj "payload") with
          | None => skip
          | Some payload =>
          if negb (isString (member payload "type") "token_count") then skip
          else
          let info := member payload "info" in
          let model := resolveModel obj payload info currentModel in
          let total := optGet info "total_token_usage" in
          let last := optGet info "last_token_usage" in
          (* the code after the branch on [total] and [last] *)
          let emit (deltaInput deltaCached deltaOutput : Z)
                   (previousTotals' : option CumulativeTotals) :=
            if (deltaInput =? 0) && (deltaCached =? 0) && (deltaOutput =? 0)
            then Ok (currentModel, previousTotals', None)
            else
              let cachedClamped := Z.min deltaCached deltaInput in
              match model with
              | Some (JStr modelName) =>
                  Ok (currentModel, previousTotals',
                      Some {| dayKey := dayKey;
                              model := normalizeCodexModel modelName;
                              inputTokens := deltaInput;
                              cachedInputTokens := cachedClamped;
                              outputTokens := deltaOutput;
                              timestamp := tsText |})
              | _ =>
                  (* [raw.trim] is not a function *)
                  Throw
              end in
          match whenTruthy total, whenTruthy last with
          | Some total, _ =>
              let input := toInt (member total "input_tokens") in
              let cached :=
                toInt (coalesce (member total "cached_input_tokens")
                                (member total "cache_read_input_tokens")) in
              let output := toInt (member total "output_tokens") in
              emit (Z.max 0 (input - previous CodexLogScanner.input previousTotals))
                   (Z.max 0 (cached - previous CodexLogScanner.cached previousTotals))
                   (Z.max 0 (output - previous CodexLogScanner.output previousTotals))
                   (Some (mkTotals input cached output))
          | None, Some last =>
              emit (Z.max 0 (toInt (member last "input_tokens")))
                   (Z.max 0 (toInt (coalesce (member last "cached_input_tokens")
                                         (member last "cache_read_input_tokens"))))
                   (Z.max 0 (toInt (member last "output_tokens")))
                   previousTotals
          | None, None => skip
          end
          end end end
      end.

(** The loop of [parseFile] over the lines that remain. *)
Fixpoint parseLines (lines : list string) (entries : list CodexUsageEntry)
    (currentModel : jsval) (previousTotals : option CumulativeTotals)
    : result ParseResult :=
  match lines with
  | [] => Ok (mkResult entries currentModel previousTotals)
  | line :: rest =>
      do (currentModel', previousTotals', pushed) <- parseLine line currentModel previousTotals;
      parseLines rest
        (match pushed with Some e => entries ++ [e] | None => entries end)
        currentModel' previousTotals'
  end.

(** [parseFile], after the bytes from the offset have been read. *)
Definition parseContent (text : string) (initialModel : jsval)
    (initialTotals : option CumulativeTotals) : result ParseResult :=
  parseLines (split text "010") [] initialModel initialTotals.

Definition parseFile (disk : Disk) (filePath : string) (startOffset : Z)
    (initialModel : jsval) (initialTotals : option CumulativeTotals)
    : result ParseResult :=
  match fileAt disk !! filePath with
  | None => Ok (mkResult [] initialModel initialTotals)
  | Some f =>
      let readSize := fileSize f - startOffset in
      if readSize <=? 0 then Ok (mkResult [] initialModel initialTotals)
      else parseContent (readFrom f startOffset) initialModel initialTotals
  end.

Definition scanFile (disk : Disk) (fileStates : gmap string FileScanState)
    (filePath : string)
    : result (list CodexUsageEntry * gmap string FileScanState) :=
  match fileAt disk !! filePath with
  | None => Ok ([], fileStates)
  | Some f =>
      let size := fileSize f in
      let mtime := mtimeMs f in
      if size <=? 0 then Ok ([], fileStates)
      else
        let fullRescan :=
          do r <- parseFile disk filePath 0 None None;
          Ok (r_entries r,
              <[filePath := mkState filePath size mtime size
                              (r_lastTotals r) (r_lastModel r) (r_entries r)]> fileStates) in
        match fileStates !! filePath with
        | Some c =>
            if (lastSize c =? size) && (lastMtimeMs c =? mtime) then
              Ok (entries c, fileStates)
            else if (lastSize c <? size) && (0 <? lastOffset c) && (lastOffset c <=? size) then
              do r <- parseFile disk filePath (lastOffset c) (lastModel c) (lastTotals c);
              let mergedEntries := entries c ++ r_entries r in
              Ok (mergedEntries,
                  <[filePath := mkState filePath size mtime size
                                  (r_lastTotals r) (r_lastModel r) mergedEntries]> fileStates)
            else fullRescan
        | None => fullRescan
        end
  end.

(** The inner loop of [scan] over the files found under one root. *)
Fixpoint scanFiles (disk : Disk) (files : list string)
    (acc : list CodexUsageEntry * gset string * gmap string FileScanState)
    : result (list CodexUsageEntry * gset string * gmap string FileScanState) :=
  match files with
  | [] => Ok acc
  | filePath :: rest =>
      let '(allEntries, touchedPaths, fileStates) := acc in
      do (entries, fileStates') <- scanFile disk fileStates filePath;
      scanFiles disk rest (allEntries ++ entries, {[filePath]} ∪ touchedPaths, fileStates')
  end.

(** The outer loop of [scan] over the roots. *)
Fixpoint scanRoots (disk : Disk) (roots : list string)
    (acc : list CodexUsageEntry * gset string * gmap string FileScanState)
    : result (list CodexUsageEntry * gset string * gmap string FileScanState) :=
  match roots with
  | [] => Ok acc
  | root :: rest =>
      if negb (dirExists disk root) then scanRoots disk rest acc
      else
        do acc' <- scanFiles disk (jsonlFilesUnder disk root) acc;
        scanRoots disk rest acc'
  end.

(** [scan] *)
Definition scan (envVal : option string) (home : string) (disk : Disk)
    (fileStates : gmap string FileScanState)
    : result (list CodexUsageEntry * gmap string FileScanState) :=
  let roots := getSessionRoots envVal home (dirExists disk) in
  do (allEntries, touchedPaths, fileStates') <- scanRoots disk roots ([], ∅, fileStates);
  Ok (allEntries,
      filter (fun kv => bool_decide (fst kv ∈ touchedPaths)) fileStates').

End WithRuntime.

End CodexLogScanner.

(** Reading a counter line the way a person reads the log: the cumulative
    totals and the model names it carries. *)
Module CounterLine.
Import CodexLogScanner.




(** The first value of a list that is neither [undefined] nor [null]. *)
Fixpoint firstPresent (candidates : list jsval) : jsval :=
match candidates with
| [] => None
| c :: rest =>
    match c with
    | None | Some JNull => firstPresent rest
    | Some _ => c
    end
end.



(** The tests of the loop of [parseFile] that a line passes before it is
    parsed: it is not empty, it mentions one of the two types, and a line
    that mentions [event_msg] also mentions [token_count]. *)
Definition prefilter (line : string) : bool :=
if String.eqb line "" then false
else
  let isEventMsg := includes line (jsonText "'type':'event_msg'")
                    || includes line (jsonText "'type': 'event_msg'") in
  let isTurnContext := includes line (jsonText "'type':'turn_context'")
                       || includes line (jsonText "'type': 'turn_context'") in
  if negb isEventMsg && negb isTurnContext then false
  else if isEventMsg && negb (includes line (jsonText "'token_count'")) then false
  else true.

(** The object and the [type] of a line the loop reads on. *)
Definition typedLine (rt : Runtime) (line : string) : option (json * jsval) :=
if prefilter line then
  match JSON_parse rt line with
  | Some obj =>
      match get obj "type" with
      | Ok type => Some (obj, type)
      | Throw => None
      end
  | None => None
  end
else None.

(** The model a context line names, [payload.model ?? info?.model]: the
    line has the type [turn_context] and a payload.  Any other line names
    none. *)
Definition contextModel (rt : Runtime) (line : string) : jsval :=
match typedLine rt line with
| Some (obj, type) =>
    if isString type "turn_context" then
      match whenTruthy (member obj "payload") with
      | Some payload =>
          coalesce (member payload "model") (optGet (member payload "info") "model")
      | None => None
      end
    else None
| None => None
end.

(** The model of the most recent of some lines that names one as a context
    line, and the model carried in when none of them does. *)
Definition lastContextModel (rt : Runtime) (lines : list string) (initialModel : jsval)
  : jsval :=
coalesce (firstPresent (map (contextModel rt) (List.rev lines))) initialModel.






End CounterLine.

(* ===================================================================== *)
(** ** A reference runtime *)
(* ===================================================================== *)

(** A model of [JSON.parse] on 8-bit text (ECMA-404), used to run the
    scanners on concrete log lines.  Numbers are read exactly; a [\u]
    escape above 255 is outside the 8-bit model and is refused. *)
Module JsonText.

Definition isJsonSpace (c : ascii) : bool :=
  let n := nat_of_ascii c in
  (n =? 32)%nat || (n =? 9)%nat || (n =? 10)%nat || (n =? 13)%nat.

Fixpoint skipSpace (s : string) : string :=
  match s with
  | String a s' => if isJsonSpace a then skipSpace s' else s
  | EmptyString => EmptyString
  end.

Definition hexValue (c : ascii) : option Z :=
  let n := Z.of_nat (nat_of_ascii c) in
  if (48 <=? n) && (n <=? 57) then Some (n - 48)
  else if (97 <=? n) && (n <=? 102) then Some (n - 87)
  else if (65 <=? n) && (n <=? 70) then Some (n - 55)
  else None.

(** The characters of a string literal after its opening quote, and the
    text after its closing quote. *)
Fixpoint stringBody (s : string) : option (string * string) :=
  match s with
  | EmptyString => None
  | String "034" rest => Some (EmptyString, rest)
  | String "\" (String e rest) =>
      let continue (c : ascii) (rest : string) :=
        match stringBody rest with
        | Some (body, rest') => Some (String c body, rest')
        | None => None
        end in
      match e with
      | "034"%char | "\"%char | "/"%char => continue e rest
      | "b"%char => continue "008"%char rest
      | "f"%char => continue "012"%char rest
      | "n"%char => continue "010"%char rest
      | "r"%char => continue "013"%char rest
      | "t"%char => continue "009"%char rest
      | "u"%char =>
          match rest with
          | String h1 (String h2 (String h3 (String h4 rest4))) =>
              match hexValue h1, hexValue h2, hexValue h3, hexValue h4 with
              | Some 0, Some 0, Some d3, Some d4 =>
                  match stringBody rest4 with
                  | Some (body, rest') =>
                      Some (String (ascii_of_nat (Z.to_nat (16 * d3 + d4))) body, rest')
                  | None => None
                  end
              | _, _, _, _ => None
              end
          | _ => None
          end
      | _ => None
      end
  | String a rest =>
      if (nat_of_ascii a <? 32)%nat then None
      else match stringBody rest with
           | Some (body, rest') => Some (String a body, rest')
           | None => None
           end
  end.

(** [int frac? exp?] after an optional minus sign. *)
Definition number (s : string) : option (Q * string) :=
  let '(negative, s) :=
    match s with
    | String "-" s' => (true, s')
    | _ => (false, s)
    end in
  let '(intDigits, s) := spanDigits s in
  match intDigits with
  | EmptyString => None
  | String "0" (String _ _) => None
  | _ =>
      let '(fracDigits, s, fracOk) :=
        match s with
        | String "." s' =>
            let '(ds, s'') := spanDigits s' in (ds, s'', negb (String.eqb ds ""))
        | _ => (EmptyString, s, true)
        end in
      let '(exponent, s, expOk) :=
        match s with
        | String c s' =>
            if Ascii.eqb c "e" || Ascii.eqb c "E" then
              let '(sign, s'') :=
                match s' with
                | String "-" t => (-1, t)
                | String "+" t => (1, t)
                | _ => (1, s')
                end in
              let '(ds, s''') := spanDigits s'' in
              (sign * digitsValue ds 0, s''', negb (String.eqb ds ""))
            else (0, s, true)
        | _ => (0, s, true)
        end in
      if fracOk && expOk then
        let mantissa := digitsValue (String.append intDigits fracDigits) 0 in
        let scale := exponent - len fracDigits in
        let magnitude :=
          if 0 <=? scale then inject_Z (mantissa * 10 ^ scale)
          else Qmake mantissa (Z.to_pos (10 ^ (- scale))) in
        Some (Qred (if negative then Qopp magnitude else magnitude), s)
      else None
  end.

Fixpoint value (fuel : nat) (s : string) : option (json * string) :=
  match fuel with
  | O => None
  | S fuel' =>
      let s := skipSpace s in
      if startsWith s "null" then Some (JNull, skipSpace (drop 4 s))
      else if startsWith s "true" then Some (JBool true, skipSpace (drop 4 s))
      else if startsWith s "false" then Some (JBool false, skipSpace (drop 5 s))
      else
        match s with
        | String "034" rest =>
            match stringBody rest with
            | Some (body, rest') => Some (JStr body, skipSpace rest')
            | None => None
            end
        | String "[" rest =>
            match skipSpace rest with
            | String "]" rest' => Some (JArr [], skipSpace rest')
            | rest' =>
                match elements fuel' rest' with
                | Some (items, rest'') => Some (JArr items, skipSpace rest'')
                | None => None
                end
            end
        | String "{" rest =>
            match skipSpace rest with
            | String "}" rest' => Some (JObj [], skipSpace rest')
            | rest' =>
                match members fuel' rest' with
                | Some (ms, rest'') => Some (JObj ms, skipSpace rest'')
                | None => None
                end
            end
        | _ =>
            match number s with
            | Some (q, rest) => Some (JNum q, skipSpace rest)
            | None => None
            end
        end
  end
with elements (fuel : nat) (s : string) : option (list json * string) :=
  match fuel with
  | O => None
  | S fuel' =>
      match value fuel' s with
      | Some (v, String "," rest) =>
          match elements fuel' rest with
          | Some (vs, rest') => Some (v :: vs, rest')
          | None => None
          end
      | Some (v, String "]" rest) => Some ([v], rest)
      | _ => None
      end
  end
with members (fuel : nat) (s : string) : option (list (string * json) * string) :=
  match fuel with
  | O => None
  | S fuel' =>
      match skipSpace s with
      | String "034" rest =>
          match stringBody rest with
          | Some (key, rest') =>
              match skipSpace rest' with
              | String ":" rest'' =>
                  match value fuel' rest'' with
                  | Some (v, String "," rest3) =>
                      match members fuel' rest3 with
                      | Some (ms, rest4) => Some ((key, v) :: ms, rest4)
                      | None => None
                      end
                  | Some (v, String "}" rest3) => Some ([(key, v)], rest3)
                  | _ => None
                  end
              | _ => None
              end
          | None => None
          end
      | _ => None
      end
  end.

(** [JSON.parse(text)] *)
Definition parse (text : string) : option json :=
  match value (S (String.length text)) text with
  | Some (v, EmptyString) => Some v
  | _ => None
  end.

End JsonText.

(** A model of [new Date(v)] for timestamps of the form
    [YYYY-MM-DDThh:mm:ss...] on a host whose time zone is UTC: the calendar
    day is the one written in the text. *)
Definition utcDate (v : json) : option (Z * Z * Z) :=
  match v with
  | JStr s =>
      let year := slice s 0 4 in
      let month := slice s 5 7 in
      let day := slice s 8 10 in
      if (19 <=? len s) && allDigits year && allDigits month && allDigits day
         && String.eqb (slice s 4 5) "-" && String.eqb (slice s 7 8) "-"
         && String.eqb (slice s 10 11) "T"
         && (1 <=? digitsValue month 0) && (digitsValue month 0 <=? 12)
         && (1 <=? digitsValue day 0) && (digitsValue day 0 <=? 31)
      then Some (digitsValue year 0, digitsValue month 0 - 1, digitsValue day 0)
      else None
  | _ => None
  end.

(** [String(x)] for a number with an integer value below [10^21]; other
    numbers do not occur in the examples. *)
Definition integerToString (q : Q) : string := intToString (Qfloor q).

(** The runtime the concrete examples run on. *)
Definition referenceRuntime : Runtime :=
  {| JSON_parse := JsonText.parse;
     localDate := utcDate;
     Number_toString := integerToString |}.

(** The environment overrides, as the interface description words them. *)
Module OverrideRoots.

(** A listed path: kept when its last segment is the expected
    subdirectory, else extended by it. *)
Definition rootFor (subdir entry : string) : string :=
if String.eqb (NodePath.basename entry) subdir then entry
else NodePath.join [entry; subdir].

(** The roots for a comma-separated value, every entry taken as written. *)
Definition asListed (subdir value : string) : list string :=
map (rootFor subdir) (split value ",").

(** The same with white space around the value and around each entry
    dropped, and empty entries left out. *)
Definition asListedTrimmed (subdir value : string) : list string :=
map (rootFor subdir) (List.filter NodePath.nonEmpty (map trim (split (trim value) ","))).

End OverrideRoots.

(* ===================================================================== *)
(** ** aiUsageTracker.ts: pricing and the ledger *)
(* ===================================================================== *)

(** JavaScript numbers where the code computes money: binary64. *)
Module JsNumber.
Local Open Scope float_scope.

(** The number whose value is the integer [z], rounded to nearest even
    beyond 53 bits. *)
Definition ofZ (z : Z) : float :=
  SF2Prim (SpecFloat.binary_normalize prec emax z 0 false).

(** [Math.min(a, b)] *)
Definition min (a b : float) : float :=
  match PrimFloat.compare a b with
  | FLt => a
  | FGt => b
  | FEq => if PrimFloat.ltb (1 / a) (1 / b) then a else b
  | FNotComparable => nan
  end.

(** [Math.max(a, b)] *)
Definition max (a b : float) : float :=
  match PrimFloat.compare a b with
  | FLt => b
  | FGt => a
  | FEq => if PrimFloat.ltb (1 / a) (1 / b) then b else a
  | FNotComparable => nan
  end.

(** [Math.round(x)]: the nearest integer, a tie going up; zeros,
    infinities and [NaN] are returned as they are. *)
Definition round (x : float) : float :=
  match Prim2SF x with
  | SpecFloat.S754_finite s m e =>
      if (0 <=? e)%Z then x
      else
        let num := (if s then - Z.pos m else Z.pos m)%Z in
        let den := (2 ^ (- e))%Z in
        let n := ((2 * num + den) / (2 * den))%Z in
        if (n =? 0)%Z then (if s then (-0) else 0) else ofZ n
  | _ => x
  end.

End JsNumber.

Module AiUsageTracker.
Local Open Scope float_scope.

Inductive AiProvider : Type := anthropic | openai | google | deepseek | other.

Inductive AiRequestSource : Type :=
  src_telegram | src_discord | src_api | src_claude_code | src_other.

#[global] Instance AiProvider_eq_dec : EqDecision AiProvider.
Proof. solve_decision. Defined.

#[global] Instance AiRequestSource_eq_dec : EqDecision AiRequestSource.
Proof. solve_decision. Defined.

Record Tier : Type := mkTier {
  thresholdTokens : float;
  t_input : float;
  t_output : float;
  t_cacheRead : option float;
  t_cacheCreation : option float;
}.

Record PricingEntry : Type := mkPricing {
  p_input : float;
  p_output : float;
  p_cacheRead : option float;
  p_cacheCreation : option float;
  aboveThreshold : option Tier;
}.

Definition flat (i o : float) : PricingEntry := mkPricing i o None None None.
Definition withRead (i o r : float) : PricingEntry := mkPricing i o (Some r) None None.
Definition withCache (i o r c : float) : PricingEntry := mkPricing i o (Some r) (Some c) None.
Definition tiered (i o r c : float) (thr i' o' r' c' : float) : PricingEntry :=
  mkPricing i o (Some r) (Some c) (Some (mkTier thr i' o' (Some r') (Some c'))).

(** The own properties of the object literal [MODEL_PRICING]. *)
Definition MODEL_PRICING : list (string * PricingEntry) :=
  [ ("gpt-5", withRead 1.25 10.0 0.125);
    ("gpt-5-codex", withRead 1.25 10.0 0.125);
    ("gpt-5.1", withRead 1.25 10.0 0.125);
    ("gpt-5.2", withRead 1.75 14.0 0.175);
    ("gpt-5.2-codex", withRead 1.75 14.0 0.175);
    ("gpt-4o", flat 2.50 10.0);
    ("gpt-4o-mini", flat 0.15 0.60);
    ("claude-haiku-4-5", withCache 1.0 5.0 0.1 1.25);
    ("claude-haiku-4-5-20251001", withCache 1.0 5.0 0.1 1.25);
    ("claude-opus-4-5", withCache 5.0 25.0 0.5 6.25);
    ("claude-opus-4-5-20251101", withCache 5.0 25.0 0.5 6.25);
    ("claude-sonnet-4-5", tiered 3.0 15.0 0.3 3.75 200000 6.0 22.5 0.6 7.5);
    ("claude-sonnet-4-5-20250929", tiered 3.0 15.0 0.3 3.75 200000 6.0 22.5 0.6 7.5);
    ("claude-opus-4-1", withCache 15.0 75.0 1.5 18.75);
    ("claude-opus-4-20250514", withCache 15.0 75.0 1.5 18.75);
    ("claude-opus-4-6", tiered 5.0 25.0 0.5 6.25 200000 10.0 37.5 1.0 12.5);
    ("claude-opus-4-6-20260205", tiered 5.0 25.0 0.5 6.25 200000 10.0 37.5 1.0 12.5);
    ("claude-sonnet-4-20250514", tiered 3.0 15.0 0.3 3.75 200000 6.0 22.5 0.6 7.5);
    ("gemini-2.0-flash", flat 0.10 0.40);
    ("deepseek-v3", flat 0.27 1.10);
    ("deepseek-r1", flat 0.55 2.19) ].

(** The property names every object inherits from [Object.prototype]:
    [MODEL_PRICING[name]] is then a function or an object, not a price. *)
Definition OBJECT_PROTOTYPE_KEYS : list string :=
  [ "constructor"; "__defineGetter__"; "__defineSetter__"; "hasOwnProperty";
    "__lookupGetter__"; "__lookupSetter__"; "isPrototypeOf"; "propertyIsEnumerable";
    "toString"; "valueOf"; "__proto__"; "toLocaleString" ].

Fixpoint ownPricing (table : list (string * PricingEntry)) (model : string)
    : option PricingEntry :=
  match table with
  | [] => None
  | (k, p) :: rest => if String.eqb k model then Some p else ownPricing rest model
  end.

(** The helper [tieredCost] of [calculateCost]. *)
Definition tieredCost (tokens baseRate : float) (aboveRate threshold : option float) : float :=
  match threshold, aboveRate with
  | Some threshold, Some aboveRate =>
      let below := JsNumber.min tokens threshold in
      let above := JsNumber.max (tokens - threshold) 0 in
      (below / 1000000) * baseRate + (above / 1000000) * aboveRate
  | _, _ => (tokens / 1000000) * baseRate
  end.

(** [a ?? 0] on an optional rate. *)
Definition orZero (a : option float) : float :=
  match a with Some r => r | None => 0 end.

(** The four per-category costs of [calculateCost] for a pricing entry. *)
Definition inputCost (pricing : PricingEntry) (inputTokens : Z) : float :=
  let tier := aboveThreshold pricing in
  tieredCost (JsNumber.max 0 (JsNumber.ofZ inputTokens)) (p_input pricing)
    (option_map t_input tier) (option_map thresholdTokens tier).

Definition outputCost (pricing : PricingEntry) (outputTokens : Z) : float :=
  let tier := aboveThreshold pricing in
  tieredCost (JsNumber.max 0 (JsNumber.ofZ outputTokens)) (p_output pricing)
    (option_map t_output tier) (option_map thresholdTokens tier).

Definition cacheReadCost (pricing : PricingEntry) (cacheReadTokens : Z) : float :=
  let tier := aboveThreshold pricing in
  tieredCost (JsNumber.max 0 (JsNumber.ofZ cacheReadTokens)) (orZero (p_cacheRead pricing))
    (match tier with Some t => t_cacheRead t | None => None end)
    (option_map thresholdTokens tier).

Definition cacheCreationCost (pricing : PricingEntry) (cacheCreationTokens : Z) : float :=
  let tier := aboveThreshold pricing in
  tieredCost (JsNumber.max 0 (JsNumber.ofZ cacheCreationTokens))
    (orZero (p_cacheCreation pricing))
    (match tier with Some t => t_cacheCreation t | None => None end)
    (option_map thresholdTokens tier).

(** [calculateCost] once the pricing entry is known. *)
Definition costWith (pricing : PricingEntry)
    (inputTokens outputTokens cacheReadTokens cacheCreationTokens : Z) : float :=
  let total := inputCost pricing inputTokens + outputCost pricing outputTokens
               + cacheReadCost pricing cacheReadTokens
               + cacheCreationCost pricing cacheCreationTokens in
  JsNumber.round (total * 1000000) / 1000000.

Definition calculateCost (model : string)
    (inputTokens outputTokens cacheReadTokens cacheCreationTokens : Z) : float :=
  match ownPricing MODEL_PRICING model with
  | Some pricing =>
      costWith pricing inputTokens outputTokens cacheReadTokens cacheCreationTokens
  | None =>
      if existsb (String.eqb model) OBJECT_PROTOTYPE_KEYS then
        (* every rate read from an inherited property is [undefined] *)
        nan
      else 0
  end.

(** [normalizeModel] *)
Definition normalizeModel (model : string) (provider : AiProvider) : string :=
  match provider with
  | openai => normalizeCodexModel model
  | anthropic => normalizeClaudeModel model
  | _ => trim model
  end.

(** [Omit<AiRequestLog, 'estimatedCost'>], for a time stamp and counts that
    are integers: a [NaN] among them cannot be written here. *)
Record AiRequestLog : Type := mkLog {
  timestamp : Z;
  provider : AiProvider;
  model : string;
  inputTokens : Z;
  outputTokens : Z;
  cacheReadInputTokens : option Z;
  cacheCreationInputTokens : option Z;
  source : AiRequestSource;
  sessionId : option string;
}.

(** A row of the table [ai_requests]. *)
Record Row : Type := mkRow {
  id : Z;
  c_timestamp : Z;
  c_provider : AiProvider;
  c_model : string;
  input_tokens : Z;
  output_tokens : Z;
  cache_read_input_tokens : Z;
  cache_creation_input_tokens : Z;
  estimated_cost : float;
  c_source : AiRequestSource;
  session_id : option string;
}.

(** The columns of the unique index [idx_ai_requests_dedup]. *)
Definition DedupKey : Type := (Z * AiProvider * string * AiRequestSource * Z * Z)%type.

Definition dedupKey (r : Row) : DedupKey :=
  (c_timestamp r, c_provider r, c_model r, c_source r, input_tokens r, output_tokens r).

Definition sameKey (k : DedupKey) (r : Row) : bool := bool_decide (dedupKey r = k).

(** The rowid given to a new row: larger than every rowid in the table.
    The column is [AUTOINCREMENT], which also never gives again the id of
    a deleted row and uses one up for an insert that is skipped: the id
    given here is the code's as long as no row was deleted and no insert
    skipped. *)
Definition nextId (table : list Row) : Z := (1 + fold_right Z.max 0 (map id table))%Z.

(** [INSERT OR IGNORE INTO ai_requests ...]: the row is skipped when it
    breaks the unique index or a [NOT NULL] constraint (a [NaN] cost is
    bound as [NULL]); otherwise it is appended. *)
Definition insertOrIgnore (table : list Row) (r : Row) : list Row :=
  if PrimFloat.is_nan (estimated_cost r) then table
  else if existsb (sameKey (dedupKey r)) table then table
  else table ++ [r].

Definition orZeroZ (a : option Z) : Z :=
  match a with Some z => z | None => 0%Z end.

(** The cost [logRequest] stores: the pre-calculated one when given. *)
Definition estimatedCostOf (entry : AiRequestLog) (preCalculatedCost : option float) : float :=
match preCalculatedCost with
| Some c => c
| None =>
    calculateCost (normalizeModel (model entry) (provider entry))
      (inputTokens entry) (outputTokens entry)
      (orZeroZ (cacheReadInputTokens entry)) (orZeroZ (cacheCreationInputTokens entry))
end.

(** The values [logRequest] binds to the columns of the unique index. *)
Definition entryKey (entry : AiRequestLog) : DedupKey :=
(timestamp entry, provider entry, normalizeModel (model entry) (provider entry),
 source entry, inputTokens entry, outputTokens entry).

(** [logRequest] *)
Definition logRequest (table : list Row) (entry : AiRequestLog)
  (preCalculatedCost : option float) : list Row :=
let normalizedModel := normalizeModel (model entry) (provider entry) in
let estimatedCost := estimatedCostOf entry preCalculatedCost in
insertOrIgnore table
  {| id := nextId table;
     c_timestamp := timestamp entry;
     c_provider := provider entry;
     c_model := normalizedModel;
     input_tokens := inputTokens entry;
     output_tokens := outputTokens entry;
     cache_read_input_tokens := orZeroZ (cacheReadInputTokens entry);
     cache_creation_input_tokens := orZeroZ (cacheCreationInputTokens entry);
     estimated_cost := estimatedCost;
     c_source := source entry;
     session_id := sessionId entry |}.

(** The stored records with a given key. *)
Definition recordsWithKey (k : DedupKey) (table : list Row) : list Row :=
List.filter (sameKey k) table.

(** [migrateDeduplicateRows]: a row stays when its id is the least among
    the rows with its key. *)
Definition migrateDeduplicateRows (table : list Row) : list Row :=
  List.filter
    (fun r => forallb (fun r' => negb (sameKey (dedupKey r) r') || (id r <=? id r')%Z) table)
    table.

(** [migrateRecalculateOpus46Costs] *)
Definition migrateRecalculateOpus46Costs (table : list Row) : list Row :=
  map (fun r =>
         if String.eqb (c_model r) "claude-opus-4-6" then
           {| id := id r;
              c_timestamp := c_timestamp r;
              c_provider := c_provider r;
              c_model := c_model r;
              input_tokens := input_tokens r;
              output_tokens := output_tokens r;
              cache_read_input_tokens := cache_read_input_tokens r;
              cache_creation_input_tokens := cache_creation_input_tokens r;
              estimated_cost :=
                calculateCost "claude-opus-4-6" (input_tokens r) (output_tokens r)
                  (cache_read_input_tokens r) (cache_creation_input_tokens r);
              c_source := c_source r;
              session_id := session_id r |}
         else r)
      table.

(** [initDb] on the rows found in the file (none for a new file): the two
    sweeps, after which the unique index is created. *)
Definition initDb (table : list Row) : list Row :=
  migrateRecalculateOpus46Costs (migrateDeduplicateRows table).

(** The calls made on a tracker after it is opened. *)
Definition logAll (table : list Row) (calls : list (AiRequestLog * option float)) : list Row :=
  fold_left (fun t call => logRequest t (fst call) (snd call)) calls table.

(** [cleanupOldData]: [now] is [Date.now()], [retentionDays] a whole number
    of days, 30 when the argument is left out. *)
Definition cleanupOldData (table : list Row) (now : Z) (retentionDays : option Z) : list Row :=
  let retentionDays := match retentionDays with Some d => d | None => 30%Z end in
  let cutoff := (now - retentionDays * 24 * 60 * 60 * 1000)%Z in
  List.filter (fun r => negb (c_timestamp r <? cutoff)%Z) table.

(** A row of the query of [getUsageSummary]: one group of requests with
    the same provider and model. *)
Record GroupRow : Type := mkGroup {
  g_provider : AiProvider;
  g_model : string;
  request_count : Z;
  total_input_tokens : Z;
  total_output_tokens : Z;
  total_cache_read : Z;
  total_cache_creation : Z;
  total_cost : float;
}.

Record ModelSummary : Type := mkModelSummary {
  m_model : string;
  m_requestCount : Z;
  m_totalInputTokens : Z;
  m_totalOutputTokens : Z;
  m_totalCacheReadInputTokens : option Z;
  m_totalCacheCreationInputTokens : option Z;
  m_totalCost : float;
}.

Record ProviderSummary : Type := mkProviderSummary {
  s_provider : AiProvider;
  s_requestCount : Z;
  s_totalInputTokens : Z;
  s_totalOutputTokens : Z;
  s_totalCacheReadInputTokens : option Z;
  s_totalCacheCreationInputTokens : option Z;
  s_totalCost : float;
  models : list ModelSummary;
}.

(** [v || undefined] on a count. *)
Definition orUndefined (v : Z) : option Z := if (v =? 0)%Z then None else Some v.

(** The [modelSummary] built from a row. *)
Definition modelSummaryOf (row : GroupRow) : ModelSummary :=
  {| m_model := g_model row;
     m_requestCount := request_count row;
     m_totalInputTokens := total_input_tokens row;
     m_totalOutputTokens := total_output_tokens row;
     m_totalCacheReadInputTokens := orUndefined (total_cache_read row);
     m_totalCacheCreationInputTokens := orUndefined (total_cache_creation row);
     m_totalCost := total_cost row |}.

(** The updates the loop makes to the summary of the row's provider. *)
Definition addToProvider (provSummary : ProviderSummary) (row : GroupRow) : ProviderSummary :=
  {| s_provider := s_provider provSummary;
     s_requestCount := (s_requestCount provSummary + request_count row)%Z;
     s_totalInputTokens := (s_totalInputTokens provSummary + total_input_tokens row)%Z;
     s_totalOutputTokens := (s_totalOutputTokens provSummary + total_output_tokens row)%Z;
     s_totalCacheReadInputTokens :=
       Some (orZeroZ (s_totalCacheReadInputTokens provSummary) + total_cache_read row)%Z;
     s_totalCacheCreationInputTokens :=
       Some (orZeroZ (s_totalCacheCreationInputTokens provSummary)
             + total_cache_creation row)%Z;
     s_totalCost := s_totalCost provSummary + total_cost row;
     models := models provSummary ++ [modelSummaryOf row] |}.

(** The summary a provider gets when its first row comes. *)
Definition newProvider (provider : AiProvider) : ProviderSummary :=
  mkProviderSummary provider 0 0 0 None None 0 [].

(** One turn of the loop of [getUsageSummary] on [providerMap], a [Map]
    held here in insertion order. *)
Fixpoint addRow (providerMap : list ProviderSummary) (row : GroupRow) : list ProviderSummary :=
  match providerMap with
  | [] => [addToProvider (newProvider (g_provider row)) row]
  | provSummary :: rest =>
      if decide (s_provider provSummary = g_provider row)
      then addToProvider provSummary row :: rest
      else provSummary :: addRow rest row
  end.

(** The [providers] of the summary [getUsageSummary] returns, from the
    rows of its query. *)
Definition providersOf (rows : list GroupRow) : list ProviderSummary :=
  fold_left addRow rows [].

(** What [scanLocalLogs] takes from the JavaScript runtime. *)
Record TrackerRuntime : Type := mkTrackerRuntime {
  (** [new Date(v).getTime()]; [None] when it is [NaN]. *)
  Date_getTime : json -> option Z;
  (** The binary64 number a JSON number is read as. *)
  Number_ofJson : Q -> float;
}.

(** The state of a tracker: the caches of its two scanners and the table. *)
Record TrackerState : Type := mkTracker {
  claudeStates : gmap string ClaudeLogScanner.FileScanState;
  codexStates : gmap string CodexLogScanner.FileScanState;
  ai_requests : list Row;
}.

Section ScanLocalLogs.
Variable rt : Runtime.
Variable trt : TrackerRuntime.

(** The call of [logRequest] for an entry of the message-oriented scanner.
    A time stamp that is [NaN] is bound as [NULL], which [NOT NULL]
    refuses: the row is skipped. *)
Definition logClaudeEntry (table : list Row) (entry : ClaudeLogScanner.ClaudeUsageEntry)
    : list Row :=
  match Date_getTime trt (ClaudeLogScanner.timestamp entry) with
  | Some ts =>
      logRequest table
        {| timestamp := ts;
           provider := anthropic;
           model := ClaudeLogScanner.model entry;
           inputTokens := ClaudeLogScanner.inputTokens entry;
           outputTokens := ClaudeLogScanner.outputTokens entry;
           cacheReadInputTokens := Some (ClaudeLogScanner.cacheReadInputTokens entry);
           cacheCreationInputTokens := Some (ClaudeLogScanner.cacheCreationInputTokens entry);
           source := src_claude_code;
           sessionId := None |}
        (option_map (Number_ofJson trt) (ClaudeLogScanner.costUSD entry))
  | None => table
  end.

(** The call of [logRequest] for an entry of the counter-oriented
    scanner. *)
Definition logCodexEntry (table : list Row) (entry : CodexLogScanner.CodexUsageEntry)
    : list Row :=
  match Date_getTime trt (CodexLogScanner.timestamp entry) with
  | Some ts =>
      logRequest table
        {| timestamp := ts;
           provider := openai;
           model := CodexLogScanner.model entry;
           inputTokens := CodexLogScanner.inputTokens entry;
           outputTokens := CodexLogScanner.outputTokens entry;
           cacheReadInputTokens := Some (CodexLogScanner.cachedInputTokens entry);
           cacheCreationInputTokens := None;
           source := src_api;
           sessionId := None |}
        None
  | None => table
  end.

(** [scanLocalLogs]: the count returned and the state left, when neither
    scanner throws.  [claudeEnv] and [codexEnv] are the two environment
    variables, [home] is [os.homedir()]. *)
Definition scanLocalLogs (claudeEnv codexEnv : option string) (home : string) (disk : Disk)
    (tracker : TrackerState) : result (Z * TrackerState) :=
  do (claudeEntries, claudeStates') <-
    ClaudeLogScanner.scan rt claudeEnv home disk (claudeStates tracker);
  let table := fold_left logClaudeEntry claudeEntries (ai_requests tracker) in
  do (codexEntries, codexStates') <-
    CodexLogScanner.scan rt codexEnv home disk (codexStates tracker);
  let table := fold_left logCodexEntry codexEntries table in
  Ok (Z.of_nat (length claudeEntries) + Z.of_nat (length codexEntries),
      mkTracker claudeStates' codexStates' table)%Z.

End ScanLocalLogs.

End AiUsageTracker.

(* ===================================================================== *)
(** ** Scanning a file that grows *)
(* ===================================================================== *)

Module Incremental.

(** A fragment is valid when it is a sequence of whole lines: it is empty
    or it ends with a line feed. *)
Fixpoint endsWithNewline (s : string) : bool :=
match s with
| EmptyString => false
| String a EmptyString => Ascii.eqb a "010"
| String _ s' => endsWithNewline s'
end.

Definition validFragment (f : string) : bool :=
String.eqb f "" || endsWithNewline f.

(** The disk after a file was written. *)
Definition writeFile (disk : Disk) (path : string) (f : FileData) : Disk :=
mkDisk (dirExists disk) (jsonlFilesUnder disk) (<[path := f]> (fileAt disk)).

(** The files a scan pass visits, in order. *)
Definition discovered (disk : Disk) (roots : list string) : list string :=
flat_map (jsonlFilesUnder disk) (List.filter (dirExists disk) roots).

(** The entries returned by the second of two scan passes of one scanner,
    the first on [disk1] and the second on [disk2]. *)
Definition scanTwice {S E : Type} (scan : Disk -> S -> result (list E * S)) (fresh : S)
  (disk1 disk2 : Disk) : result (list E) :=
do (_, cache) <- scan disk1 fresh;
do (entries, _) <- scan disk2 cache;
Ok entries.

(** The entries returned by the first scan pass of a new scanner. *)
Definition scanOnce {S E : Type} (scan : Disk -> S -> result (list E * S)) (fresh : S)
  (disk : Disk) : result (list E) :=
do (entries, _) <- scan disk fresh;
Ok entries.

(** Two outcomes agree when both threw, or both returned and the lists
    returned are related. *)
Definition agree {E : Type} (R : list E -> list E -> Prop) (a b : result (list E)) : Prop :=
match a, b with
| Ok l, Ok l' => R l l'
| Throw, Throw => True
| _, _ => False
end.

(** [scanFile] seen from one path: what it returns and what it stores for
    the path, given the file there and the state cached for it.  [None] for
    the state stored means the cache is left as it is. *)
Section FileByFile.
Context {S E : Type}.
Variable step : string -> option FileData -> option S -> result (list E * option S).

Definition remember (st : gmap string S) (path : string) (stored : option S) : gmap string S :=
match stored with
| Some c => <[path := c]> st
| None => st
end.

Definition visit (disk : Disk) (st : gmap string S) (path : string)
  : result (list E * gmap string S) :=
do (e, stored) <- step path (fileAt disk !! path) (st !! path);
Ok (e, remember st path stored).

(** The files of a pass, one after the other. *)
Fixpoint visitAll (disk : Disk) (files : list string) (all : list E) (st : gmap string S)
  : result (list E * gmap string S) :=
match files with
| [] => Ok (all, st)
| path :: rest =>
    do (e, st') <- visit disk st path;
    visitAll disk rest (all ++ e) st'
end.

End FileByFile.

(** How the caches of two runs of [visitAll] stand to each other; [R]
    relates the entries the two runs return. *)
Section Caches.
Context {S E : Type}.
Variable step : string -> option FileData -> option S -> result (list E * option S).
Variable R : list E -> list E -> Prop.

(** What is cached for a path after a step. *)
Definition keep (cached stored : option S) : option S :=
match stored with
| Some c => Some c
| None => cached
end.

(** Both caches answer for the file without parsing, with related entries. *)
Definition settled (q : string) (f : option FileData) (a b : option S) : Prop :=
exists eA eB, step q f a = Ok (eA, None) /\ step q f b = Ok (eB, None) /\ R eA eB.

(** The step from cache [a] and the step from no cache do the same, and
    settle. *)
Definition alike (q : string) (f : option FileData) (a : option S) : Prop :=
match step q f a, step q f None with
| Throw, Throw => True
| Ok (eA, oa), Ok (eB, ob) => R eA eB /\ settled q f (keep a oa) (keep None ob)
| _, _ => False
end.

(** Every cached state was stored by a parse from scratch of the file. *)
Definition coherent (disk : Disk) (st : gmap string S) : Prop :=
forall q c, st !! q = Some c -> exists e, step q (fileAt disk !! q) None = Ok (e, Some c).

(** At each path, run B has cached nothing and run A will do as run B, or
    both have settled. *)
Definition related (disk : Disk) (stA stB : gmap string S) : Prop :=
forall q,
  (stB !! q = None /\ alike q (fileAt disk !! q) (stA !! q))
  \/ settled q (fileAt disk !! q) (stA !! q) (stB !! q).

(** At each path, run A on its disk will not throw any more, or neither
    run has cached anything. *)
Definition in_step (diskA : Disk) (stA stB : gmap string S) : Prop :=
forall q,
  (exists e, step q (fileAt diskA !! q) (stA !! q) = Ok (e, None))
  \/ (stA !! q = None /\ stB !! q = None).

End Caches.

(** The paths a pass has touched after some files. *)
Definition touchedAfter (files : list string) (touched : gset string) : gset string :=
fold_left (fun t path => {[path]} ∪ t) files touched.

(** The step of the message-oriented [scanFile]. *)
Definition claudeStep (rt : Runtime) (path : string) (file : option FileData)
  (cached : option ClaudeLogScanner.FileScanState)
  : result (list ClaudeLogScanner.ClaudeUsageEntry * option ClaudeLogScanner.FileScanState) :=
match file with
| None => Ok ([], None)
| Some f =>
    let size := fileSize f in
    let mtime := mtimeMs f in
    let parseFrom (offset : Z) :=
      if size - offset <=? 0 then Ok [] else ClaudeLogScanner.parseContent rt (readFrom f offset) in
    let rescan :=
      do entries <- parseFrom 0;
      Ok (entries, Some (ClaudeLogScanner.mkState path size mtime size entries)) in
    if size <=? 0 then Ok ([], None)
    else
      match cached with
      | Some c =>
          if (ClaudeLogScanner.lastSize c =? size) && (ClaudeLogScanner.lastMtimeMs c =? mtime)
          then Ok (ClaudeLogScanner.entries c, None)
          else if (ClaudeLogScanner.lastSize c <? size) && (0 <? ClaudeLogScanner.lastOffset c)
                  && (ClaudeLogScanner.lastOffset c <=? size)
          then
            do newEntries <- parseFrom (ClaudeLogScanner.lastOffset c);
            let mergedEntries := ClaudeLogScanner.entries c ++ newEntries in
            Ok (mergedEntries,
                Some (ClaudeLogScanner.mkState path size mtime size mergedEntries))
          else rescan
      | None => rescan
      end
end.

(** The step of the counter-oriented [scanFile]. *)
Definition codexStep (rt : Runtime) (path : string) (file : option FileData)
  (cached : option CodexLogScanner.FileScanState)
  : result (list CodexLogScanner.CodexUsageEntry * option CodexLogScanner.FileScanState) :=
match file with
| None => Ok ([], None)
| Some f =>
    let size := fileSize f in
    let mtime := mtimeMs f in
    let parseFrom (offset : Z) (initialModel : jsval)
                  (initialTotals : option CodexLogScanner.CumulativeTotals) :=
      if size - offset <=? 0
      then Ok (CodexLogScanner.mkResult [] initialModel initialTotals)
      else CodexLogScanner.parseContent rt (readFrom f offset) initialModel initialTotals in
    let rescan :=
      do r <- parseFrom 0 None None;
      Ok (CodexLogScanner.r_entries r,
          Some (CodexLogScanner.mkState path size mtime size
                  (CodexLogScanner.r_lastTotals r) (CodexLogScanner.r_lastModel r)
                  (CodexLogScanner.r_entries r))) in
    if size <=? 0 then Ok ([], None)
    else
      match cached with
      | Some c =>
          if (CodexLogScanner.lastSize c =? size) && (CodexLogScanner.lastMtimeMs c =? mtime)
          then Ok (CodexLogScanner.entries c, None)
          else if (CodexLogScanner.lastSize c <? size) && (0 <? CodexLogScanner.lastOffset c)
                  && (CodexLogScanner.lastOffset c <=? size)
          then
            do r <- parseFrom (CodexLogScanner.lastOffset c)
                     (CodexLogScanner.lastModel c) (CodexLogScanner.lastTotals c);
            let mergedEntries := CodexLogScanner.entries c ++ CodexLogScanner.r_entries r in
            Ok (mergedEntries,
                Some (CodexLogScanner.mkState path size mtime size
                        (CodexLogScanner.r_lastTotals r) (CodexLogScanner.r_lastModel r)
                        mergedEntries))
          else rescan
      | None => rescan
      end
end.

(** The two collections of the message-oriented [parseFile] after some
    lines, started from given ones. *)
Fixpoint collect (rt : Runtime) (lines : list string)
  (entryByKey : list (string * ClaudeLogScanner.ClaudeUsageEntry))
  (keylessEntries : list ClaudeLogScanner.ClaudeUsageEntry)
  : result (list (string * ClaudeLogScanner.ClaudeUsageEntry)
            * list ClaudeLogScanner.ClaudeUsageEntry) :=
match lines with
| [] => Ok (entryByKey, keylessEntries)
| line :: rest =>
    do outcome <- ClaudeLogScanner.parseLine rt line;
    match outcome with
    | ClaudeLogScanner.Skip => collect rt rest entryByKey keylessEntries
    | ClaudeLogScanner.Keyed key entry =>
        collect rt rest (OrderedMap.set key entry entryByKey) keylessEntries
    | ClaudeLogScanner.Keyless entry =>
        collect rt rest entryByKey (keylessEntries ++ [entry])
    end
end.

End Incremental.

(* ===================================================================== *)
(** ** Sample inputs *)
(* ===================================================================== *)

Module Samples.
Import AiUsageTracker.
Local Open Scope float_scope.

(** A request of the kind the tests log. *)
Definition request : AiRequestLog :=
mkLog 1770458400000 AiUsageTracker.anthropic "claude-sonnet-4-5" 1000 500
  (Some 10%Z) None src_api (Some "session-1").

(** The same request again, with other cache counts and session. *)
Definition requestAgain : AiRequestLog :=
mkLog 1770458400000 AiUsageTracker.anthropic "claude-sonnet-4-5-20250929" 1000 500
  (Some 999%Z) (Some 7%Z) src_api (Some "session-2").

(** Rows left by a version of the tracker that had no unique index. *)
Definition legacyRows : list Row :=
[ mkRow 1 1770458400000 AiUsageTracker.anthropic "claude-sonnet-4-5" 1000 500 0 0 0.0105 src_api None;
  mkRow 2 1770458400000 AiUsageTracker.anthropic "claude-sonnet-4-5" 1000 500 0 0 0.0105 src_api None;
  mkRow 3 1770458400000 AiUsageTracker.openai "gpt-5" 10 5 0 0 0.0000625 src_api None ].

End Samples.

(** Log lines built the way the tests of the two scanners build them. *)
Module SampleLines.

Definition cat (parts : list string) : string := NodePath.joinWith "" parts.

Definition newline : string := String "010" "".

(** The text of a file with these lines, each ended by a line feed. *)
Definition fileOf (lines : list string) : string :=
cat (map (fun l => String.append l newline) lines).

(** [makeAssistantLine] of the message-oriented tests. *)
Definition assistantLine (messageId requestId : string)
  (inputTokens outputTokens cacheRead cacheCreation : Z) : string :=
jsonText (cat
  [ "{'type':'assistant','timestamp':'2026-02-07T10:00:00.000Z','requestId':'"; requestId;
    "','message':{'id':'"; messageId;
    "','model':'claude-sonnet-4-5-20250929','usage':{'input_tokens':"; intToString inputTokens;
    ",'output_tokens':"; intToString outputTokens;
    ",'cache_read_input_tokens':"; intToString cacheRead;
    ",'cache_creation_input_tokens':"; intToString cacheCreation; "}}}" ]).

(** [makeTurnContext] of the counter-oriented tests. *)
Definition turnContext (model : string) : string :=
jsonText (cat
  [ "{'type':'turn_context','timestamp':'2026-02-07T10:00:00.000Z','payload':{'model':'";
    model; "'}}" ]).

(** [makeTokenCountEvent] of the counter-oriented tests: cumulative totals. *)
Definition tokenCount (minute : string) (inputTokens cachedInputTokens outputTokens : Z) : string :=
jsonText (cat
  [ "{'type':'event_msg','timestamp':'2026-02-07T10:"; minute;
    ":00.000Z','payload':{'type':'token_count','info':{'total_token_usage':{'input_tokens':";
    intToString inputTokens; ",'cached_input_tokens':"; intToString cachedInputTokens;
    ",'output_tokens':"; intToString outputTokens; "}}}}" ]).


(** The three fields a test reads from a counter-oriented entry. *)
Definition codexCounts (e : CodexLogScanner.CodexUsageEntry) : Z * Z * Z :=
(CodexLogScanner.inputTokens e, CodexLogScanner.cachedInputTokens e,
 CodexLogScanner.outputTokens e).

(** The four token counts of a message-oriented entry. *)
Definition claudeCounts (e : ClaudeLogScanner.ClaudeUsageEntry) : Z * Z * Z * Z :=
(ClaudeLogScanner.inputTokens e, ClaudeLogScanner.outputTokens e,
 ClaudeLogScanner.cacheReadInputTokens e, ClaudeLogScanner.cacheCreationInputTokens e).

(** The entries of a result, or none when the call threw. *)
Definition entriesOf {A B : Type} (f : A -> B) (r : result (list A)) : list B :=
match r with
| Ok l => map f l
| Throw => []
end.

End SampleLines.

(** A home directory with one log file for each scanner. *)
Module SampleDisk.
Import SampleLines.

Definition home : string := "/home/u".

Definition claudeLog : string := "/home/u/.claude/projects/demo/conversation.jsonl".

Definition codexLog : string := "/home/u/.codex/sessions/2026/02/07/session.jsonl".

(** The directories, before anything is written to the two files. *)
Definition disk : Disk :=
mkDisk (fun dir => String.eqb dir "/home/u/.claude/projects"
                   || String.eqb dir "/home/u/.codex/sessions")
       (fun root => if String.eqb root "/home/u/.claude/projects" then [claudeLog]
                    else if String.eqb root "/home/u/.codex/sessions" then [codexLog]
                    else [])
       ∅.

(** Two fragments that carry the same message in two streaming states. *)
Definition streamed1 : string := fileOf [assistantLine "msg_1" "req_1" 100 10 0 0].
Definition streamed2 : string := fileOf [assistantLine "msg_1" "req_1" 100 50 0 0].

(** Two fragments with one message each. *)
Definition turn1 : string := fileOf [assistantLine "msg_001" "req_001" 100 50 0 0].
Definition turn2 : string := fileOf [assistantLine "msg_002" "req_002" 200 100 0 0].

(** Two fragments of a session with cumulative counters. *)
Definition session1 : string := fileOf [turnContext "gpt-5"; tokenCount "01" 100 0 50].
Definition session2 : string := fileOf [tokenCount "02" 300 50 150].

End SampleDisk.

(* ===================================================================== *)
(** ** Scan passes over files that stay, change or go *)
(* ===================================================================== *)

Module ScanPasses.

(** What [statSync] tells [scanFile] about a file. *)
Definition statOf (f : FileData) : Z * Z := (fileSize f, mtimeMs f).

(** Two states of the file system that [scanFile] cannot tell apart by
    [statSync]: the same directories and listings, and at every path a file
    with the same size and the same modification time, or no file. *)
Definition sameStats (disk1 disk2 : Disk) : Prop :=
(forall dir, dirExists disk1 dir = dirExists disk2 dir)
/\ (forall root, jsonlFilesUnder disk1 root = jsonlFilesUnder disk2 root)
/\ (forall path, option_map statOf (fileAt disk1 !! path)
                 = option_map statOf (fileAt disk2 !! path)).

(** A file was rewritten, not extended: it is shorter, or as long as before
    with another modification time. *)
Definition rewritten (before after : FileData) : Prop :=
fileSize after < fileSize before
\/ (fileSize after = fileSize before /\ mtimeMs after <> mtimeMs before).

(** The results of several calls, one after the other: the lists returned
    are concatenated, and the first call that throws ends the sequence. *)
Fixpoint gather {E : Type} (calls : list (result (list E))) : result (list E) :=
match calls with
| [] => Ok []
| call :: rest =>
    do e <- call;
    do es <- gather rest;
    Ok (e ++ es)
end.

(** The step of a scanner on a path, from a cache that holds nothing for
    it: the entries it returns. *)
Definition fromScratch {S E : Type}
  (step : string -> option FileData -> option S -> result (list E * option S))
  (disk : Disk) (q : string) : result (list E) :=
do (e, _) <- step q (fileAt disk !! q) None; Ok e.

(** The sum of one count over some entries. *)
Definition total {E : Type} (count : E -> Z) (entries : list E) : Z :=
fold_right (fun e acc => count e + acc) 0 entries.


(** A message-oriented entry is sound: no count is negative, some count is
    positive, and the day key is the local day of the entry's time stamp. *)
Definition soundEntry (rt : Runtime) (e : ClaudeLogScanner.ClaudeUsageEntry) : Prop :=
0 <= ClaudeLogScanner.inputTokens e
/\ 0 <= ClaudeLogScanner.outputTokens e
/\ 0 <= ClaudeLogScanner.cacheReadInputTokens e
/\ 0 <= ClaudeLogScanner.cacheCreationInputTokens e
/\ 0 < ClaudeLogScanner.inputTokens e + ClaudeLogScanner.outputTokens e
       + ClaudeLogScanner.cacheReadInputTokens e
       + ClaudeLogScanner.cacheCreationInputTokens e
/\ dayKeyFromISO rt (ClaudeLogScanner.timestamp e) = Some (ClaudeLogScanner.dayKey e).


End ScanPasses.

(** Reading a range of a message log the way a person reads it: what each
    line contributes, and which contribution of a key is kept. *)
Module RangeReading.
Import ClaudeLogScanner.

(** The contributions of some lines, in their order: an entry under a
    deduplication key, or an entry without one. *)
Definition contributions (rt : Runtime) (lines : list string)
  : list (option string * ClaudeUsageEntry) :=
flat_map (fun line =>
            match parseLine rt line with
            | Ok (Keyed key entry) => [(Some key, entry)]
            | Ok (Keyless entry) => [(None, entry)]
            | _ => []
            end)
         lines.

Definition keyedOf (cs : list (option string * ClaudeUsageEntry))
  : list (string * ClaudeUsageEntry) :=
flat_map (fun c => match c with (Some key, entry) => [(key, entry)] | _ => [] end) cs.

Definition keylessOf (cs : list (option string * ClaudeUsageEntry)) : list ClaudeUsageEntry :=
flat_map (fun c => match c with (None, entry) => [entry] | _ => [] end) cs.

(** The keys in the order in which they come first. *)
Fixpoint firstKeys (l : list (string * ClaudeUsageEntry)) : list string :=
match l with
| [] => []
| (key, _) :: rest =>
    key :: List.filter (fun k => negb (String.eqb k key)) (firstKeys rest)
end.

(** The entry that comes last under a key. *)
Fixpoint lastFor (key : string) (l : list (string * ClaudeUsageEntry))
  : option ClaudeUsageEntry :=
match l with
| [] => None
| (k, entry) :: rest =>
    match lastFor key rest with
    | Some later => Some later
    | None => if String.eqb k key then Some entry else None
    end
end.

(** For each key, at the place where the key comes first, the entry that
    comes last under it; then the entries without a key. *)
Definition lastWins (cs : list (option string * ClaudeUsageEntry)) : list ClaudeUsageEntry :=
flat_map (fun key => match lastFor key (keyedOf cs) with Some e => [e] | None => [] end)
         (firstKeys (keyedOf cs))
++ keylessOf cs.


End RangeReading.

(* ===================================================================== *)
(** ** findJsonlFiles: the walk through the directories *)
(* ===================================================================== *)

Module DirectoryWalk.

(** An entry of a directory as [readdirSync(dir, { withFileTypes: true })]
    gives it: a regular file, a directory with what [readdirSync] gives
    for it in turn ([None] when it throws), or an entry that is neither
    (a link, a socket). *)
Inductive Dirent : Type :=
| File (name : string)
| Directory (name : string) (entries : option (list Dirent))
| Other (name : string).

(** [s.endsWith(suffix)] *)
Definition endsWith (s suffix : string) : bool := startsWith (rev s) (rev suffix).

(** One turn of the loop of [findJsonlFiles] in the directory [dir]. *)
Fixpoint visitEntry (dir : string) (entry : Dirent) : list string :=
match entry with
| File name =>
    if startsWith name "." then []
    else if endsWith name ".jsonl" then [NodePath.join [dir; name]] else []
| Directory name entries =>
    if startsWith name "." then []
    else
      match entries with
      | Some entries => flat_map (visitEntry (NodePath.join [dir; name])) entries
      | None => []
      end
| Other name => []
end.

(** [findJsonlFiles(dir)], given what [readdirSync] gives for [dir]. *)
Definition findJsonlFiles (dir : string) (entries : option (list Dirent)) : list string :=
match entries with
| Some entries => flat_map (visitEntry dir) entries
| None => []
end.

(** The paths the walk reaches from [dir] through a listing: a file of the
    listing whose name does not begin with a dot and ends with [.jsonl],
    under its name joined to [dir]; and what is reached, from the joined
    path of a directory of the listing whose name does not begin with a
    dot and that could be read, through the listing of that directory. *)
Inductive reached : string -> list Dirent -> string -> Prop :=
| reached_file (dir : string) (listing : list Dirent) (name : string) :
    In (File name) listing ->
    startsWith name "." = false ->
    endsWith name ".jsonl" = true ->
    reached dir listing (NodePath.join [dir; name])
| reached_below (dir : string) (listing : list Dirent) (name : string)
    (below : list Dirent) (path : string) :
    In (Directory name (Some below)) listing ->
    startsWith name "." = false ->
    reached (NodePath.join [dir; name]) below path ->
    reached dir listing path.

(** A name a file system gives to an entry: not empty, and without a
    slash. *)
Definition properName (name : string) : bool :=
negb (String.eqb name "") && negb (includes name "/").

Fixpoint properEntry (entry : Dirent) : bool :=
match entry with
| File name => properName name
| Directory name entries =>
    properName name
    && match entries with
       | Some entries => forallb properEntry entries
       | None => true
       end
| Other name => properName name
end.

Definition properListing (entries : option (list Dirent)) : bool :=
match entries with
| Some entries => forallb properEntry entries
| None => true
end.

End DirectoryWalk.

(* ===================================================================== *)
(** ** index.ts: what the monitor makes of the usage summary *)
(* ===================================================================== *)

Module OpenClawMonitor.
Import AiUsageTracker.

(** The string a provider is in TypeScript. *)
Definition providerName (provider : AiProvider) : string :=
match provider with
| anthropic => "anthropic"
| openai => "openai"
| google => "google"
| deepseek => "deepseek"
| other => "other"
end.

Definition PROVIDER_DISPLAY_NAMES : list (string * string) :=
[ ("anthropic", "Anthropic"); ("openai", "OpenAI"); ("google", "Google");
  ("deepseek", "DeepSeek"); ("meta", "Meta"); ("mistral", "Mistral") ].

Fixpoint ownName (table : list (string * string)) (key : string) : option string :=
match table with
| [] => None
| (k, v) :: rest => if String.eqb k key then Some v else ownName rest key
end.

(** [c.toUpperCase()] for a character of the ASCII range. *)
Definition toUpperCase (c : ascii) : ascii :=
let n := nat_of_ascii c in
if (97 <=? n)%nat && (n <=? 122)%nat then ascii_of_nat (n - 32) else c.

(** [displayProvider], on the names of the providers; none of them is the
    name of an inherited property, and all are ASCII. *)
Definition displayProvider (provider : AiProvider) : string :=
let provider := providerName provider in
match ownName PROVIDER_DISPLAY_NAMES provider with
| Some name => name
| None =>
    match provider with
    | String c rest => String (toUpperCase c) rest
    | EmptyString => EmptyString
    end
end.

(** An element of [aiUsage.providers] in the status message. *)
Record UsageItem : Type := mkItem {
  name : string;
  provider : string;
  requests : Z;
  inputTokens : Z;
  outputTokens : Z;
  estimatedCost : float;
  currency : string;
}.

(** The [providers] of the status message that [tick] builds from the
    summary: one item for each model of each provider. *)
Definition statusProviders (providers : list ProviderSummary) : list UsageItem :=
flat_map
  (fun p =>
     map (fun m =>
            {| name := m_model m;
               provider := displayProvider (s_provider p);
               requests := m_requestCount m;
               inputTokens := m_totalInputTokens m;
               outputTokens := m_totalOutputTokens m;
               estimatedCost := m_totalCost m;
               currency := "USD" |})
         (models p))
  providers.

End OpenClawMonitor.

(** Reading a usage summary against the rows it was made from. *)
Module UsageSummaries.
Import AiUsageTracker OpenClawMonitor.

(** The rows of a provider, in the order of the query. *)
Definition rowsOf (provider : AiProvider) (rows : list GroupRow) : list GroupRow :=
List.filter (fun r => bool_decide (g_provider r = provider)) rows.

(** The sum of a count over some rows. *)
Definition sumOf (count : GroupRow -> Z) (rows : list GroupRow) : Z :=
fold_right (fun r acc => count r + acc) 0 rows.

(** The costs of some rows added in their order, from zero, as [+=]
    adds them. *)
Definition costOf (rows : list GroupRow) : float :=
fold_left (fun acc r => PrimFloat.add acc (total_cost r)) rows 0%float.

(** A provider summary says what its provider's rows say. *)
Definition summarizes (rows : list GroupRow) (p : ProviderSummary) : Prop :=
let mine := rowsOf (s_provider p) rows in
mine <> []
/\ models p = map modelSummaryOf mine
/\ s_requestCount p = sumOf request_count mine
/\ s_totalInputTokens p = sumOf total_input_tokens mine
/\ s_totalOutputTokens p = sumOf total_output_tokens mine
/\ s_totalCacheReadInputTokens p = Some (sumOf total_cache_read mine)
/\ s_totalCacheCreationInputTokens p = Some (sumOf total_cache_creation mine)
/\ s_totalCost p = costOf mine.

(** The item of the status message for a row of the query. *)
Definition itemOf (row : GroupRow) : UsageItem :=
{| name := g_model row;
   provider := displayProvider (g_provider row);
   requests := request_count row;
   inputTokens := total_input_tokens row;
   outputTokens := total_output_tokens row;
   estimatedCost := total_cost row;
   currency := "USD" |}.

(** The rows of each provider come together, as [ORDER BY provider] makes
    them: a row is followed by a row of its provider, or its provider does
    not come again. *)
Fixpoint grouped (rows : list GroupRow) : bool :=
match rows with
| [] => true
| r :: rest =>
    match rest with
    | [] => true
    | r' :: _ =>
        (bool_decide (g_provider r' = g_provider r)
         || negb (existsb (fun x => bool_decide (g_provider x = g_provider r)) rest))
        && grouped rest
    end
end.

End UsageSummaries.

(* ===================================================================== *)
(** ** More sample inputs: files, directories, rows *)
(* ===================================================================== *)

(** A model of [new Date(v).getTime()] for time stamps of the form
    [YYYY-MM-DDThh:mm:ss.mmmZ]: the days since 1970-01-01 of the
    proleptic Gregorian calendar, and the time of the day. *)
Definition utcTime (v : json) : option Z :=
match utcDate v, v with
| Some (year, month, day), JStr s =>
    let hh := slice s 11 13 in
    let mm := slice s 14 16 in
    let ss := slice s 17 19 in
    let ms := slice s 20 23 in
    if (24 <=? len s) && allDigits hh && allDigits mm && allDigits ss && allDigits ms
       && String.eqb (slice s 23 24) "Z"
    then
      let m := month + 1 in
      let y := if m <=? 2 then year - 1 else year in
      let era := y / 400 in
      let yoe := y - era * 400 in
      let doy := (153 * (if 2 <? m then m - 3 else m + 9) + 2) / 5 + day - 1 in
      let doe := yoe * 365 + yoe / 4 - yoe / 100 + doy in
      let days := era * 146097 + doe - 719468 in
      Some (days * 86400000 + digitsValue hh 0 * 3600000 + digitsValue mm 0 * 60000
            + digitsValue ss 0 * 1000 + digitsValue ms 0)
    else None
| _, _ => None
end.

(** The runtime of the tracker in the concrete examples: a JSON number is
    read as the quotient of its numerator and denominator, which is the
    nearest binary64 number when both are below [2^53]. *)
Definition referenceTrackerRuntime : AiUsageTracker.TrackerRuntime :=
{| AiUsageTracker.Date_getTime := utcTime;
   AiUsageTracker.Number_ofJson :=
     fun q => PrimFloat.div (JsNumber.ofZ (Qnum q)) (JsNumber.ofZ (Z.pos (Qden q))) |}.

Module MoreSamples.
Import SampleLines SampleDisk Incremental AiUsageTracker DirectoryWalk.
Local Open Scope float_scope.

(** What a call returned, or a default when it threw. *)
Definition returned {A : Type} (r : result A) (default : A) : A :=
match r with
| Ok a => a
| Throw => default
end.

(** Two versions of a message log with the same number of bytes and the
    same modification time. *)
Definition claudeBefore : Disk := writeFile disk claudeLog (mkFile turn1 1000).

Definition claudeAfter : Disk :=
writeFile disk claudeLog
  (mkFile (fileOf [assistantLine "msg_009" "req_009" 900 90 0 0]) 1000).


Definition codexAfter : Disk :=
writeFile disk codexLog
  (mkFile (fileOf [turnContext "gpt-4"; tokenCount "01" 900 0 90]) 1000).

(** A message log of two turns, and the log cut down to its second turn. *)
Definition twoTurns : FileData := mkFile (String.append turn1 turn2) 1000.
Definition secondTurn : FileData := mkFile turn2 2000.

(** A session log of two counter lines, and the log cut down to the
    second. *)
Definition twoCounts : FileData := mkFile (String.append session1 session2) 1000.
Definition secondCount : FileData := mkFile session2 2000.



(** A home directory with one log for each scanner, and the same with
    other bytes of the same length in both logs. *)
Definition bothLogs : Disk :=
writeFile claudeBefore codexLog (mkFile session1 1000).

Definition bothLogsAfter : Disk :=
writeFile claudeAfter codexLog
  (mkFile (fileOf [turnContext "gpt-4"; tokenCount "01" 900 0 90]) 1000).

(** A tracker that has scanned nothing and stored nothing. *)
Definition newTracker : TrackerState := mkTracker ∅ ∅ [].

(** A request for a model that has no price. *)
Definition unpriced : AiRequestLog :=
mkLog 1770458400000 other "my-own-model" 1000 500 None None src_api None.

(** A row of [claude-opus-4-6] stored at the price of an earlier version
    of the table, before and after [initDb]. *)
Definition overpriced : Row :=
mkRow 7 1770458400000 anthropic "claude-opus-4-6" 1000000 0 0 0 15 src_claude_code None.

Definition repriced : Row :=
mkRow 7 1770458400000 anthropic "claude-opus-4-6" 1000000 0 0 0 9 src_claude_code None.

(** A row of forty days ago, and the request it was stored for. *)
Definition oldRow : Row :=
mkRow 1 1767002400000 anthropic "claude-sonnet-4-5" 1000 500 0 0 0.0105 src_api None.

Definition oldRequest : AiRequestLog :=
mkLog 1767002400000 anthropic "claude-sonnet-4-5" 1000 500 None None src_api None.

(** The rows of a query, ordered by provider. *)
Definition groupRows : list GroupRow :=
[ mkGroup anthropic "claude-sonnet-4-5" 3 3000 1500 10 0 0.5;
  mkGroup anthropic "claude-opus-4-6" 1 1000 500 0 0 0.25;
  mkGroup openai "gpt-5" 2 200 100 0 0 0.125 ].

(** A directory of logs with a hidden file, a hidden directory, a file of
    another kind and a link. *)
Definition logsDirectory : option (list Dirent) :=
Some [ File "a.jsonl"; File ".hidden.jsonl";
       Directory "proj" (Some [File "b.jsonl"; File "notes.txt"]);
       Directory ".git" (Some [File "c.jsonl"]);
       Directory "locked" None;
       Other "link.jsonl" ].

End MoreSamples.

(* ===================================================================== *)
(** * Properties *)
(* ===================================================================== *)

(** ** The model normalizer *)

Example normalizeCodex_samples :
  map normalizeCodexModel ["openai/gpt-5"; "gpt-5-codex"; "gpt-5.2-codex"; " gpt-4o "; "gpt-4-codex"]
  = ["gpt-5"; "gpt-5"; "gpt-5.2"; "gpt-4o"; "gpt-4-codex"].
Proof. vm_compute. reflexivity. Qed.

Example normalizeClaude_samples :
  map normalizeClaudeModel
    ["anthropic.claude-sonnet-4-5"; "us.anthropic.claude-sonnet-4-5-20250929-v1:0";
     "claude-opus-4-5@20251101"; "claude-sonnet-4-5-v1:0"; "claude-3-opus-20240229";
     "claude-sonnet-4-20250514"]
  = ["claude-sonnet-4-5"; "claude-sonnet-4-5";
     "claude-opus-4-5"; "claude-sonnet-4-5"; "claude-3-opus-20240229";
     "claude-sonnet-4-20250514"].
Proof. vm_compute. reflexivity. Qed.

Example intToString_samples :
  map intToString [0; 7; 10; 2026; -45; 1000000] = ["0"; "7"; "10"; "2026"; "-45"; "1000000"].
Proof. vm_compute. reflexivity. Qed.

Example parseIntOrZero_samples :
  map parseIntOrZero ["12"; " 42abc"; "-7"; "abc"; ""; "+"; "3.9"] = [12; 42; -7; 0; 0; 0; 3].
Proof. vm_compute. reflexivity. Qed.

Example join_samples :
  map NodePath.join [["/a"; "projects"]; ["/a/"; "projects"]; ["a/../b"; "sessions"];
                     ["/home/u"; ".config"; "claude"; "projects"]; [""; "x"]; ["/a,/b"; "sessions"]]
  = ["/a/projects"; "/a/projects"; "b/sessions"; "/home/u/.config/claude/projects"; "x";
     "/a,/b/sessions"].
Proof. vm_compute. reflexivity. Qed.

Example basename_samples :
  map NodePath.basename ["/a/projects"; "/a/projects/"; "projects"; "/"; ""; "/a/b.txt"]
  = ["projects"; "projects"; "projects"; ""; ""; "b.txt"].
Proof. vm_compute. reflexivity. Qed.

Example json_parse_sample :
  JsonText.parse (jsonText "{'type':'assistant', 'n': [1, -2.5, 1e2], 'm': {'id': null, 'ok': true}}")
  = Some (JObj [("type", JStr "assistant");
                ("n", JArr [JNum 1; JNum (Qmake (-5) 2); JNum 100]);
                ("m", JObj [("id", JNull); ("ok", JBool true)])]).
Proof. vm_compute. reflexivity. Qed.

Example json_parse_rejects :
  map JsonText.parse ["{not valid json}"; ""; "[1,]"; "01"; jsonText "{'a':1} x"]
  = [None; None; None; None; None].
Proof. vm_compute. reflexivity. Qed.

Section NormalizerIdempotence.

Lemma known_codex_base (base : string) :
  base ∈ KNOWN_CODEX_BASES -> In base ["gpt-5"; "gpt-5.1"; "gpt-5.2"].
Proof.
  unfold KNOWN_CODEX_BASES. rewrite !elem_of_union, !elem_of_singleton.
  cbn [In]. intros H.
  repeat match goal with Hor : _ \/ _ |- _ => destruct Hor end; subst; tauto.
Qed.

Lemma known_claude_base (base : string) :
  base ∈ KNOWN_CLAUDE_BASES ->
  In base ["claude-haiku-4-5"; "claude-opus-4-5"; "claude-sonnet-4-5";
           "claude-opus-4-20250514"; "claude-opus-4-1"; "claude-sonnet-4-20250514";
           "claude-opus-4-6"].
Proof.
  unfold KNOWN_CLAUDE_BASES. rewrite !elem_of_union, !elem_of_singleton.
  cbn [In]. intros H.
  repeat match goal with Hor : _ \/ _ |- _ => destruct Hor end; subst; tauto.
Qed.

(** The allow-listed step at the end of each normalizer returns its
    argument or an allow-listed base. *)
Lemma stripCodexSuffix_cases (t : string) :
  stripCodexSuffix t = t \/ stripCodexSuffix t ∈ KNOWN_CODEX_BASES.
Proof.
  unfold stripCodexSuffix, knownOr.
  destruct (negb (indexOf t "-codex" =? -1)); [| now left].
  case_bool_decide; [now right | now left].
Qed.

Lemma stripDateSuffix_cases (t : string) :
  stripDateSuffix t = t \/ stripDateSuffix t ∈ KNOWN_CLAUDE_BASES.
Proof.
  unfold stripDateSuffix, knownOr.
  destruct (matchDateSuffix t); [| now left].
  case_bool_decide; [now right | now left].
Qed.

(** So it settles in one application: it leaves every allow-listed base
    alone. *)
Lemma stripCodexSuffix_stable (t : string) :
  stripCodexSuffix (stripCodexSuffix t) = stripCodexSuffix t.
Proof.
  destruct (stripCodexSuffix_cases t) as [H | H].
  - rewrite H. exact H.
  - apply known_codex_base in H. revert H.
    generalize (stripCodexSuffix t). intros b Hb. cbn [In] in Hb.
    repeat (destruct Hb as [<- | Hb]; [vm_compute; reflexivity |]).
    contradiction.
Qed.

Lemma stripDateSuffix_stable (t : string) :
  stripDateSuffix (stripDateSuffix t) = stripDateSuffix t.
Proof.
  destruct (stripDateSuffix_cases t) as [H | H].
  - rewrite H. exact H.
  - apply known_claude_base in H. revert H.
    generalize (stripDateSuffix t). intros b Hb. cbn [In] in Hb.
    repeat (destruct Hb as [<- | Hb]; [vm_compute; reflexivity |]).
    contradiction.
Qed.

Lemma codexDecorations_clean (y : string) :
  trim y = y -> startsWith y "openai/" = false -> codexDecorations y = y.
Proof.
  intros Ht Hp. unfold codexDecorations, stripPrefix. rewrite Ht, Hp. reflexivity.
Qed.

Lemma claudeDecorations_clean (y : string) :
  trim y = y -> startsWith y "anthropic." = false -> stripVertexPrefix y = y ->
  matchVersionSuffix y = None -> includes y "@" = false ->
  claudeDecorations y = y.
Proof.
  intros Ht Hp Hv Hm Ha. unfold claudeDecorations, stripPrefix.
  rewrite Ht, Hp, Hv. unfold stripVersionSuffix. rewrite Hm.
  unfold replaceAt. rewrite Ha. reflexivity.
Qed.

End NormalizerIdempotence.

(** C9, as stated, fails: a name with a stacked vendor prefix, a second
    version tag or a second [@] loses one more decoration at the second
    application. *)
Lemma normalize_not_idempotent :
  normalizeCodexModel (normalizeCodexModel "openai/openai/gpt-5")
    <> normalizeCodexModel "openai/openai/gpt-5"
  /\ normalizeClaudeModel (normalizeClaudeModel "claude-sonnet-4-5-v1:0-v1:0")
    <> normalizeClaudeModel "claude-sonnet-4-5-v1:0-v1:0".
Proof. split; vm_compute; discriminate. Qed.

(** C9, amended: each normalizer is idempotent at every input whose
    normalized name carries no further decoration of the kinds removed
    before the allow-listed step: no surrounding white space and no vendor
    prefix, and for the Claude normalizer no dotted prefix before a
    [claude-] tail, no [-vN:M] version tag and no [@]. *)
Theorem normalize_idempotent_on_clean_results (x y : string) :
  let x' := normalizeCodexModel x in
  let y' := normalizeClaudeModel y in
  trim x' = x' -> startsWith x' "openai/" = false ->
  trim y' = y' -> startsWith y' "anthropic." = false -> stripVertexPrefix y' = y' ->
  matchVersionSuffix y' = None -> includes y' "@" = false ->
  normalizeCodexModel x' = x' /\ normalizeClaudeModel y' = y'.
Proof.
  intros x' y' Hx1 Hx2 Hy1 Hy2 Hy3 Hy4 Hy5. split.
  - change (normalizeCodexModel x') with (stripCodexSuffix (codexDecorations x')).
    rewrite codexDecorations_clean by assumption.
    apply stripCodexSuffix_stable.
  - unfold normalizeClaudeModel at 1.
    rewrite claudeDecorations_clean by assumption.
    apply stripDateSuffix_stable.
Qed.

Lemma normalize_idempotent_on_clean_results_witness :
  normalizeCodexModel (normalizeCodexModel " openai/gpt-5.2-codex ")
    = normalizeCodexModel " openai/gpt-5.2-codex "
  /\ normalizeClaudeModel (normalizeClaudeModel "us.anthropic.claude-sonnet-4-5-20250929-v1:0")
    = normalizeClaudeModel "us.anthropic.claude-sonnet-4-5-20250929-v1:0".
Proof.
  apply (normalize_idempotent_on_clean_results
           " openai/gpt-5.2-codex " "us.anthropic.claude-sonnet-4-5-20250929-v1:0");
    vm_compute; reflexivity.
Defined.

(** ** Proof steps shared by the scanner proofs *)

(** One step of a case analysis that follows the control flow of a function:
    the test the result in [H] hangs on is decided, and the branches that
    cannot give the result are closed. *)
Ltac follow_step H :=
  cbv zeta in H;
  lazymatch type of H with
  | bind ?r _ = _ => let E := fresh "E" in destruct r eqn:E; cbn [bind] in H
  | (if ?b then _ else _) = _ => let E := fresh "E" in destruct b eqn:E
  | match ?x with _ => _ end = _ => let E := fresh "E" in destruct x eqn:E
  end;
  try discriminate H.

Ltac follow H := repeat follow_step H.

(** Rewriting with the equations that a case analysis left in the context. *)
Ltac recall :=
  repeat match goal with
         | E : ?x = _ |- context [?x] => rewrite E
         end.

(** ** Pricing *)

Section PricingExamples.
Import AiUsageTracker.
Local Open Scope float_scope.

Example round_samples :
  map JsNumber.round [2.5; -2.5; 0.4; -0.4; 26400000; 3.7; -3.7; 0.5; -0.5]
  = [3; -2; 0; -0; 26400000; 4; -4; 1; -0].
Proof. vm_compute. reflexivity. Qed.

Example calculateCost_samples :
  [ calculateCost "gpt-4o-mini" 1000000 1000000 0 0;
    calculateCost "deepseek-r1" 1000000 1000000 0 0;
    calculateCost "no-such-model" 1000 1000 0 0 ]
  = [0.75; 2.74; 0].
Proof. vm_compute. reflexivity. Qed.
End PricingExamples.

Section TieredPricing.
Import AiUsageTracker.
Local Open Scope float_scope.

(** Two different binary64 numbers are told apart by evaluation. *)
Ltac float_absurd H :=
  apply (f_equal (fun x : float => Prim2SF x)) in H; vm_compute in H; discriminate H.

(** C4: a model priced at 3/15 USD per million tokens, with 6/22.5 above
    200,000 tokens, is charged 5.4 USD for one million input tokens, 21 USD
    for one million output tokens, and [calculateCost] returns 26.4. *)
Theorem tiered_pricing_concrete_case (model : string) (pricing : PricingEntry) (tier : Tier) :
  ownPricing MODEL_PRICING model = Some pricing ->
  p_input pricing = 3 -> p_output pricing = 15 ->
  aboveThreshold pricing = Some tier ->
  thresholdTokens tier = 200000 -> t_input tier = 6 -> t_output tier = 22.5 ->
  inputCost pricing 1000000 = 5.4
  /\ outputCost pricing 1000000 = 21
  /\ calculateCost model 1000000 1000000 0 0 = 26.4.
Proof.
  intros Hown Hin Hout Htier Hthr Htin Htout.
  unfold calculateCost. rewrite Hown.
  unfold MODEL_PRICING in Hown. cbn [ownPricing] in Hown.
  repeat match type of Hown with
         | (if ?b then _ else _) = _ => destruct b
         end;
    try discriminate Hown;
    injection Hown as <-;
    cbn in Hin, Htier;
    try (float_absurd Hin);
    try discriminate Htier;
    injection Htier as <-;
    (split; [| split]); vm_compute; reflexivity.
Qed.

Lemma tiered_pricing_concrete_case_witness :
  inputCost (tiered 3.0 15.0 0.3 3.75 200000 6.0 22.5 0.6 7.5) 1000000 = 5.4
  /\ outputCost (tiered 3.0 15.0 0.3 3.75 200000 6.0 22.5 0.6 7.5) 1000000 = 21
  /\ calculateCost "claude-sonnet-4-5" 1000000 1000000 0 0 = 26.4.
Proof.
  apply (tiered_pricing_concrete_case "claude-sonnet-4-5"
           (tiered 3.0 15.0 0.3 3.75 200000 6.0 22.5 0.6 7.5)
           (mkTier 200000 6.0 22.5 (Some 0.6) (Some 7.5)));
    reflexivity.
Defined.

End TieredPricing.

(** ** The ledger *)

Section Ledger.
Import AiUsageTracker.

Lemma sameKey_true (k : DedupKey) (r : Row) : sameKey k r = true <-> dedupKey r = k.
Proof. unfold sameKey. apply bool_decide_eq_true. Qed.

Lemma existsb_sameKey (k : DedupKey) (table : list Row) :
  existsb (sameKey k) table = true <-> k ∈ map dedupKey table.
Proof.
  rewrite existsb_exists, list_elem_of_In, in_map_iff.
  split; intros [r [H1 H2]]; exists r.
  - apply sameKey_true in H2. auto.
  - split; [assumption |]. now apply sameKey_true.
Qed.

Lemma recordsWithKey_absent (k : DedupKey) (table : list Row) :
  k ∉ map dedupKey table -> recordsWithKey k table = [].
Proof.
  unfold recordsWithKey. induction table as [| r table IH]; cbn; [reflexivity |].
  rewrite not_elem_of_cons. intros [Hne Hnot]. destruct (sameKey k r) eqn:Hk.
  - apply sameKey_true in Hk. congruence.
  - now apply IH.
Qed.

Lemma recordsWithKey_unique (k : DedupKey) (table : list Row) :
  NoDup (map dedupKey table) -> k ∈ map dedupKey table ->
  length (recordsWithKey k table) = 1%nat.
Proof.
  unfold recordsWithKey. induction table as [| r table IH]; cbn.
  - intros _ Hin. now apply elem_of_nil in Hin.
  - rewrite NoDup_cons, elem_of_cons. intros [Hfresh Hnd] Hin.
    destruct (sameKey k r) eqn:Hk; cbn.
    + apply sameKey_true in Hk. subst k.
      fold (recordsWithKey (dedupKey r) table).
      rewrite recordsWithKey_absent by assumption. reflexivity.
    + destruct Hin as [Heq | Hin]; [| now apply IH].
      assert (sameKey k r = true) by now apply sameKey_true.
      congruence.
Qed.

(** The unique index holds after each insert. *)
Lemma insertOrIgnore_unique (table : list Row) (r : Row) :
  NoDup (map dedupKey table) -> NoDup (map dedupKey (insertOrIgnore table r)).
Proof.
  intros Hnd. unfold insertOrIgnore.
  destruct (PrimFloat.is_nan (estimated_cost r)); [assumption |].
  destruct (existsb (sameKey (dedupKey r)) table) eqn:Hex; [assumption |].
  rewrite map_app. cbn. apply NoDup_app. repeat split.
  - assumption.
  - intros k Hk Hk'. apply list_elem_of_singleton in Hk'. subst k.
    apply existsb_sameKey in Hk. congruence.
  - apply NoDup_singleton.
Qed.

Lemma insertOrIgnore_present (table : list Row) (r : Row) :
  dedupKey r ∈ map dedupKey table -> insertOrIgnore table r = table.
Proof.
  intros Hin. unfold insertOrIgnore.
  destruct (PrimFloat.is_nan (estimated_cost r)); [reflexivity |].
  apply existsb_sameKey in Hin. rewrite Hin. reflexivity.
Qed.

(** What one call does to the table: nothing, or one row more, with the
    key of the entry, when the cost is a number and the key is new. *)
Lemma logRequest_cases (table : list Row) (entry : AiRequestLog) (cost : option float) :
  (logRequest table entry cost = table
   /\ (PrimFloat.is_nan (estimatedCostOf entry cost) = true
       \/ entryKey entry ∈ map dedupKey table))
  \/ (exists r, logRequest table entry cost = table ++ [r]
                /\ dedupKey r = entryKey entry
                /\ PrimFloat.is_nan (estimatedCostOf entry cost) = false
                /\ entryKey entry ∉ map dedupKey table).
Proof.
  unfold logRequest, insertOrIgnore. cbn [estimated_cost].
  destruct (PrimFloat.is_nan _) eqn:Hnan; [left; auto |].
  match goal with |- context [existsb ?f table] => destruct (existsb f table) eqn:Hex end.
  - left. split; [reflexivity |]. right. now apply existsb_sameKey in Hex.
  - right. eexists. split; [reflexivity |]. split; [reflexivity |].
    split; [reflexivity |].
    intros Hin. apply existsb_sameKey in Hin. unfold entryKey in Hin.
    unfold dedupKey in Hex at 1. cbn in Hex. rewrite Hin in Hex. discriminate Hex.
Qed.

Lemma logRequest_unique (table : list Row) (entry : AiRequestLog) (cost : option float) :
  NoDup (map dedupKey table) -> NoDup (map dedupKey (logRequest table entry cost)).
Proof. intros Hnd. unfold logRequest. now apply insertOrIgnore_unique. Qed.

Lemma logAll_unique (calls : list (AiRequestLog * option float)) (table : list Row) :
  NoDup (map dedupKey table) -> NoDup (map dedupKey (logAll table calls)).
Proof.
  revert table. induction calls as [| [entry cost] calls IH]; intros table Hnd; cbn.
  - assumption.
  - apply IH. now apply logRequest_unique.
Qed.

(** The sweep run before the index is created leaves one row per key. *)
Lemma migrateDeduplicateRows_unique (table : list Row) :
  NoDup (map id table) -> NoDup (map dedupKey (migrateDeduplicateRows table)).
Proof.
  unfold migrateDeduplicateRows.
  set (least := fun r => forallb _ table).
  assert (Hleast : forall r r', least r = true -> In r' table ->
                                dedupKey r' = dedupKey r -> (id r <= id r')%Z).
  { intros r r' Hr Hin Hk. unfold least in Hr. rewrite forallb_forall in Hr.
    specialize (Hr r' Hin). apply orb_true_iff in Hr as [Hr | Hr].
    - apply negb_true_iff in Hr. unfold sameKey in Hr.
      rewrite bool_decide_eq_false in Hr. congruence.
    - now apply Z.leb_le. }
  clearbody least.
  assert (Hgen : forall rows, incl rows table -> NoDup (map id rows) ->
                              NoDup (map dedupKey (List.filter least rows))).
  { induction rows as [| a rows IH]; intros Hincl Hnd; cbn; [apply NoDup_nil_2 |].
    apply NoDup_cons in Hnd as [Hfresh Hnd].
    assert (Hrest : incl rows table) by (intros x Hx; apply Hincl; now right).
    destruct (least a) eqn:Ha; [| now apply IH].
    cbn. apply NoDup_cons. split; [| now apply IH].
    rewrite list_elem_of_In, in_map_iff. intros [r [Hk Hr]].
    apply filter_In in Hr as [Hr Hlr].
    assert (id a = id r).
    { apply Z.le_antisymm.
      - apply Hleast; auto.
      - apply Hleast; auto. apply Hincl. now left. }
    apply Hfresh. apply list_elem_of_In, in_map_iff. exists r. auto. }
  intros Hnd. apply Hgen; [apply incl_refl | assumption].
Qed.

Lemma migrateRecalculateOpus46Costs_keys (table : list Row) :
  map dedupKey (migrateRecalculateOpus46Costs table) = map dedupKey table.
Proof.
  unfold migrateRecalculateOpus46Costs. rewrite map_map. apply map_ext.
  intros r. destruct (String.eqb (c_model r) "claude-opus-4-6"); reflexivity.
Qed.

Lemma initDb_unique (table : list Row) :
  NoDup (map id table) -> NoDup (map dedupKey (initDb table)).
Proof.
  intros Hnd. unfold initDb. rewrite migrateRecalculateOpus46Costs_keys.
  now apply migrateDeduplicateRows_unique.
Qed.

End Ledger.

Section LedgerClaims.
Import AiUsageTracker.
Local Open Scope float_scope.

Lemma logRequest_present (table : list Row) (entry : AiRequestLog) (cost : option float) :
  entryKey entry ∈ map dedupKey table -> logRequest table entry cost = table.
Proof. intros Hin. unfold logRequest. now apply insertOrIgnore_present. Qed.

Example initDb_sample :
  map id (initDb Samples.legacyRows) = [1; 3]%Z.
Proof. vm_compute. reflexivity. Qed.

(** A model name that is a property of [Object.prototype] has no price but
    is not a miss either: its cost is [NaN], and the row is not stored. *)
Example inherited_key_is_not_stored :
  calculateCost "constructor" 1000 500 0 0 = nan
  /\ logRequest [] (mkLog 1 other "constructor" 1000 500 None None src_api None) None = [].
Proof. vm_compute. split; reflexivity. Qed.

(** C5 fails on the code for a request whose model has no price and a
    name that every object inherits: [calculateCost] gives [NaN] where
    its documentation promises 0 for an unknown model, the row breaks
    [NOT NULL], [OR IGNORE] skips it without an error, and after two
    identical inserts no record is stored, where C5 says exactly one. *)
Theorem unknown_model_is_not_stored :
  let entry := mkLog 1770458400000 other "constructor" 1000 500 None None src_api None in
  ownPricing MODEL_PRICING "constructor" = None
  /\ PrimFloat.is_nan (estimatedCostOf entry None) = true
  /\ logRequest [] entry None = []
  /\ length (recordsWithKey (entryKey entry)
               (logRequest (logRequest [] entry None) entry None)) = 0%nat.
Proof. vm_compute. repeat split; reflexivity. Qed.

(** X24: whatever rows the file held and whatever was logged since it was
    opened, the table has at most one record per key
    (timestamp, provider, model, source, inputTokens, outputTokens); logging
    a request whose key is stored changes nothing; and logging the same
    request twice, with a cost that is a number, leaves exactly one record
    with its key. *)
Theorem ledger_one_record_per_key
    (legacy : list Row) (calls : list (AiRequestLog * option float))
    (entry : AiRequestLog) (cost cost' : option float) :
  NoDup (map id legacy) ->
  PrimFloat.is_nan (estimatedCostOf entry cost) = false ->
  let table := logAll (initDb legacy) calls in
  NoDup (map dedupKey table)
  /\ (entryKey entry ∈ map dedupKey table -> logRequest table entry cost' = table)
  /\ length (recordsWithKey (entryKey entry)
               (logRequest (logRequest table entry cost) entry cost')) = 1%nat.
Proof.
  intros Hids Hnum table.
  assert (Hnd : NoDup (map dedupKey table))
    by (apply logAll_unique, initDb_unique, Hids).
  split; [assumption |]. split; [apply logRequest_present |].
  destruct (logRequest_cases table entry cost) as [[Heq [Hnan | Hin]] | [r [Heq [Hk [_ Hnew]]]]].
  - congruence.
  - rewrite Heq, logRequest_present by assumption.
    now apply recordsWithKey_unique.
  - assert (Hin : entryKey entry ∈ map dedupKey (logRequest table entry cost)).
    { rewrite Heq, map_app, elem_of_app. right. cbn. rewrite Hk. apply list_elem_of_singleton.
      reflexivity. }
    rewrite logRequest_present by assumption.
    apply recordsWithKey_unique; [| assumption].
    now apply logRequest_unique.
Qed.

Lemma ledger_one_record_per_key_witness :
  let table := logAll (initDb Samples.legacyRows) [(Samples.requestAgain, Some 0.5)] in
  NoDup (map dedupKey table)
  /\ (entryKey MoreSamples.oldRequest ∈ map dedupKey table ->
      logRequest table MoreSamples.oldRequest (Some 2.5) = table)
  /\ length (recordsWithKey (entryKey MoreSamples.oldRequest)
               (logRequest (logRequest table MoreSamples.oldRequest None)
                  MoreSamples.oldRequest (Some 2.5)))
     = 1%nat.
Proof.
  apply (ledger_one_record_per_key Samples.legacyRows [(Samples.requestAgain, Some 0.5)]
           MoreSamples.oldRequest None (Some 2.5)).
  - cbn. repeat (apply NoDup_cons; split; [rewrite ?elem_of_cons, elem_of_nil; lia |]).
    apply NoDup_nil_2.
  - vm_compute. reflexivity.
Defined.

(** In the table of the lemma above the key of the request is new: the
    first of the two calls stores the record, the second changes
    nothing. *)
Example fresh_key_is_stored_once :
  let table := logAll (initDb Samples.legacyRows) [(Samples.requestAgain, Some 0.5)] in
  recordsWithKey (entryKey MoreSamples.oldRequest) table = []
  /\ length (logRequest table MoreSamples.oldRequest None) = S (length table)
  /\ logRequest (logRequest table MoreSamples.oldRequest None) MoreSamples.oldRequest (Some 2.5)
     = logRequest table MoreSamples.oldRequest None.
Proof. vm_compute. repeat split; reflexivity. Qed.

(** C10: when the key of the entry, with its model normalized, is the key
    of a stored record, [logRequest] leaves the table as it is: the stored
    record keeps its cache counts, session and cost, whatever the call
    carried. *)
Theorem logRequest_duplicate_changes_nothing
    (table : list Row) (stored : Row) (entry : AiRequestLog) (cost : option float) :
  In stored table ->
  dedupKey stored = entryKey entry ->
  logRequest table entry cost = table /\ In stored (logRequest table entry cost).
Proof.
  intros Hin Hkey.
  assert (Heq : logRequest table entry cost = table).
  { apply logRequest_present. rewrite <- Hkey.
    apply list_elem_of_In, in_map, Hin. }
  rewrite Heq. auto.
Qed.

Lemma logRequest_duplicate_changes_nothing_witness :
  let table := logRequest [] Samples.request None in
  let stored := mkRow 1 1770458400000 anthropic "claude-sonnet-4-5" 1000 500
                  10 0 0.010503 src_api (Some "session-1") in
  table = [stored]
  /\ logRequest table Samples.requestAgain (Some 9.9) = table
  /\ In stored (logRequest table Samples.requestAgain (Some 9.9)).
Proof.
  cbv zeta. split; [vm_compute; reflexivity |].
  apply (logRequest_duplicate_changes_nothing
           (logRequest [] Samples.request None)
           (mkRow 1 1770458400000 anthropic "claude-sonnet-4-5" 1000 500
              10 0 0.010503 src_api (Some "session-1"))
           Samples.requestAgain (Some 9.9)).
  - vm_compute. left. reflexivity.
  - vm_compute. reflexivity.
Defined.

End LedgerClaims.

(** ** The message-oriented scanner *)

Section ClaudeLines.
Import ClaudeLogScanner MessageLine.
Variable rt : Runtime.


End ClaudeLines.

Section ClaudeDedup.
Import ClaudeLogScanner MessageLine SampleLines.

(** C2 on the three streaming lines of the deduplication test: one entry is
    returned, and it carries the output count of the last line, 100, where
    the test and C2 expect that of the first line, 10. *)
Theorem dedup_keeps_last_occurrence :
  entriesOf claudeCounts
    (parseContent referenceRuntime
       (fileOf [ assistantLine "msg_stream_1" "req_stream_1" 100 10 0 0;
                 assistantLine "msg_stream_1" "req_stream_1" 100 50 0 0;
                 assistantLine "msg_stream_1" "req_stream_1" 100 100 0 0 ]))
  = [ (100, 100, 0, 0) ].
Proof. vm_compute. reflexivity. Qed.

End ClaudeDedup.

(** ** The counter-oriented scanner *)

Section CodexLines.
Import CodexLogScanner CounterLine ScanPasses.
Variable rt : Runtime.













End CodexLines.

Section CodexClaims.
Import CodexLogScanner CounterLine SampleLines.

Example codex_cumulative_stream :
  parseContent referenceRuntime
    (fileOf [ turnContext "gpt-5"; tokenCount "01" 100 0 50; tokenCount "02" 300 50 150;
              tokenCount "03" 500 100 250 ]) None None
  = Ok (mkResult
          [ mkEntry "2026-02-07" "gpt-5" 100 0 50 (JStr "2026-02-07T10:01:00.000Z");
            mkEntry "2026-02-07" "gpt-5" 200 50 100 (JStr "2026-02-07T10:02:00.000Z");
            mkEntry "2026-02-07" "gpt-5" 200 50 100 (JStr "2026-02-07T10:03:00.000Z") ]
          (Some (JStr "gpt-5")) (Some (mkTotals 500 100 250))).
Proof. vm_compute. reflexivity. Qed.







(** The model named by the last context line is the one an event gets:
    of two context lines the second wins. *)
Example context_model_sample :
  lastContextModel referenceRuntime
    [turnContext "gpt-4o"; turnContext "openai/gpt-5.1-codex"] None
  = Some (JStr "openai/gpt-5.1-codex")
  /\ entriesOf model
       (do r <- parseContent referenceRuntime
                  (fileOf [ turnContext "gpt-4o"; turnContext "openai/gpt-5.1-codex";
                            tokenCount "01" 100 0 50 ]) None None;
        Ok (r_entries r))
     = [ "gpt-5.1" ].
Proof. vm_compute. split; reflexivity. Qed.

End CodexClaims.

(** ** Cache counts against input counts, in both scanners *)

Section CacheClamp.
Import SampleLines.




End CacheClamp.

(** ** Root directories *)

Section Roots.
Import OverrideRoots.

Example getProjectRoots_samples :
  [ ClaudeLogScanner.getProjectRoots (Some "/tmp/t") "/home/u";
    ClaudeLogScanner.getProjectRoots (Some " /a/projects , /b ,, ") "/home/u";
    ClaudeLogScanner.getProjectRoots None "/home/u";
    ClaudeLogScanner.getProjectRoots (Some "  ") "/home/u" ]
  = [ ["/tmp/t/projects"];
      ["/a/projects"; "/b/projects"];
      ["/home/u/.config/claude/projects"; "/home/u/.claude/projects"];
      ["/home/u/.config/claude/projects"; "/home/u/.claude/projects"] ].
Proof. vm_compute. reflexivity. Qed.

Lemma flat_map_roots (parts : list string) :
  flat_map
    (fun part =>
       let trimmed := trim part in
       if String.eqb trimmed "" then []
       else if String.eqb (NodePath.basename trimmed) "projects" then [trimmed]
       else [NodePath.join [trimmed; "projects"]])
    parts
  = map (rootFor "projects") (List.filter NodePath.nonEmpty (map trim parts)).
Proof.
  cbv zeta.
  induction parts as [| part parts IH]; cbn [flat_map map List.filter]; [reflexivity |].
  rewrite IH.
  replace (NodePath.nonEmpty (trim part)) with (negb (String.eqb (trim part) ""))
    by reflexivity.
  destruct (String.eqb (trim part) ""); cbn [negb map app]; [reflexivity |].
  change (rootFor "projects" (trim part))
    with (if String.eqb (NodePath.basename (trim part)) "projects" then trim part
          else NodePath.join [trim part; "projects"]).
  destruct (String.eqb (NodePath.basename (trim part)) "projects"); reflexivity.
Qed.

(** C8, as stated, fails for the counter-oriented scanner: [CODEX_HOME] is
    one directory, never split on commas, and [sessions] is appended even to
    a path that ends with it. *)
Lemma codex_home_is_not_a_list :
  CodexLogScanner.getSessionRoots (Some "/a,/b") "/home/u" (fun _ => false)
    = ["/a,/b/sessions"]
  /\ asListed "sessions" "/a,/b" = ["/a/sessions"; "/b/sessions"]
  /\ CodexLogScanner.getSessionRoots (Some "/x/sessions") "/home/u" (fun _ => false)
    = ["/x/sessions/sessions"]
  /\ asListed "sessions" "/x/sessions" = ["/x/sessions"].
Proof. vm_compute. repeat split; reflexivity. Qed.

(** C8, amended: a non-blank [CLAUDE_CONFIG_DIR] is split on commas; each
    entry, trimmed and not empty, is a root as it is when its last segment
    is [projects], and with [projects] appended otherwise.  A non-blank
    [CODEX_HOME], trimmed, is a single directory: the roots are its
    [sessions] subdirectory and, when it exists, its [archived_sessions]
    subdirectory. *)
Theorem environment_override_roots :
  (forall (envVal home : string),
      trim envVal <> "" ->
      ClaudeLogScanner.getProjectRoots (Some envVal) home = asListedTrimmed "projects" envVal)
  /\ (forall (envVal home : string) (existsSync : string -> bool),
         trim envVal <> "" ->
         CodexLogScanner.getSessionRoots (Some envVal) home existsSync
         = NodePath.join [trim envVal; "sessions"]
           :: (if existsSync (NodePath.join [trim envVal; "archived_sessions"])
               then [NodePath.join [trim envVal; "archived_sessions"]] else [])).
Proof.
  split.
  - intros envVal home Hset.
    unfold ClaudeLogScanner.getProjectRoots, asListedTrimmed. cbn [option_map].
    destruct (trim envVal) as [| a s] eqn:Ht; [congruence |].
    apply flat_map_roots.
  - intros envVal home existsSync Hset.
    unfold CodexLogScanner.getSessionRoots. cbn [option_map].
    destruct (trim envVal) as [| a s] eqn:Ht; [congruence |].
    destruct (existsSync _); reflexivity.
Qed.

Lemma environment_override_roots_witness :
  ClaudeLogScanner.getProjectRoots (Some " /a/projects , /b ,, ") "/home/u"
    = asListedTrimmed "projects" " /a/projects , /b ,, "
  /\ CodexLogScanner.getSessionRoots (Some " /c ") "/home/u"
       (fun p => String.eqb p "/c/archived_sessions")
     = ["/c/sessions"; "/c/archived_sessions"].
Proof.
  split.
  - apply (proj1 environment_override_roots " /a/projects , /b ,, " "/home/u").
    vm_compute. discriminate.
  - apply (proj2 environment_override_roots " /c " "/home/u"
             (fun p => String.eqb p "/c/archived_sessions")).
    vm_compute. discriminate.
Defined.

End Roots.

(** ** Incremental scans against a scan from scratch *)

Section Lines.
Import Incremental.

Lemma split_not_nil (s : string) (c : ascii) : split s c <> [].
Proof.
  destruct s as [| a s]; cbn [split]; [discriminate |].
  destruct (Ascii.eqb a c); [discriminate |].
  destruct (split s c); discriminate.
Qed.

Lemma append_nil_l (t : string) : String.append "" t = t.
Proof. reflexivity. Qed.

Lemma append_cons (a : ascii) (s t : string) :
  String.append (String a s) t = String a (String.append s t).
Proof. reflexivity. Qed.

(** Splitting at a separator splits the list of pieces. *)
Lemma split_app_sep (s t : string) (c : ascii) :
  split (String.append s (String c t)) c = split s c ++ split t c.
Proof.
  induction s as [| a s IH]; rewrite ?append_nil_l, ?append_cons; cbn [split].
  - rewrite Ascii.eqb_refl. reflexivity.
  - rewrite IH. destruct (Ascii.eqb a c); [reflexivity |].
    destruct (split s c) as [| p ps] eqn:Hs; [now apply split_not_nil in Hs |].
    reflexivity.
Qed.

Lemma append_empty_r (s : string) : String.append s "" = s.
Proof.
  induction s as [| a s IH]; rewrite ?append_nil_l, ?append_cons;
    [reflexivity | now rewrite IH].
Qed.

Lemma append_assoc (s t u : string) :
  String.append (String.append s t) u = String.append s (String.append t u).
Proof.
  induction s as [| a s IH]; rewrite ?append_nil_l, ?append_cons;
    [reflexivity | now rewrite IH].
Qed.

Lemma length_append (s t : string) :
  String.length (String.append s t) = (String.length s + String.length t)%nat.
Proof.
  induction s as [| a s IH]; rewrite ?append_nil_l, ?append_cons; cbn [String.length];
    [reflexivity | now rewrite IH].
Qed.

Lemma drop_append (s t : string) : drop (String.length s) (String.append s t) = t.
Proof.
  induction s as [| a s IH]; rewrite ?append_nil_l, ?append_cons; cbn [String.length drop];
    [now destruct t | exact IH].
Qed.

Lemma endsWithNewline_inv (f : string) :
  endsWithNewline f = true -> exists s, f = String.append s (String "010" "").
Proof.
  induction f as [| a f IH]; cbn; [discriminate |].
  destruct f as [| b f'].
  - intros H. apply Ascii.eqb_eq in H. subst a. now exists "".
  - intros H. destruct (IH H) as [s Hs]. exists (String a s).
    rewrite append_cons. now rewrite <- Hs.
Qed.

(** A valid fragment is empty, or some text followed by a line feed. *)
Lemma validFragment_inv (f : string) :
  validFragment f = true -> f = "" \/ exists s, f = String.append s (String "010" "").
Proof.
  unfold validFragment. intros H. apply orb_true_iff in H as [H | H].
  - left. now apply String.eqb_eq.
  - right. now apply endsWithNewline_inv.
Qed.

(** The lines of a fragment followed by more text. *)
Lemma split_fragment (s t : string) :
  split (String.append (String.append s (String "010" "")) t) "010"
  = split s "010" ++ split t "010".
Proof. rewrite append_assoc, append_cons, append_nil_l. apply split_app_sep. Qed.

Lemma split_fragment_alone (s : string) :
  split (String.append s (String "010" "")) "010" = split s "010" ++ [""].
Proof. rewrite split_app_sep. reflexivity. Qed.

End Lines.

Section ClaudeFragments.
Import ClaudeLogScanner MessageLine Incremental.
Variable rt : Runtime.

Lemma parseLines_collect (lines : list string)
    (m : list (string * ClaudeUsageEntry)) (k : list ClaudeUsageEntry) :
  parseLines rt lines m k
  = do (m', k') <- collect rt lines m k; Ok (OrderedMap.values m' ++ k').
Proof.
  revert m k. induction lines as [| line lines IH]; intros m k; cbn [parseLines collect bind].
  - reflexivity.
  - destruct (parseLine rt line) as [[] |]; cbn [bind]; auto.
Qed.

Lemma collect_app (l1 l2 : list string)
    (m : list (string * ClaudeUsageEntry)) (k : list ClaudeUsageEntry) :
  collect rt (l1 ++ l2) m k = do (m', k') <- collect rt l1 m k; collect rt l2 m' k'.
Proof.
  revert m k. induction l1 as [| line l1 IH]; intros m k; cbn [app collect bind].
  - reflexivity.
  - destruct (parseLine rt line) as [[] |]; cbn [bind]; auto.
Qed.

Lemma lineKeys_app (l1 l2 : list string) :
  lineKeys rt (l1 ++ l2) = lineKeys rt l1 ++ lineKeys rt l2.
Proof. unfold lineKeys. apply flat_map_app. Qed.

Lemma set_app_fresh (key : string) (e : ClaudeUsageEntry)
    (m0 m : list (string * ClaudeUsageEntry)) :
  key ∉ map fst m0 -> OrderedMap.set key e (m0 ++ m) = m0 ++ OrderedMap.set key e m.
Proof.
  induction m0 as [| [k' v'] m0 IH]; cbn [app OrderedMap.set map fst]; [reflexivity |].
  rewrite not_elem_of_cons. intros [Hne Hnot].
  destruct (String.eqb k' key) eqn:Heq.
  - apply String.eqb_eq in Heq. congruence.
  - now rewrite IH.
Qed.

Lemma set_keys (key x : string) (e : ClaudeUsageEntry) (m : list (string * ClaudeUsageEntry)) :
  x ∈ map fst (OrderedMap.set key e m) -> x = key \/ x ∈ map fst m.
Proof.
  induction m as [| [k' v'] m IH]; cbn [OrderedMap.set map fst].
  - rewrite list_elem_of_singleton. auto.
  - destruct (String.eqb k' key); cbn [map fst]; rewrite !elem_of_cons; [tauto |].
    intros [Hx | Hx]; [tauto |]. destruct (IH Hx); tauto.
Qed.

(** The keys in the map after some lines come from the map before or
    from the lines. *)
Lemma collect_keys (lines : list string)
    (m m' : list (string * ClaudeUsageEntry)) (k k' : list ClaudeUsageEntry) (x : string) :
  collect rt lines m k = Ok (m', k') -> x ∈ map fst m' ->
  x ∈ map fst m \/ x ∈ lineKeys rt lines.
Proof.
  revert m k. induction lines as [| line lines IH]; intros m k; cbn [collect].
  - intros [= <- <-]. auto.
  - change (lineKeys rt (line :: lines))
      with (match parseLine rt line with Ok (Keyed key _) => [key] | _ => [] end
            ++ lineKeys rt lines).
    destruct (parseLine rt line) as [[| key e | e] |]; cbn [bind app]; try discriminate;
      intros Hc Hx; destruct (IH _ _ Hc Hx) as [H | H]; rewrite ?elem_of_cons; auto.
    apply set_keys in H as [-> | H]; auto.
Qed.

(** Lines whose keys are not in a map leave that part of the map, and the
    key-less entries collected before, as they are. *)
Lemma collect_frame (lines : list string)
    (m0 : list (string * ClaudeUsageEntry)) (k0 : list ClaudeUsageEntry) :
  (forall x, x ∈ map fst m0 -> x ∉ lineKeys rt lines) ->
  forall m k,
    collect rt lines (m0 ++ m) (k0 ++ k)
    = do (m', k') <- collect rt lines m k; Ok (m0 ++ m', k0 ++ k').
Proof.
  induction lines as [| line lines IH]; intros Hfresh m k; cbn [collect bind].
  - reflexivity.
  - assert (Hrest : forall x, x ∈ map fst m0 -> x ∉ lineKeys rt lines).
    { intros x Hx Hin. apply (Hfresh x Hx).
      change (line :: lines) with ([line] ++ lines). rewrite lineKeys_app, elem_of_app.
      now right. }
    destruct (parseLine rt line) as [[| key e | e] |] eqn:Hline; cbn [bind].
    + now apply IH.
    + rewrite set_app_fresh; [now apply IH |].
      intros Hin. apply (Hfresh key Hin).
      unfold lineKeys. cbn [flat_map]. rewrite Hline. cbn [app].
      apply elem_of_cons. now left.
    + rewrite <- app_assoc. now apply IH.
    + reflexivity.
Qed.

(** Parsing two fragments one after the other, against parsing their
    concatenation: the same entries, when no key occurs in both. *)
Lemma parseContent_fragments (s f2 : string) :
  (forall x, x ∈ keysOf rt (String.append s (String "010" "")) -> x ∉ keysOf rt f2) ->
  agree Permutation
    (do e1 <- parseContent rt (String.append s (String "010" ""));
     do e2 <- parseContent rt f2;
     Ok (e1 ++ e2))
    (parseContent rt (String.append (String.append s (String "010" "")) f2)).
Proof.
  unfold parseContent, keysOf. rewrite split_fragment, split_fragment_alone.
  intros Hfresh.
  rewrite !parseLines_collect, !collect_app.
  destruct (collect rt (split s "010") [] []) as [[m1 k1] |] eqn:H1; cbn [bind agree];
    [| exact I].
  change (collect rt [""] m1 k1) with (Ok (m1, k1)). cbn [bind].
  replace (collect rt (split f2 "010") m1 k1)
    with (collect rt (split f2 "010") (m1 ++ []) (k1 ++ [])) by now rewrite !app_nil_r.
  rewrite collect_frame.
  - destruct (collect rt (split f2 "010") [] []) as [[m2 k2] |]; cbn [bind agree];
      [| exact I].
    unfold OrderedMap.values. rewrite map_app, <- !app_assoc.
    apply Permutation_app_head.
    rewrite !app_assoc. apply Permutation_app_tail, Permutation_app_comm.
  - intros x Hx. apply Hfresh.
    rewrite lineKeys_app, elem_of_app. left.
    destruct (collect_keys _ _ _ _ _ x H1 Hx) as [H | H]; [| exact H].
    cbn in H. now apply elem_of_nil in H.
Qed.

End ClaudeFragments.

Section Agreement.
Import Incremental.
Context {E : Type}.

Lemma agree_eq (r r' : result (list E)) : agree eq r r' -> r = r'.
Proof. destruct r, r'; cbn; intros H; try contradiction; congruence. Qed.

End Agreement.

Section DiskFacts.
Import Incremental.

Lemma fileAt_writeFile (disk : Disk) (p : string) (f : FileData) :
  fileAt (writeFile disk p f) !! p = Some f.
Proof. unfold writeFile. cbn [fileAt]. apply lookup_insert_eq. Qed.

Lemma len_append (s t : string) : len (String.append s t) = len s + len t.
Proof. unfold len. rewrite length_append. lia. Qed.

Lemma len_nonneg (s : string) : 0 <= len s.
Proof. unfold len. lia. Qed.

Lemma len_newline (s : string) : 0 < len (String.append s (String "010" "")).
Proof. rewrite len_append. unfold len. cbn [String.length]. lia. Qed.

Lemma readFrom_start (f : FileData) : readFrom f 0 = content f.
Proof. reflexivity. Qed.

Lemma readFrom_appended (f1 f2 : string) (m : Z) :
  readFrom (mkFile (String.append f1 f2) m) (len f1) = f2.
Proof.
  unfold readFrom, len. cbn [content]. rewrite Nat2Z.id. apply drop_append.
Qed.

End DiskFacts.


(** *** Two passes over any list of files

    A scanner is seen here through its step on one path.  One file grows
    between the passes; every other file stays as it is. *)
Section TwoPasses.
Import Incremental.
Context {S E : Type}.
Variable step : string -> option FileData -> option S -> result (list E * option S).
Variable R : list E -> list E -> Prop.
Hypothesis R_refl : forall l, R l l.
Hypothesis R_app : forall a b c d, R a b -> R c d -> R (a ++ c) (b ++ d).

(** A file parsed from scratch is served from the cache the next time. *)
Hypothesis step_hit :
  forall q f e c, step q f None = Ok (e, Some c) -> step q f (Some c) = Ok (e, None).

Variable disk : Disk.
Variable p : string.
Variables F1 F12 : FileData.

Local Abbreviation settled := (Incremental.settled step R).
Local Abbreviation alike := (Incremental.alike step R).

(** The property of the file that grew: when the first pass reads it, the
    second pass and a pass from scratch do alike; when the first pass throws
    on it, a pass from scratch throws as well. *)
Hypothesis grown :
  match step p (Some F1) None with
  | Throw => step p (Some F12) None = Throw
  | Ok (_, stored) => alike p (Some F12) stored
  end.

(** The cache a pass hands to the next one: some paths dropped, the others
    as they were. *)
Variable prune : gmap string S -> gmap string S.
Hypothesis prune_lookup : forall st q, prune st !! q = None \/ prune st !! q = st !! q.

Let disk1 : Disk := writeFile disk p F1.
Let disk2 : Disk := writeFile disk p F12.

Lemma fileAt_other (q : string) (F : FileData) :
  q <> p -> fileAt (writeFile disk p F) !! q = fileAt disk !! q.
Proof. intros Hq. unfold writeFile. cbn [fileAt]. now apply lookup_insert_ne. Qed.

Lemma lookup_remember (st : gmap string S) (q q' : string) (stored : option S) :
  remember st q stored !! q' = if decide (q = q') then keep (st !! q) stored else st !! q'.
Proof.
  unfold remember, keep. destruct stored as [c |].
  - rewrite lookup_insert. destruct (decide (q = q')); reflexivity.
  - destruct (decide (q = q')) as [-> |]; reflexivity.
Qed.

Lemma alike_from_nothing (q : string) (f : option FileData) : alike q f None.
Proof.
  unfold Incremental.alike. destruct (step q f None) as [[e [c |]] |] eqn:Hs; [| | exact I].
  - split; [apply R_refl |]. exists e, e. cbn [keep].
    rewrite (step_hit _ _ _ _ Hs). auto.
  - split; [apply R_refl |]. exists e, e. cbn [keep]. rewrite Hs. auto.
Qed.

Lemma alike_from_own_cache (q : string) (f : option FileData) (e : list E) (c : S) :
  step q f None = Ok (e, Some c) -> alike q f (Some c).
Proof.
  intros Hs. unfold Incremental.alike. rewrite (step_hit _ _ _ _ Hs), Hs.
  split; [apply R_refl |]. exists e, e. cbn [keep]. rewrite (step_hit _ _ _ _ Hs). auto.
Qed.

(** **** The first pass *)

Local Abbreviation coherent := (Incremental.coherent step disk1).
Local Abbreviation related := (Incremental.related step R disk2).
Local Abbreviation in_step := (Incremental.in_step step disk1).

Lemma coherent_visit (st st' : gmap string S) (q : string) (e : list E) :
  coherent st -> visit step disk1 st q = Ok (e, st') -> coherent st'.
Proof.
  unfold visit. intros Hc Hv q' c'.
  destruct (step q (fileAt disk1 !! q) (st !! q)) as [[e0 stored] |] eqn:Hs;
    cbn [bind] in Hv; [| discriminate].
  injection Hv as <- <-. rewrite lookup_remember.
  destruct (decide (q = q')) as [<- |]; [| apply Hc].
  destruct stored as [c |]; cbn [keep]; [| apply Hc].
  intros [= <-]. destruct (st !! q) as [c0 |] eqn:Hq.
  - destruct (Hc _ _ Hq) as [e1 H1]. rewrite (step_hit _ _ _ _ H1) in Hs. discriminate.
  - eauto.
Qed.

Lemma coherent_visitAll (files : list string) (all all' : list E) (st st' : gmap string S) :
  coherent st -> visitAll step disk1 files all st = Ok (all', st') -> coherent st'.
Proof.
  revert all st. induction files as [| q files IH]; intros all st Hc; cbn [visitAll].
  - intros [= <- <-]. exact Hc.
  - destruct (visit step disk1 st q) as [[e st1] |] eqn:Hv; cbn [bind]; [| discriminate].
    apply IH. eapply coherent_visit; eauto.
Qed.

(** **** The second pass against a pass from scratch *)

Lemma related_visit (stA stB : gmap string S) (q : string) :
  related stA stB ->
  match visit step disk2 stA q, visit step disk2 stB q with
  | Throw, Throw => True
  | Ok (eA, stA'), Ok (eB, stB') => R eA eB /\ related stA' stB'
  | _, _ => False
  end.
Proof.
  intros Hrel. unfold visit.
  destruct (Hrel q) as [[HB Hal] | (eA & eB & HA & HB & HR)].
  - rewrite HB. unfold Incremental.alike in Hal.
    destruct (step q (fileAt disk2 !! q) (stA !! q)) as [[eA oa] |];
      destruct (step q (fileAt disk2 !! q) None) as [[eB ob] |]; cbn [bind];
      try contradiction; [| exact I].
    destruct Hal as [HR Hset]. split; [exact HR |].
    intros q'. rewrite !lookup_remember.
    destruct (decide (q = q')) as [<- |]; [| apply Hrel].
    right. rewrite HB. exact Hset.
  - rewrite HA, HB. cbn [bind remember]. split; [exact HR | exact Hrel].
Qed.

Lemma related_visitAll (files : list string) (allA allB : list E)
    (stA stB : gmap string S) :
  related stA stB -> R allA allB ->
  agree R (do (e, _) <- visitAll step disk2 files allA stA; Ok e)
          (do (e, _) <- visitAll step disk2 files allB stB; Ok e).
Proof.
  revert allA allB stA stB.
  induction files as [| q files IH]; intros allA allB stA stB Hrel Hall; cbn [visitAll bind].
  - exact Hall.
  - pose proof (related_visit stA stB q Hrel) as Hq.
    destruct (visit step disk2 stA q) as [[eA stA'] |];
      destruct (visit step disk2 stB q) as [[eB stB'] |]; cbn [bind agree];
      try contradiction; [| exact I].
    destruct Hq as [HR Hrel']. apply IH; [exact Hrel' |]. now apply R_app.
Qed.

(** The cache left by the first pass is related to an empty cache. *)
Lemma related_after_first_pass (st1 : gmap string S) :
  coherent st1 -> related (prune st1) ∅.
Proof.
  intros Hc q. left. split; [apply lookup_empty |].
  destruct (prune_lookup st1 q) as [-> | ->]; [apply alike_from_nothing |].
  destruct (st1 !! q) as [c |] eqn:Hq; [| apply alike_from_nothing].
  destruct (Hc _ _ Hq) as [e He].
  destruct (decide (q = p)) as [-> | Hne].
  - unfold disk1, disk2 in *. rewrite !fileAt_writeFile in *.
    pose proof grown as Hg. rewrite He in Hg. exact Hg.
  - unfold disk1, disk2 in *. rewrite fileAt_other in * by assumption.
    eapply alike_from_own_cache; eauto.
Qed.

(** **** A first pass that throws *)

Lemma in_step_visit (stA stB : gmap string S) (q : string) :
  in_step stA stB ->
  match visit step disk1 stA q with
  | Throw => visit step disk2 stB q = Throw
  | Ok (_, stA') =>
      match visit step disk2 stB q with
      | Throw => True
      | Ok (_, stB') => in_step stA' stB'
      end
  end.
Proof.
  intros Hin. unfold visit.
  destruct (Hin q) as [[e He] | [HA HB]].
  - rewrite He. cbn [bind remember].
    destruct (step q (fileAt disk2 !! q) (stB !! q)) as [[eB ob] |]; cbn [bind]; [| exact I].
    intros q'. destruct (Hin q') as [Hq' | [HA' HB']]; [now left |].
    destruct (decide (q = q')) as [<- |].
    + left. eauto.
    + right. rewrite lookup_remember. destruct (decide (q = q')); [contradiction | auto].
  - rewrite HA, HB.
    assert (Hquiet : forall e stored,
               step q (fileAt disk1 !! q) None = Ok (e, stored) ->
               exists e', step q (fileAt disk1 !! q) (keep None stored) = Ok (e', None)).
    { intros e [c |] Hs; cbn [keep]; eauto. }
    assert (Hnext : forall e stored stB',
               step q (fileAt disk1 !! q) None = Ok (e, stored) ->
               (forall q', q' <> q -> stB' !! q' = stB !! q') ->
               in_step (remember stA q stored) stB').
    { intros e stored stB' Hs Hsame q'. rewrite lookup_remember.
      destruct (decide (q = q')) as [<- |].
      - left. rewrite HA. eapply Hquiet; eauto.
      - destruct (Hin q') as [Hq' | [HA' HB']]; [now left |].
        right. rewrite Hsame by congruence. auto. }
    destruct (decide (q = p)) as [-> | Hne].
    + unfold disk1, disk2 in *. rewrite !fileAt_writeFile in *.
      pose proof grown as Hg.
      destruct (step p (Some F1) None) as [[e1 stored] |] eqn:H1; cbn [bind].
      * destruct (step p (Some F12) None) as [[e2 ob] |]; cbn [bind]; [| exact I].
        eapply Hnext; [reflexivity |].
        intros q' Hq'. rewrite lookup_remember.
        destruct (decide (p = q')); [congruence | reflexivity].
      * rewrite Hg. reflexivity.
    + unfold disk1, disk2 in *. rewrite !fileAt_other in * by assumption.
      destruct (step q (fileAt disk !! q) None) as [[e1 stored] |] eqn:H1; cbn [bind];
        [| reflexivity].
      eapply Hnext; [reflexivity |].
      intros q' Hq'. rewrite lookup_remember.
      destruct (decide (q = q')); [congruence | reflexivity].
Qed.

Lemma in_step_visitAll (files : list string) (allA allB : list E)
    (stA stB : gmap string S) :
  in_step stA stB ->
  visitAll step disk1 files allA stA = Throw ->
  visitAll step disk2 files allB stB = Throw.
Proof.
  revert allA allB stA stB.
  induction files as [| q files IH]; intros allA allB stA stB Hin; cbn [visitAll];
    [discriminate |].
  pose proof (in_step_visit stA stB q Hin) as Hq.
  destruct (visit step disk1 stA q) as [[eA stA'] |]; cbn [bind].
  - destruct (visit step disk2 stB q) as [[eB stB'] |]; cbn [bind]; [| reflexivity].
    apply IH. exact Hq.
  - rewrite Hq. reflexivity.
Qed.

(** **** Both passes against one *)

Theorem two_passes_agree (files : list string) :
  agree R
    (do (_, st1) <- visitAll step disk1 files [] ∅;
     do (e2, _) <- visitAll step disk2 files [] (prune st1);
     Ok e2)
    (do (e, _) <- visitAll step disk2 files [] ∅; Ok e).
Proof.
  destruct (visitAll step disk1 files [] ∅) as [[all1 st1] |] eqn:H1; cbn [bind].
  - apply related_visitAll; [| apply R_refl].
    apply related_after_first_pass.
    eapply coherent_visitAll; [| exact H1].
    intros q c Hq. rewrite lookup_empty in Hq. discriminate.
  - rewrite (in_step_visitAll files [] [] ∅ ∅); [exact I | | exact H1].
    intros q. right. split; apply lookup_empty.
Qed.

End TwoPasses.

(** Deciding the comparisons of sizes and offsets in [scanFile]. *)
Ltac decide_sizes :=
  repeat match goal with
         | |- context [Z.leb ?a ?b] => destruct (Z.leb_spec a b); try lia
         | |- context [Z.ltb ?a ?b] => destruct (Z.ltb_spec a b); try lia
         | |- context [Z.eqb ?a ?b] => destruct (Z.eqb_spec a b); try lia
         end.

Section Pruning.
Context {S : Type}.

(** Dropping the paths a pass did not touch drops cached states or leaves
    them as they are. *)
Lemma lookup_pruned (touched : gset string) (m : gmap string S) (q : string) :
  filter (fun kv : string * S => bool_decide (fst kv ∈ touched)) m !! q = None
  \/ filter (fun kv : string * S => bool_decide (fst kv ∈ touched)) m !! q = m !! q.
Proof.
  destruct (filter _ m !! q) as [c |] eqn:Hf; [right | now left].
  apply map_lookup_filter_Some in Hf as [Hm _]. now rewrite Hm.
Qed.

End Pruning.

Section ClaudeScans.
Import ClaudeLogScanner MessageLine Incremental.
Variable rt : Runtime.

Lemma scanFile_visit (disk : Disk) (st : gmap string FileScanState) (q : string) :
  scanFile rt disk st q = visit (claudeStep rt) disk st q.
Proof.
  unfold scanFile, visit, claudeStep, parseFile.
  destruct (fileAt disk !! q) as [f |]; [| reflexivity].
  destruct (fileSize f <=? 0); [reflexivity |].
  destruct (st !! q) as [c |].
  - destruct ((lastSize c =? fileSize f) && (lastMtimeMs c =? mtimeMs f)); [reflexivity |].
    destruct ((lastSize c <? fileSize f) && (0 <? lastOffset c) && (lastOffset c <=? fileSize f)).
    + destruct (fileSize f - lastOffset c <=? 0); cbn [bind]; [reflexivity |].
      destruct (parseContent rt _); reflexivity.
    + destruct (fileSize f - 0 <=? 0); cbn [bind]; [reflexivity |].
      destruct (parseContent rt _); reflexivity.
  - destruct (fileSize f - 0 <=? 0); cbn [bind]; [reflexivity |].
    destruct (parseContent rt _); reflexivity.
Qed.

Lemma scanFiles_visitAll (disk : Disk) (files : list string) (all : list ClaudeUsageEntry)
    (touched : gset string) (st : gmap string FileScanState) :
  scanFiles rt disk files (all, touched, st)
  = do (all', st') <- visitAll (claudeStep rt) disk files all st;
    Ok (all', touchedAfter files touched, st').
Proof.
  revert all touched st.
  induction files as [| q files IH]; intros all touched st;
    cbn [scanFiles visitAll bind touchedAfter fold_left]; [reflexivity |].
  rewrite scanFile_visit.
  destruct (visit (claudeStep rt) disk st q) as [[e st'] |]; cbn [bind]; [| reflexivity].
  apply IH.
Qed.

Lemma scanFiles_app (disk : Disk) (l1 l2 : list string)
    (acc : list ClaudeUsageEntry * gset string * gmap string FileScanState) :
  scanFiles rt disk (l1 ++ l2) acc = do acc' <- scanFiles rt disk l1 acc; scanFiles rt disk l2 acc'.
Proof.
  revert acc. induction l1 as [| p l1 IH]; intros [[all touched] st]; cbn [app scanFiles bind].
  - reflexivity.
  - destruct (scanFile rt disk st p) as [[e st'] |]; cbn [bind]; auto.
Qed.

Lemma scanRoots_discovered (disk : Disk) (roots : list string)
    (acc : list ClaudeUsageEntry * gset string * gmap string FileScanState) :
  scanRoots rt disk roots acc = scanFiles rt disk (discovered disk roots) acc.
Proof.
  revert acc. unfold discovered.
  induction roots as [| root roots IH]; intros acc; cbn [scanRoots List.filter flat_map].
  - reflexivity.
  - destruct (dirExists disk root); cbn [negb flat_map].
    + rewrite scanFiles_app. destruct (scanFiles rt disk (jsonlFilesUnder disk root) acc);
        cbn [bind]; auto.
    + apply IH.
Qed.

(** [scan] visits the files found under the roots and prunes the cache. *)
Lemma scan_visitAll (envVal : option string) (home : string) (disk : Disk)
    (st : gmap string FileScanState) :
  scan rt envVal home disk st
  = do (all, st') <-
      visitAll (claudeStep rt) disk (discovered disk (getProjectRoots envVal home)) [] st;
    Ok (all,
        filter (fun kv : string * FileScanState =>
                  bool_decide (fst kv ∈ touchedAfter
                                 (discovered disk (getProjectRoots envVal home)) ∅)) st').
Proof.
  unfold scan. rewrite scanRoots_discovered, scanFiles_visitAll.
  destruct (visitAll _ _ _ _ _) as [[all st'] |]; reflexivity.
Qed.

Lemma claudeStep_hit (q : string) (f : option FileData) (e : list ClaudeUsageEntry)
    (c : FileScanState) :
  claudeStep rt q f None = Ok (e, Some c) -> claudeStep rt q f (Some c) = Ok (e, None).
Proof.
  unfold claudeStep. destruct f as [f |]; [| discriminate].
  destruct (fileSize f <=? 0); [discriminate |].
  destruct (if fileSize f - 0 <=? 0 then _ else _) as [es |]; cbn [bind]; [| discriminate].
  intros [= <- <-]. cbn [lastSize lastMtimeMs entries]. now rewrite !Z.eqb_refl.
Qed.

(** The file that grew by a valid fragment, in the message-oriented
    scanner. *)
Lemma claude_grown (q f1 f2 : string) (m1 m2 : Z) :
  validFragment f1 = true -> validFragment f2 = true ->
  (forall x, x ∈ keysOf rt f1 -> x ∉ keysOf rt f2) ->
  match claudeStep rt q (Some (mkFile f1 m1)) None with
  | Throw => claudeStep rt q (Some (mkFile (String.append f1 f2) m2)) None = Throw
  | Ok (_, stored) =>
      alike (claudeStep rt) Permutation q (Some (mkFile (String.append f1 f2) m2)) stored
  end.
Proof.
  intros Hv1 Hv2 Hfresh.
  apply validFragment_inv in Hv1 as [-> | [s1 ->]].
  - (* nothing was written before the first pass *)
    change (claudeStep rt q (Some (mkFile "" m1)) None) with (@Ok (list ClaudeUsageEntry * option FileScanState) ([], None)).
    cbv iota beta. apply alike_from_nothing; [reflexivity | apply claudeStep_hit].
  - pose proof (len_newline s1) as Hpos.
    pose proof (len_nonneg f2) as Hnn.
    pose proof (parseContent_fragments rt s1 f2 Hfresh) as Hfrag.
    set (f1 := String.append s1 (String "010" "")) in *.
    unfold Incremental.alike, Incremental.settled, claudeStep, fileSize. cbn [content mtimeMs]. rewrite len_append.
    decide_sizes. rewrite !readFrom_start. cbn [content].
    destruct (parseContent rt f1) as [e1 |] eqn:He1; cbn [bind] in *.
    2:{ destruct (parseContent rt (String.append f1 f2)); cbn in *; [contradiction | reflexivity]. }
    cbn [lastSize lastMtimeMs lastOffset entries].
    apply validFragment_inv in Hv2 as [-> | [s2 Hs2]].
    + (* the second fragment is empty *)
      change (len "") with 0 in *. rewrite append_empty_r in *. rewrite Z.add_0_r.
      rewrite Z.eqb_refl, Z.ltb_irrefl. cbn [andb].
      destruct (m1 =? m2) eqn:Hm; cbn [bind];
        decide_sizes; rewrite ?readFrom_start; cbn [content];
        rewrite ?He1; cbn [bind keep lastSize lastMtimeMs entries];
        rewrite ?Z.eqb_refl, ?Hm; cbn [andb];
        (split; [reflexivity |]); exists e1, e1; auto.
    + assert (0 < len f2) by (rewrite Hs2; apply len_newline).
      decide_sizes; cbn [andb bind]; rewrite readFrom_appended;
        destruct (parseContent rt f2) as [es2 |]; cbn [bind] in *;
        destruct (parseContent rt (String.append f1 f2)) as [es |]; cbn in *;
        try contradiction; try exact I;
        rewrite ?Z.eqb_refl; cbn [andb];
        (split; [exact Hfrag |]); eexists _, _; auto.
Qed.

End ClaudeScans.

Section CodexScans.
Import CodexLogScanner Incremental.
Variable rt : Runtime.

Lemma codex_parseLines_app (l1 l2 : list string) (es : list CodexUsageEntry)
    (cm : jsval) (pt : option CumulativeTotals) :
  parseLines rt (l1 ++ l2) es cm pt
  = do r <- parseLines rt l1 es cm pt;
    parseLines rt l2 (r_entries r) (r_lastModel r) (r_lastTotals r).
Proof.
  revert es cm pt. induction l1 as [| line l1 IH]; intros es cm pt; cbn [app parseLines bind].
  - reflexivity.
  - destruct (parseLine rt line cm pt) as [[[cm' pt'] pushed] |]; cbn [bind]; auto.
Qed.

(** The entries found before a call of [parseLines] stay in front. *)
Lemma codex_parseLines_acc (lines : list string) (es0 es : list CodexUsageEntry)
    (cm : jsval) (pt : option CumulativeTotals) :
  parseLines rt lines (es0 ++ es) cm pt
  = do r <- parseLines rt lines es cm pt;
    Ok (mkResult (es0 ++ r_entries r) (r_lastModel r) (r_lastTotals r)).
Proof.
  revert es cm pt. induction lines as [| line lines IH]; intros es cm pt; cbn [parseLines bind].
  - reflexivity.
  - destruct (parseLine rt line cm pt) as [[[cm' pt'] [e |]] |]; cbn [bind]; auto.
    rewrite <- app_assoc. apply IH.
Qed.

Lemma codex_parseLines_empty (es : list CodexUsageEntry) (cm : jsval)
    (pt : option CumulativeTotals) :
  parseLines rt [""] es cm pt = Ok (mkResult es cm pt).
Proof. reflexivity. Qed.

(** Parsing a second fragment from the model and totals left by the first
    gives what parsing the concatenation gives. *)
Lemma codex_parseContent_fragments (s f2 : string) :
  parseContent rt (String.append (String.append s (String "010" "")) f2) None None
  = do r1 <- parseContent rt (String.append s (String "010" "")) None None;
    do r2 <- parseContent rt f2 (r_lastModel r1) (r_lastTotals r1);
    Ok (mkResult (r_entries r1 ++ r_entries r2) (r_lastModel r2) (r_lastTotals r2)).
Proof.
  unfold parseContent. rewrite split_fragment, split_fragment_alone.
  rewrite !codex_parseLines_app.
  destruct (parseLines rt (split s "010") [] None None) as [[es1 cm1 pt1] |]; cbn [bind];
    [| reflexivity].
  rewrite codex_parseLines_empty. cbn [bind r_entries r_lastModel r_lastTotals].
  rewrite <- (app_nil_r es1) at 1. apply codex_parseLines_acc.
Qed.

Lemma codex_scanFile_visit (disk : Disk) (st : gmap string FileScanState) (q : string) :
  scanFile rt disk st q = visit (codexStep rt) disk st q.
Proof.
  unfold scanFile, visit, codexStep, parseFile.
  destruct (fileAt disk !! q) as [f |]; [| reflexivity].
  destruct (fileSize f <=? 0); [reflexivity |].
  destruct (st !! q) as [c |].
  - destruct ((lastSize c =? fileSize f) && (lastMtimeMs c =? mtimeMs f)); [reflexivity |].
    destruct ((lastSize c <? fileSize f) && (0 <? lastOffset c) && (lastOffset c <=? fileSize f)).
    + destruct (fileSize f - lastOffset c <=? 0); cbn [bind]; [reflexivity |].
      destruct (parseContent rt _ _ _); reflexivity.
    + destruct (fileSize f - 0 <=? 0); cbn [bind]; [reflexivity |].
      destruct (parseContent rt _ _ _); reflexivity.
  - destruct (fileSize f - 0 <=? 0); cbn [bind]; [reflexivity |].
    destruct (parseContent rt _ _ _); reflexivity.
Qed.

Lemma codex_scanFiles_visitAll (disk : Disk) (files : list string)
    (all : list CodexUsageEntry) (touched : gset string) (st : gmap string FileScanState) :
  scanFiles rt disk files (all, touched, st)
  = do (all', st') <- visitAll (codexStep rt) disk files all st;
    Ok (all', touchedAfter files touched, st').
Proof.
  revert all touched st.
  induction files as [| q files IH]; intros all touched st;
    cbn [scanFiles visitAll bind touchedAfter fold_left]; [reflexivity |].
  rewrite codex_scanFile_visit.
  destruct (visit (codexStep rt) disk st q) as [[e st'] |]; cbn [bind]; [| reflexivity].
  apply IH.
Qed.

Lemma codex_scanFiles_app (disk : Disk) (l1 l2 : list string)
    (acc : list CodexUsageEntry * gset string * gmap string FileScanState) :
  scanFiles rt disk (l1 ++ l2) acc = do acc' <- scanFiles rt disk l1 acc; scanFiles rt disk l2 acc'.
Proof.
  revert acc. induction l1 as [| p l1 IH]; intros [[all touched] st]; cbn [app scanFiles bind].
  - reflexivity.
  - destruct (scanFile rt disk st p) as [[e st'] |]; cbn [bind]; auto.
Qed.

Lemma codex_scanRoots_discovered (disk : Disk) (roots : list string)
    (acc : list CodexUsageEntry * gset string * gmap string FileScanState) :
  scanRoots rt disk roots acc = scanFiles rt disk (discovered disk roots) acc.
Proof.
  revert acc. unfold discovered.
  induction roots as [| root roots IH]; intros acc; cbn [scanRoots List.filter flat_map].
  - reflexivity.
  - destruct (dirExists disk root); cbn [negb flat_map].
    + rewrite codex_scanFiles_app.
      destruct (scanFiles rt disk (jsonlFilesUnder disk root) acc); cbn [bind]; auto.
    + apply IH.
Qed.

Lemma codex_scan_visitAll (envVal : option string) (home : string) (disk : Disk)
    (st : gmap string FileScanState) :
  scan rt envVal home disk st
  = do (all, st') <-
      visitAll (codexStep rt) disk
        (discovered disk (getSessionRoots envVal home (dirExists disk))) [] st;
    Ok (all,
        filter (fun kv : string * FileScanState =>
                  bool_decide
                    (fst kv ∈ touchedAfter
                       (discovered disk (getSessionRoots envVal home (dirExists disk))) ∅))
               st').
Proof.
  unfold scan. rewrite codex_scanRoots_discovered, codex_scanFiles_visitAll.
  destruct (visitAll _ _ _ _ _) as [[all st'] |]; reflexivity.
Qed.

Lemma codexStep_hit (q : string) (f : option FileData) (e : list CodexUsageEntry)
    (c : FileScanState) :
  codexStep rt q f None = Ok (e, Some c) -> codexStep rt q f (Some c) = Ok (e, None).
Proof.
  unfold codexStep. destruct f as [f |]; [| discriminate].
  destruct (fileSize f <=? 0); [discriminate |].
  destruct (if fileSize f - 0 <=? 0 then _ else _) as [r |]; cbn [bind]; [| discriminate].
  intros [= <- <-]. cbn [lastSize lastMtimeMs entries]. now rewrite !Z.eqb_refl.
Qed.

(** The file that grew by a valid fragment, in the counter-oriented
    scanner. *)
Lemma codex_grown (q f1 f2 : string) (m1 m2 : Z) :
  validFragment f1 = true -> validFragment f2 = true ->
  match codexStep rt q (Some (mkFile f1 m1)) None with
  | Throw => codexStep rt q (Some (mkFile (String.append f1 f2) m2)) None = Throw
  | Ok (_, stored) =>
      alike (codexStep rt) eq q (Some (mkFile (String.append f1 f2) m2)) stored
  end.
Proof.
  intros Hv1 Hv2.
  apply validFragment_inv in Hv1 as [-> | [s1 ->]].
  - change (codexStep rt q (Some (mkFile "" m1)) None)
      with (@Ok (list CodexUsageEntry * option FileScanState) ([], None)).
    cbv iota beta. apply alike_from_nothing; [reflexivity | apply codexStep_hit].
  - pose proof (len_newline s1) as Hpos.
    pose proof (len_nonneg f2) as Hnn.
    pose proof (codex_parseContent_fragments s1 f2) as Hfrag.
    set (f1 := String.append s1 (String "010" "")) in *.
    unfold Incremental.alike, Incremental.settled, codexStep, fileSize. cbn [content mtimeMs]. rewrite len_append.
    decide_sizes. rewrite !readFrom_start. cbn [content]. rewrite Hfrag.
    destruct (parseContent rt f1 None None) as [[es1 cm1 pt1] |] eqn:He1; cbn [bind] in *;
      [| reflexivity].
    cbn [lastSize lastMtimeMs lastOffset lastModel lastTotals entries
           r_entries r_lastModel r_lastTotals].
    apply validFragment_inv in Hv2 as [-> | [s2 Hs2]].
    + change (len "") with 0 in *. rewrite Z.add_0_r.
      rewrite Z.eqb_refl, Z.ltb_irrefl. cbn [andb].
      change (parseContent rt "" cm1 pt1) with (Ok (mkResult [] cm1 pt1)).
      cbn [bind r_entries r_lastModel r_lastTotals]. rewrite app_nil_r.
      destruct (m1 =? m2) eqn:Hm;
        cbn [bind keep lastSize lastMtimeMs entries];
        rewrite ?Z.eqb_refl, ?Hm; cbn [andb];
        (split; [reflexivity |]); exists es1, es1; auto.
    + assert (0 < len f2) by (rewrite Hs2; apply len_newline).
      decide_sizes; cbn [andb bind]; rewrite readFrom_appended;
        destruct (parseContent rt f2 cm1 pt1) as [[es2 cm2 pt2] |];
        cbn [bind keep lastSize lastMtimeMs entries r_entries r_lastModel r_lastTotals];
        try exact I;
        rewrite ?Z.eqb_refl; cbn [andb];
        (split; [reflexivity |]); eexists _, _; auto.
Qed.

End CodexScans.

Section IncrementalClaims.
Import Incremental SampleLines SampleDisk.

Example claude_two_turns :
  entriesOf claudeCounts
    (scanTwice (ClaudeLogScanner.scan referenceRuntime None home) ∅
       (writeFile disk claudeLog (mkFile turn1 1000))
       (writeFile disk claudeLog (mkFile (String.append turn1 turn2) 2000)))
  = [ (100, 50, 0, 0); (200, 100, 0, 0) ].
Proof. vm_compute. reflexivity. Qed.

Example codex_two_passes :
  entriesOf codexCounts
    (scanTwice (CodexLogScanner.scan referenceRuntime None home) ∅
       (writeFile disk codexLog (mkFile session1 1000))
       (writeFile disk codexLog (mkFile (String.append session1 session2) 2000)))
  = [ (100, 0, 50); (200, 50, 100) ].
Proof. vm_compute. reflexivity. Qed.

(** C1, as stated, fails for the message-oriented scanner when the two
    fragments carry lines of one message: the second pass appends the event
    of the second fragment to the event it kept from the first, whereas a
    scan from scratch merges the two lines into one event. *)
Lemma message_split_over_two_passes :
  entriesOf claudeCounts
    (scanTwice (ClaudeLogScanner.scan referenceRuntime None home) ∅
       (writeFile disk claudeLog (mkFile streamed1 1000))
       (writeFile disk claudeLog (mkFile (String.append streamed1 streamed2) 2000)))
  = [ (100, 10, 0, 0); (100, 50, 0, 0) ]
  /\ entriesOf claudeCounts
       (scanOnce (ClaudeLogScanner.scan referenceRuntime None home) ∅
          (writeFile disk claudeLog (mkFile (String.append streamed1 streamed2) 2000)))
     = [ (100, 50, 0, 0) ].
Proof. vm_compute. split; reflexivity. Qed.

(** C1, amended: a log file is written as one valid fragment (whole lines,
    each ended by a line feed) and then extended by a second one, whatever
    other files the roots hold, these staying as they are.  The
    counter-oriented scanner returns at its second pass exactly the event
    list that a new scanner returns.  The message-oriented scanner returns a
    rearrangement of that list, provided no deduplication key occurs in both
    fragments.  A pass throws on one side only if a pass throws on the
    other. *)
Theorem incremental_scan_equals_full_scan :
  (forall (rt : Runtime) (envVal : option string) (home : string) (disk : Disk)
          (p f1 f2 : string) (m1 m2 : Z),
      validFragment f1 = true -> validFragment f2 = true ->
      (forall key, key ∈ MessageLine.keysOf rt f1 -> key ∉ MessageLine.keysOf rt f2) ->
      agree Permutation
        (scanTwice (ClaudeLogScanner.scan rt envVal home) ∅
           (writeFile disk p (mkFile f1 m1))
           (writeFile disk p (mkFile (String.append f1 f2) m2)))
        (scanOnce (ClaudeLogScanner.scan rt envVal home) ∅
           (writeFile disk p (mkFile (String.append f1 f2) m2))))
  /\ (forall (rt : Runtime) (envVal : option string) (home : string) (disk : Disk)
             (p f1 f2 : string) (m1 m2 : Z),
         validFragment f1 = true -> validFragment f2 = true ->
         scanTwice (CodexLogScanner.scan rt envVal home) ∅
           (writeFile disk p (mkFile f1 m1))
           (writeFile disk p (mkFile (String.append f1 f2) m2))
         = scanOnce (CodexLogScanner.scan rt envVal home) ∅
             (writeFile disk p (mkFile (String.append f1 f2) m2))).
Proof.
  split.
  - intros rt envVal home disk p f1 f2 m1 m2 Hv1 Hv2 Hfresh.
    set (files := discovered disk (ClaudeLogScanner.getProjectRoots envVal home)).
    pose proof (two_passes_agree (claudeStep rt) Permutation
                  (@Permutation_refl _) (fun a b c d => @Permutation_app _ a c b d)
                  (claudeStep_hit rt) disk p (mkFile f1 m1)
                  (mkFile (String.append f1 f2) m2)
                  (claude_grown rt p f1 f2 m1 m2 Hv1 Hv2 Hfresh)
                  _ (lookup_pruned (touchedAfter files ∅)) files) as H.
    unfold scanTwice, scanOnce. rewrite !scan_visitAll.
    change (discovered (writeFile disk p _) ?r) with (discovered disk r). fold files.
    destruct (visitAll (claudeStep rt) (writeFile disk p (mkFile f1 m1)) files [] ∅)
      as [[all1 st1] |]; cbn [bind] in *.
    + rewrite scan_visitAll.
      change (discovered (writeFile disk p _) ?r) with (discovered disk r). fold files.
      destruct (visitAll (claudeStep rt) _ files [] (filter _ st1)) as [[all2 st2] |];
        cbn [bind] in *;
        destruct (visitAll (claudeStep rt) _ files [] ∅) as [[all st] |];
        cbn [bind] in *; exact H.
    + destruct (visitAll (claudeStep rt) _ files [] ∅) as [[all st] |];
        cbn [bind] in *; exact H.
  - intros rt envVal home disk p f1 f2 m1 m2 Hv1 Hv2.
    set (files := discovered disk
                    (CodexLogScanner.getSessionRoots envVal home (dirExists disk))).
    pose proof (two_passes_agree (codexStep rt) eq
                  (fun l => eq_refl) (fun a b c d Hab Hcd => f_equal2 (@app _) Hab Hcd)
                  (codexStep_hit rt) disk p (mkFile f1 m1)
                  (mkFile (String.append f1 f2) m2)
                  (codex_grown rt p f1 f2 m1 m2 Hv1 Hv2)
                  _ (lookup_pruned (touchedAfter files ∅)) files) as H.
    apply agree_eq.
    unfold scanTwice, scanOnce. rewrite !codex_scan_visitAll.
    change (dirExists (writeFile disk p _)) with (dirExists disk).
    change (discovered (writeFile disk p _) ?r) with (discovered disk r). fold files.
    destruct (visitAll (codexStep rt) (writeFile disk p (mkFile f1 m1)) files [] ∅)
      as [[all1 st1] |]; cbn [bind] in *.
    + rewrite codex_scan_visitAll.
      change (dirExists (writeFile disk p _)) with (dirExists disk).
      change (discovered (writeFile disk p _) ?r) with (discovered disk r). fold files.
      destruct (visitAll (codexStep rt) _ files [] (filter _ st1)) as [[all2 st2] |];
        cbn [bind] in *;
        destruct (visitAll (codexStep rt) _ files [] ∅) as [[all st] |];
        cbn [bind] in *; exact H.
    + destruct (visitAll (codexStep rt) _ files [] ∅) as [[all st] |];
        cbn [bind] in *; exact H.
Qed.

Lemma incremental_scan_equals_full_scan_witness :
  agree Permutation
    (scanTwice (ClaudeLogScanner.scan referenceRuntime None home) ∅
       (writeFile disk claudeLog (mkFile turn1 1000))
       (writeFile disk claudeLog (mkFile (String.append turn1 turn2) 2000)))
    (scanOnce (ClaudeLogScanner.scan referenceRuntime None home) ∅
       (writeFile disk claudeLog (mkFile (String.append turn1 turn2) 2000)))
  /\ scanTwice (CodexLogScanner.scan referenceRuntime None home) ∅
       (writeFile disk codexLog (mkFile session1 1000))
       (writeFile disk codexLog (mkFile (String.append session1 session2) 2000))
     = scanOnce (CodexLogScanner.scan referenceRuntime None home) ∅
         (writeFile disk codexLog (mkFile (String.append session1 session2) 2000)).
Proof.
  split.
  - apply (proj1 incremental_scan_equals_full_scan referenceRuntime None home disk
             claudeLog turn1 turn2 1000 2000).
    + vm_compute. reflexivity.
    + vm_compute. reflexivity.
    + intros key H1 H2.
      assert (E1 : MessageLine.keysOf referenceRuntime turn1 = ["msg_001:req_001"])
        by (vm_compute; reflexivity).
      assert (E2 : MessageLine.keysOf referenceRuntime turn2 = ["msg_002:req_002"])
        by (vm_compute; reflexivity).
      rewrite E1 in H1. rewrite E2 in H2.
      apply list_elem_of_singleton in H1, H2. subst key. discriminate H2.
  - apply (proj2 incremental_scan_equals_full_scan referenceRuntime None home disk
             codexLog session1 session2 1000 2000).
    + vm_compute. reflexivity.
    + vm_compute. reflexivity.
Defined.

End IncrementalClaims.

(** ** The walk through the directories *)

Section PathNames.
Import NodePath.

Lemma startsWith_slash (s : string) :
  startsWith s "/" = match s with String a _ => Ascii.eqb a "/" | EmptyString => false end.
Proof.
  destruct s as [| a s]; cbn [startsWith]; [reflexivity |].
  destruct s; apply andb_true_r.
Qed.

Lemma split_no_separator (name : string) :
  includes name "/" = false -> split name "/" = [name].
Proof.
  induction name as [| a name IH]; [reflexivity |].
  cbn [includes]. rewrite startsWith_slash. intros H.
  apply orb_false_elim in H as [Ha Hrest]. cbn [split]. rewrite Ha, (IH Hrest). reflexivity.
Qed.

Lemma rev_acc_append (s t acc : string) :
  rev_acc (String.append s t) acc = rev_acc t (rev_acc s acc).
Proof.
  revert acc. induction s as [| a s IH]; intros acc; rewrite ?append_nil_l, ?append_cons;
    cbn [rev_acc]; [reflexivity | apply IH].
Qed.

(** The last character of a name comes first when it is reversed. *)
Lemma rev_acc_no_slash (name acc : string) :
  name <> "" -> includes name "/" = false ->
  match rev_acc name acc with String "/" _ => true | _ => false end = false.
Proof.
  revert acc. induction name as [| a name IH]; intros acc Hne; [congruence |].
  cbn [includes rev_acc]. rewrite startsWith_slash. intros H.
  apply orb_false_elim in H as [Ha Hrest].
  destruct name as [| b name]; [| now apply IH].
  cbn [rev_acc]. destruct a as [[] [] [] [] [] [] [] []]; try reflexivity. discriminate Ha.
Qed.

Lemma endsWithSlash_name (s name : string) :
  name <> "" -> includes name "/" = false -> endsWithSlash (String.append s name) = false.
Proof.
  intros Hne Hno. unfold endsWithSlash, rev. rewrite rev_acc_append.
  now apply rev_acc_no_slash.
Qed.

(** The segments that come first leave a stack; the segments that follow
    are resolved from it. *)
Lemma resolveSegments_app (allow : bool) (l1 : list string) (stack : list string) :
  exists stack', forall l2,
    resolveSegments allow (l1 ++ l2) stack = resolveSegments allow l2 stack'.
Proof.
  revert stack. induction l1 as [| seg l1 IH]; intros stack; [now exists stack |].
  cbn [app resolveSegments].
  destruct (String.eqb seg "" || String.eqb seg "."); [apply IH |].
  destruct (String.eqb seg ".."); [| apply IH].
  destruct stack as [| top below]; [destruct allow; apply IH |].
  destruct (String.eqb top ".."); apply IH.
Qed.

Lemma resolveSegments_name (allow : bool) (name : string) (stack : list string) :
  name <> "" -> startsWith name "." = false ->
  resolveSegments allow [name] stack = List.rev stack ++ [name].
Proof.
  intros Hne Hdot. cbn [resolveSegments].
  destruct (String.eqb_spec name "") as [-> | _]; [congruence |].
  destruct (String.eqb_spec name ".") as [-> | _]; [discriminate Hdot |].
  destruct (String.eqb_spec name "..") as [-> | _]; [discriminate Hdot |].
  reflexivity.
Qed.

Lemma split_joinWith_last (xs : list string) (name : string) :
  includes name "/" = false ->
  exists l, split (joinWith "/" (xs ++ [name])) "/" = l ++ [name].
Proof.
  intros Hno. induction xs as [| x xs (l & IH)].
  - exists []. cbn [app joinWith]. now apply split_no_separator.
  - cbn [app joinWith]. destruct (xs ++ [name]) as [| y ys] eqn:Hys; [now destruct xs |].
    rewrite append_cons, append_nil_l, split_app_sep, IH.
    exists (split x "/" ++ l). now rewrite app_assoc.
Qed.

Lemma basename_last (s name : string) (l : list string) :
  name <> "" -> split s "/" = l ++ [name] -> basename s = name.
Proof.
  intros Hne Hs. unfold basename. rewrite Hs, List.filter_app, rev_app_distr.
  cbn [List.filter]. unfold nonEmpty.
  destruct (String.eqb_spec name "") as [-> | _]; [congruence | reflexivity].
Qed.

Lemma normalize_basename (joined name : string) (segs : list string) :
  name <> "" -> includes name "/" = false -> startsWith name "." = false ->
  joined <> "" -> endsWithSlash joined = false ->
  split joined "/" = segs ++ [name] ->
  basename (normalize joined) = name.
Proof.
  intros Hne Hno Hdot Hjoined Hend Hsegs. unfold normalize.
  destruct (String.eqb_spec joined "") as [-> | _]; [congruence |].
  cbv zeta. rewrite Hend, Hsegs.
  destruct (resolveSegments_app (negb (startsWith joined "/")) segs []) as [stack Hstack].
  rewrite Hstack, resolveSegments_name by assumption.
  destruct (split_joinWith_last (List.rev stack) name Hno) as [l Hl].
  set (body := joinWith "/" (List.rev stack ++ [name])) in *.
  assert (Hbody : body <> "").
  { intros Hb. rewrite Hb in Hl. cbn [split] in Hl.
    destruct l as [| ? [| ? ?]]; try discriminate. injection Hl as Hl. congruence. }
  destruct (String.eqb_spec body "") as [Hb | _]; [contradiction |].
  destruct (startsWith joined "/").
  - apply (basename_last _ _ ("" :: l) Hne). cbn [split]. now rewrite Ascii.eqb_refl, Hl.
  - now apply (basename_last _ _ l).
Qed.

(** [path.join(dir, name)] ends with [name] when [name] is the name of an
    entry that is not hidden. *)
Lemma basename_join (dir name : string) :
  name <> "" -> includes name "/" = false -> startsWith name "." = false ->
  basename (join [dir; name]) = name.
Proof.
  intros Hne Hno Hdot. unfold join. cbn [List.filter nonEmpty]. unfold nonEmpty.
  destruct (String.eqb_spec name "") as [-> | _]; [congruence |].
  destruct (String.eqb_spec dir "") as [-> | Hdir]; cbn [negb joinWith]; cbv zeta.
  - destruct (String.eqb_spec name "") as [-> | _]; [congruence |].
    apply (normalize_basename name name []); try assumption.
    + rewrite <- (append_nil_l name). now apply endsWithSlash_name.
    + now apply split_no_separator.
  - rewrite append_cons, append_nil_l.
    destruct (String.eqb_spec (String.append dir (String "/" name)) "") as [He | _].
    { destruct dir; [congruence | discriminate He]. }
    apply (normalize_basename _ name (split dir "/")); try assumption.
    + destruct dir; [congruence | discriminate].
    + change (String "/" name) with (String.append "/" name).
      rewrite <- append_assoc. now apply endsWithSlash_name.
    + rewrite split_app_sep, (split_no_separator name) by assumption. reflexivity.
Qed.

End PathNames.

Section Walk.
Import NodePath DirectoryWalk.

(** Reasoning on an entry from its parts, the entries of a directory
    included. *)
Lemma Dirent_nested_ind (P : Dirent -> Prop) :
  (forall name, P (File name)) ->
  (forall name entries, Forall P entries -> P (Directory name (Some entries))) ->
  (forall name, P (Directory name None)) ->
  (forall name, P (Other name)) ->
  forall entry, P entry.
Proof.
  intros Hfile Hdir Hnone Hother.
  fix IH 1. intros [name | name [entries |] | name].
  - apply Hfile.
  - apply Hdir. induction entries as [| e entries IHentries]; constructor;
      [apply IH | exact IHentries].
  - apply Hnone.
  - apply Hother.
Qed.

Lemma visitEntry_names (entry : Dirent) :
  forall dir path,
    properEntry entry = true -> path ∈ visitEntry dir entry ->
    endsWith (basename path) ".jsonl" = true /\ startsWith (basename path) "." = false.
Proof.
  induction entry as [name | name entries IH | name | name] using Dirent_nested_ind;
    intros dir path Hproper; cbn [visitEntry]; cbn [properEntry] in Hproper.
  - destruct (startsWith name ".") eqn:Hdot; [intros H; now apply elem_of_nil in H |].
    destruct (endsWith name ".jsonl") eqn:Hext; [| intros H; now apply elem_of_nil in H].
    intros H. apply list_elem_of_singleton in H. subst path.
    apply andb_prop in Hproper as [Hne Hno]. apply negb_true_iff in Hne, Hno.
    apply String.eqb_neq in Hne. rewrite basename_join by assumption. now split.
  - destruct (startsWith name "."); [intros H; now apply elem_of_nil in H |].
    apply andb_prop in Hproper as [_ Hall]. rewrite forallb_forall in Hall.
    intros H. apply list_elem_of_In, in_flat_map in H as (e & He & Hpath).
    rewrite Forall_forall in IH.
    apply list_elem_of_In in He as He'.
    apply (IH e He' (join [dir; name]) path (Hall e He)).
    now apply list_elem_of_In.
  - destruct (startsWith name "."); intros H; now apply elem_of_nil in H.
  - intros H. now apply elem_of_nil in H.
Qed.

Lemma visitEntry_reached (entry : Dirent) :
  forall dir listing path,
    In entry listing -> path ∈ visitEntry dir entry -> reached dir listing path.
Proof.
  induction entry as [name | name below IH | name | name] using Dirent_nested_ind;
    intros dir listing path Hin; cbn [visitEntry].
  - destruct (startsWith name ".") eqn:Hdot; [intros H; now apply elem_of_nil in H |].
    destruct (endsWith name ".jsonl") eqn:Hext; [| intros H; now apply elem_of_nil in H].
    intros H. apply list_elem_of_singleton in H. subst path.
    now apply reached_file.
  - destruct (startsWith name ".") eqn:Hdot; [intros H; now apply elem_of_nil in H |].
    intros H. apply list_elem_of_In, in_flat_map in H as (e & He & Hpath).
    rewrite Forall_forall in IH.
    apply list_elem_of_In in He as He'.
    apply (reached_below dir listing name below path Hin Hdot).
    apply (IH e He' (join [dir; name]) below path He).
    now apply list_elem_of_In.
  - destruct (startsWith name "."); intros H; now apply elem_of_nil in H.
  - intros H. now apply elem_of_nil in H.
Qed.

Lemma reached_visited (dir : string) (listing : list Dirent) (path : string) :
  reached dir listing path -> path ∈ flat_map (visitEntry dir) listing.
Proof.
  induction 1 as [dir listing name Hin Hdot Hext
                 | dir listing name below path Hin Hdot _ IH];
    apply list_elem_of_In, in_flat_map.
  - exists (File name). split; [exact Hin |]. cbn [visitEntry]. rewrite Hdot, Hext.
    now left.
  - exists (Directory name (Some below)). split; [exact Hin |]. cbn [visitEntry].
    rewrite Hdot. now apply list_elem_of_In.
Qed.

(** X7: every path [findJsonlFiles] returns ends with the name of a file that
    ends with [.jsonl] and does not begin with a dot, whatever directory
    the walk starts from, as long as the names in the directories are
    names a file system gives.  A path is returned exactly when the walk
    reaches it: through directories that could be read and whose names
    do not begin with a dot, down to a file whose name does not begin
    with a dot and ends with [.jsonl]; so nothing is returned from a
    hidden directory, from a directory that cannot be read, or for an
    entry that is neither a file nor a directory. *)
Theorem findJsonlFiles_returns_visible_jsonl_files
    (dir : string) (entries : option (list Dirent)) (path : string) :
  (properListing entries = true ->
   path ∈ findJsonlFiles dir entries ->
   endsWith (basename path) ".jsonl" = true /\ startsWith (basename path) "." = false)
  /\ (path ∈ findJsonlFiles dir entries
      <-> exists listing, entries = Some listing /\ reached dir listing path).
Proof.
  split.
  - destruct entries as [entries |]; cbn [properListing findJsonlFiles];
      [| intros _ H; now apply elem_of_nil in H].
    intros Hall H. rewrite forallb_forall in Hall.
    apply list_elem_of_In, in_flat_map in H as (e & He & Hpath).
    apply (visitEntry_names e dir path (Hall e He)). now apply list_elem_of_In.
  - destruct entries as [entries |]; cbn [findJsonlFiles]; split.
    + intros H. exists entries. split; [reflexivity |].
      apply list_elem_of_In, in_flat_map in H as (e & He & Hpath).
      apply (visitEntry_reached e dir entries path He). now apply list_elem_of_In.
    + intros (listing & [= <-] & H). now apply reached_visited.
    + intros H. now apply elem_of_nil in H.
    + intros (listing & Hnone & _). discriminate Hnone.
Qed.

Example findJsonlFiles_sample :
  findJsonlFiles "/home/u/.claude/projects" MoreSamples.logsDirectory
  = [ "/home/u/.claude/projects/a.jsonl"; "/home/u/.claude/projects/proj/b.jsonl" ].
Proof. vm_compute. reflexivity. Qed.

Lemma findJsonlFiles_returns_visible_jsonl_files_witness :
  (endsWith (basename "/home/u/.claude/projects/proj/b.jsonl") ".jsonl" = true
   /\ startsWith (basename "/home/u/.claude/projects/proj/b.jsonl") "." = false)
  /\ exists listing,
       MoreSamples.logsDirectory = Some listing
       /\ reached "/home/u/.claude/projects" listing "/home/u/.claude/projects/proj/b.jsonl".
Proof.
  split.
  - apply (proj1 (findJsonlFiles_returns_visible_jsonl_files "/home/u/.claude/projects"
                    MoreSamples.logsDirectory "/home/u/.claude/projects/proj/b.jsonl")).
    + vm_compute. reflexivity.
    + apply list_elem_of_In. vm_compute. right. left. reflexivity.
  - apply (proj1 (proj2 (findJsonlFiles_returns_visible_jsonl_files
                           "/home/u/.claude/projects" MoreSamples.logsDirectory
                           "/home/u/.claude/projects/proj/b.jsonl"))).
    apply list_elem_of_In. vm_compute. right. left. reflexivity.
Defined.

End Walk.

(** ** Scan passes over files that stay, change or go *)

(** *** A scanner seen through its step, on any two states of the disk *)
Section Passes.
Import Incremental ScanPasses.
Context {S E : Type}.
Variable step : string -> option FileData -> option S -> result (list E * option S).

(** Whatever a step returns, the state it leaves for the path serves the
    same entries without parsing as long as [statSync] gives the same
    answer. *)
Hypothesis step_settles :
  forall q f f' a e stored,
    option_map statOf f = option_map statOf f' ->
    step q f a = Ok (e, stored) ->
    step q f' (keep a stored) = Ok (e, None).

Lemma settled_stays (disk : Disk) (files : list string) (all all' : list E)
    (st st' : gmap string S) (q : string) (e : list E) :
  step q (fileAt disk !! q) (st !! q) = Ok (e, None) ->
  visitAll step disk files all st = Ok (all', st') ->
  st' !! q = st !! q.
Proof.
  revert all st. induction files as [| q' files IH]; intros all st Hq; cbn [visitAll].
  - now intros [= _ <-].
  - unfold visit.
    destruct (step q' (fileAt disk !! q') (st !! q')) as [[e' stored] |] eqn:Hs;
      cbn [bind]; [| discriminate].
    intros Hrest.
    assert (Hsame : remember st q' stored !! q = st !! q).
    { rewrite lookup_remember. destruct (decide (q' = q)) as [-> |]; [| reflexivity].
      rewrite Hq in Hs. now injection Hs as <- <-. }
    rewrite <- Hsame. eapply IH; [| exact Hrest]. now rewrite Hsame.
Qed.

Variables disk1 disk2 : Disk.
Hypothesis stats :
  forall q, option_map statOf (fileAt disk1 !! q) = option_map statOf (fileAt disk2 !! q).

(** A pass over [disk1], then the same files again on [disk2] from a cache
    that holds what the first pass left for them: the same entries, and
    nothing is stored. *)
Lemma repeat_visitAll (files : list string) (all all1 : list E) (st st1 : gmap string S) :
  visitAll step disk1 files all st = Ok (all1, st1) ->
  exists es,
    all1 = all ++ es
    /\ forall st' all',
         (forall q, q ∈ files -> st' !! q = st1 !! q) ->
         visitAll step disk2 files all' st' = Ok (all' ++ es, st').
Proof.
  revert all st. induction files as [| q files IH]; intros all st; cbn [visitAll].
  - intros [= <- <-]. exists []. split; [now rewrite app_nil_r |].
    intros st' all' _. now rewrite app_nil_r.
  - unfold visit at 1.
    destruct (step q (fileAt disk1 !! q) (st !! q)) as [[e stored] |] eqn:Hs;
      cbn [bind]; [| discriminate].
    intros Hrest. destruct (IH _ _ Hrest) as (es & -> & Hes).
    exists (e ++ es). split; [now rewrite app_assoc |].
    intros st' all' Hst'.
    assert (Hkept : remember st q stored !! q = keep (st !! q) stored).
    { rewrite lookup_remember. now destruct (decide (q = q)). }
    assert (Hq : st1 !! q = keep (st !! q) stored).
    { rewrite <- Hkept. eapply settled_stays; [| exact Hrest].
      rewrite Hkept. eapply step_settles; [reflexivity | exact Hs]. }
    unfold visit. rewrite (Hst' q) by apply list_elem_of_here. rewrite Hq.
    rewrite (step_settles _ _ _ _ _ _ (stats q) Hs). cbn [bind remember].
    rewrite app_assoc. apply Hes. intros q' Hq'. apply Hst'. now apply list_elem_of_further.
Qed.

(** A pass from a cache that answers at every path as no cache would. *)
Lemma visitAll_gather (disk : Disk) (files : list string) (all : list E) (st : gmap string S) :
  (forall q, (do (e, _) <- step q (fileAt disk !! q) (st !! q); Ok e) = fromScratch step disk q) ->
  (do (e, _) <- visitAll step disk files all st; Ok e)
  = do es <- gather (map (fromScratch step disk) files); Ok (all ++ es).
Proof.
  revert all st. induction files as [| q files IH]; intros all st Hst; cbn [visitAll map gather bind].
  - now rewrite app_nil_r.
  - rewrite <- (Hst q). unfold visit.
    destruct (step q (fileAt disk !! q) (st !! q)) as [[e stored] |] eqn:Hs;
      cbn [bind]; [| reflexivity].
    rewrite IH.
    + destruct (gather (map (fromScratch step disk) files)) as [es |]; cbn [bind]; [| reflexivity].
      now rewrite app_assoc.
    + intros q'. rewrite lookup_remember. destruct (decide (q = q')) as [<- |]; [| apply Hst].
      rewrite (step_settles _ _ _ _ _ _ eq_refl Hs). cbn [bind].
      rewrite <- (Hst q), Hs. reflexivity.
Qed.

End Passes.

(** *** What a pass leaves in the cache *)
Section CacheAfterPass.
Import Incremental.
Context {S E : Type}.
Variable step : string -> option FileData -> option S -> result (list E * option S).
Variable fits : FileData -> S -> Prop.

Hypothesis step_fits :
  forall q f a e stored c,
    step q (Some f) a = Ok (e, stored) -> 0 < fileSize f ->
    keep a stored = Some c -> fits f c.

Variable disk : Disk.

Lemma visitAll_other (files : list string) (all all' : list E) (st st' : gmap string S)
    (q : string) :
  q ∉ files -> visitAll step disk files all st = Ok (all', st') -> st' !! q = st !! q.
Proof.
  revert all st. induction files as [| q' files IH]; intros all st Hq; cbn [visitAll].
  - now intros [= _ <-].
  - unfold visit.
    destruct (step q' (fileAt disk !! q') (st !! q')) as [[e stored] |]; cbn [bind];
      [| discriminate].
    intros Hrest. apply not_elem_of_cons in Hq as [Hne Hq].
    rewrite (IH _ _ Hq Hrest), lookup_remember.
    destruct (decide (q' = q)); [congruence | reflexivity].
Qed.

Lemma visitAll_fits (files : list string) (all all' : list E) (st st' : gmap string S)
    (q : string) (f : FileData) (c : S) :
  visitAll step disk files all st = Ok (all', st') ->
  q ∈ files -> st' !! q = Some c -> fileAt disk !! q = Some f -> 0 < fileSize f ->
  fits f c.
Proof.
  revert all st. induction files as [| q' files IH]; intros all st; cbn [visitAll].
  - intros _ Hq. now apply elem_of_nil in Hq.
  - unfold visit.
    destruct (step q' (fileAt disk !! q') (st !! q')) as [[e stored] |] eqn:Hs; cbn [bind];
      [| discriminate].
    intros Hrest Hq Hc Hf Hpos.
    destruct (decide (q ∈ files)) as [Hin | Hout]; [now apply (IH _ _ Hrest) |].
    apply elem_of_cons in Hq as [-> | Hq]; [| contradiction].
    rewrite (visitAll_other _ _ _ _ _ _ Hout Hrest), lookup_remember in Hc.
    destruct (decide (q' = q')); [| congruence].
    rewrite Hf in Hs. eapply step_fits; eauto.
Qed.

End CacheAfterPass.

(** *** A file that was rewritten between two passes *)
Section RewrittenFile.
Import Incremental ScanPasses.
Context {S E : Type}.
Variable step : string -> option FileData -> option S -> result (list E * option S).

Hypothesis step_hit :
  forall q f e c, step q f None = Ok (e, Some c) -> step q f (Some c) = Ok (e, None).

Variable disk : Disk.
Variable p : string.
Variables F1 F2 : FileData.

(** The state cached for the first version of the file makes the step on
    the second version do as a step without a cache. *)
Hypothesis read_again :
  forall e c, step p (Some F1) None = Ok (e, Some c) -> alike step eq p (Some F2) (Some c).

Variable prune : gmap string S -> gmap string S.
Hypothesis prune_lookup : forall st q, prune st !! q = None \/ prune st !! q = st !! q.

Lemma related_after_rewrite (st1 : gmap string S) :
  coherent step (writeFile disk p F1) st1 ->
  related step eq (writeFile disk p F2) (prune st1) ∅.
Proof.
  intros Hc q. left. split; [apply lookup_empty |].
  destruct (prune_lookup st1 q) as [-> | ->]; [now apply alike_from_nothing |].
  destruct (st1 !! q) as [c |] eqn:Hq; [| now apply alike_from_nothing].
  destruct (Hc _ _ Hq) as [e He].
  destruct (decide (q = p)) as [-> | Hne].
  - rewrite !fileAt_writeFile in *. eapply read_again. exact He.
  - rewrite fileAt_other in * by assumption.
    eapply alike_from_own_cache; eauto.
Qed.

Lemma rewritten_visitAll (files : list string) (all1 : list E) (st1 : gmap string S) :
  visitAll step (writeFile disk p F1) files [] ∅ = Ok (all1, st1) ->
  (do (e2, _) <- visitAll step (writeFile disk p F2) files [] (prune st1); Ok e2)
  = (do (e, _) <- visitAll step (writeFile disk p F2) files [] ∅; Ok e).
Proof.
  intros H1. apply agree_eq.
  apply related_visitAll; [intros a b c d -> ->; reflexivity | | reflexivity].
  apply related_after_rewrite.
  eapply coherent_visitAll; [exact step_hit | | exact H1].
  intros q c Hq. rewrite lookup_empty in Hq. discriminate.
Qed.

End RewrittenFile.

Section Touched.
Import Incremental.

Lemma elem_of_touchedAfter (files : list string) (touched : gset string) (q : string) :
  q ∈ touchedAfter files touched <-> q ∈ files \/ q ∈ touched.
Proof.
  unfold touchedAfter. revert touched.
  induction files as [| q' files IH]; intros touched; cbn [fold_left].
  - rewrite elem_of_nil. tauto.
  - rewrite IH, elem_of_cons, elem_of_union, elem_of_singleton. tauto.
Qed.

Context {S : Type}.

Lemma lookup_touched (files : list string) (m : gmap string S) (q : string) :
  q ∈ files ->
  filter (fun kv : string * S => bool_decide (fst kv ∈ touchedAfter files ∅)) m !! q = m !! q.
Proof.
  intros Hq. destruct (m !! q) as [c |] eqn:Hm.
  - apply map_lookup_filter_Some. split; [exact Hm |].
    apply bool_decide_spec. apply elem_of_touchedAfter. now left.
  - apply map_lookup_filter_None. left. exact Hm.
Qed.

Lemma lookup_untouched (files : list string) (m : gmap string S) (q : string) (c : S) :
  filter (fun kv : string * S => bool_decide (fst kv ∈ touchedAfter files ∅)) m !! q = Some c ->
  q ∈ files /\ m !! q = Some c.
Proof.
  intros H. apply map_lookup_filter_Some in H as [Hm Hq].
  apply bool_decide_spec in Hq. apply elem_of_touchedAfter in Hq as [Hq | Hq].
  - now split.
  - now apply elem_of_empty in Hq.
Qed.

Lemma pruned_twice (files : list string) (m : gmap string S) :
  filter (fun kv : string * S => bool_decide (fst kv ∈ touchedAfter files ∅))
    (filter (fun kv : string * S => bool_decide (fst kv ∈ touchedAfter files ∅)) m)
  = filter (fun kv : string * S => bool_decide (fst kv ∈ touchedAfter files ∅)) m.
Proof.
  apply map_eq. intros q.
  destruct (filter _ m !! q) as [c |] eqn:Hf.
  - apply map_lookup_filter_Some. split; [exact Hf |].
    now apply map_lookup_filter_Some in Hf as [_ Hq].
  - apply map_lookup_filter_None. now left.
Qed.

End Touched.

Section SameFiles.
Import Incremental ScanPasses.

Lemma discovered_sameStats (disk1 disk2 : Disk) (roots : list string) :
  sameStats disk1 disk2 -> discovered disk1 roots = discovered disk2 roots.
Proof.
  intros (Hdir & Hls & _). unfold discovered.
  induction roots as [| r roots IH]; [reflexivity |].
  cbn [List.filter]. rewrite <- Hdir.
  destruct (dirExists disk1 r); [| exact IH].
  cbn [flat_map]. now rewrite IH, Hls.
Qed.

End SameFiles.

(** *** The two scanners *)

Section ClaudePasses.
Import ClaudeLogScanner Incremental ScanPasses.
Variable rt : Runtime.

Lemma claudeStep_settles (q : string) (f f' : option FileData) (a : option FileScanState)
    (e : list ClaudeUsageEntry) (stored : option FileScanState) :
  option_map statOf f = option_map statOf f' ->
  claudeStep rt q f a = Ok (e, stored) ->
  claudeStep rt q f' (keep a stored) = Ok (e, None).
Proof.
  destruct f as [f |], f' as [f' |]; cbn [option_map]; try discriminate.
  - intros [= Hsize Hm] H. unfold claudeStep in *. cbv zeta in *. rewrite <- Hsize, <- Hm.
    follow H; injection H as <- <-; cbn [keep lastSize lastMtimeMs entries]; recall;
      rewrite ?Z.eqb_refl; reflexivity.
  - intros _ [= <- <-]. reflexivity.
Qed.

Lemma claude_scan_repeats
    (envVal : option string) (home : string) (disk1 disk2 : Disk)
    (st st1 : gmap string FileScanState) (e1 : list ClaudeUsageEntry) :
  sameStats disk1 disk2 ->
  scan rt envVal home disk1 st = Ok (e1, st1) ->
  scan rt envVal home disk2 st1 = Ok (e1, st1).
Proof.
  intros Hsame. rewrite !scan_visitAll.
  rewrite <- (discovered_sameStats disk1 disk2 _ Hsame).
  set (files := discovered disk1 (getProjectRoots envVal home)).
  destruct (visitAll (claudeStep rt) disk1 files [] st) as [[all stv] |] eqn:Hv;
    cbn [bind]; [| discriminate].
  intros [= <- <-].
  destruct (repeat_visitAll (claudeStep rt) claudeStep_settles disk1 disk2
              (proj2 (proj2 Hsame)) files [] all st stv Hv) as (es & -> & Hes).
  rewrite (Hes _ []) by (intros q Hq; now apply lookup_touched).
  cbn [bind app]. now rewrite pruned_twice.
Qed.

Lemma claude_read_again (p : string) (F1 F2 : FileData) (e : list ClaudeUsageEntry)
    (c : FileScanState) :
  rewritten F1 F2 ->
  claudeStep rt p (Some F1) None = Ok (e, Some c) ->
  alike (claudeStep rt) eq p (Some F2) (Some c).
Proof.
  intros Hrw H. unfold claudeStep in H. cbv zeta in H.
  follow H. injection H as <- <-.
  unfold alike, settled, claudeStep. cbv zeta. cbn [lastSize lastMtimeMs lastOffset entries].
  destruct (fileSize F2 <=? 0) eqn:Hempty.
  - split; [reflexivity |]. exists [], []. cbn [keep]. auto.
  - assert (Hmiss : ((fileSize F1 =? fileSize F2) && (mtimeMs F1 =? mtimeMs F2)) = false).
    { destruct Hrw as [Hlt | [Heq Hm]].
      - destruct (Z.eqb_spec (fileSize F1) (fileSize F2)); [lia | reflexivity].
      - destruct (Z.eqb_spec (mtimeMs F1) (mtimeMs F2)); [congruence |]. apply andb_false_r. }
    assert (Hgrow : (fileSize F1 <? fileSize F2) = false).
    { apply Z.ltb_ge. destruct Hrw as [Hlt | [Heq _]]; lia. }
    rewrite Hmiss, Hgrow. cbn [andb].
    destruct (if fileSize F2 - 0 <=? 0 then _ else _) as [es |]; cbn [bind]; [| exact I].
    split; [reflexivity |]. exists es, es. cbn [keep lastSize lastMtimeMs entries].
    rewrite !Z.eqb_refl. auto.
Qed.

(** The message-oriented scanner after a file was rewritten. *)
Lemma claude_rewritten
    (envVal : option string) (home : string) (disk : Disk) (p : string) (F1 F2 : FileData)
    (st1 : gmap string FileScanState) (e1 : list ClaudeUsageEntry) :
  rewritten F1 F2 ->
  scan rt envVal home (writeFile disk p F1) ∅ = Ok (e1, st1) ->
  (do (e, _) <- scan rt envVal home (writeFile disk p F2) st1; Ok e)
  = scanOnce (scan rt envVal home) ∅ (writeFile disk p F2).
Proof.
  intros Hrw. unfold scanOnce. rewrite !scan_visitAll.
  change (discovered (writeFile disk p _) ?r) with (discovered disk r).
  set (files := discovered disk (getProjectRoots envVal home)).
  destruct (visitAll (claudeStep rt) (writeFile disk p F1) files [] ∅) as [[all stv] |] eqn:Hv;
    cbn [bind]; [| discriminate].
  intros [= <- <-].
  pose proof (rewritten_visitAll (claudeStep rt) (claudeStep_hit rt) disk p F1 F2
                (fun e c => claude_read_again p F1 F2 e c Hrw)
                _ (lookup_pruned (touchedAfter files ∅)) files all stv Hv) as H.
  destruct (visitAll (claudeStep rt) (writeFile disk p F2) files [] (filter _ stv))
    as [[all2 st2] |];
    destruct (visitAll (claudeStep rt) (writeFile disk p F2) files [] ∅) as [[all0 st0] |];
    cbn [bind] in *; congruence.
Qed.

Lemma claude_fromScratch (disk : Disk) (q : string) :
  fromScratch (claudeStep rt) disk q = parseFile rt disk q 0.
Proof.
  unfold fromScratch, claudeStep, parseFile. cbv zeta.
  destruct (fileAt disk !! q) as [f |]; [| reflexivity].
  rewrite Z.sub_0_r. destruct (fileSize f <=? 0); [reflexivity |].
  destruct (parseContent rt (readFrom f 0)); reflexivity.
Qed.

(** The first pass of a new message-oriented scanner. *)
Lemma claude_first_pass
    (envVal : option string) (home : string) (disk : Disk) :
  scanOnce (scan rt envVal home) ∅ disk
  = gather (map (fun q => parseFile rt disk q 0)
              (discovered disk (getProjectRoots envVal home))).
Proof.
  unfold scanOnce. rewrite scan_visitAll.
  set (files := discovered disk (getProjectRoots envVal home)).
  pose proof (visitAll_gather (claudeStep rt) claudeStep_settles disk files [] ∅) as H.
  rewrite <- (map_ext _ _ (claude_fromScratch disk)).
  destruct (visitAll (claudeStep rt) disk files [] ∅) as [[all stv] |]; cbn [bind] in *;
    (rewrite H; [| intros q; now rewrite lookup_empty]);
    destruct (gather (map (fromScratch (claudeStep rt) disk) files)); reflexivity.
Qed.

Lemma claudeStep_fits (q : string) (f : FileData) (a : option FileScanState)
    (e : list ClaudeUsageEntry) (stored : option FileScanState) (c : FileScanState) :
  claudeStep rt q (Some f) a = Ok (e, stored) -> 0 < fileSize f ->
  keep a stored = Some c ->
  lastSize c = fileSize f /\ lastMtimeMs c = mtimeMs f.
Proof.
  intros H Hpos. unfold claudeStep in H. cbv zeta in H.
  follow H; injection H as <- <-; cbn [keep]; intros Hc;
    try (apply Z.leb_le in E; lia);
    injection Hc as Hc; subst c; cbn [lastSize lastMtimeMs]; try (split; reflexivity).
  match goal with
  | Ht : (_ =? _) && (_ =? _) = true |- _ =>
      apply andb_prop in Ht as [Hs Hm]; apply Z.eqb_eq in Hs, Hm; now split
  end.
Qed.

(** The cache of the message-oriented scanner after a pass. *)
Lemma claude_cache_fits
    (envVal : option string) (home : string) (disk : Disk)
    (st st1 : gmap string FileScanState) (e1 : list ClaudeUsageEntry)
    (q : string) (c : FileScanState) :
  scan rt envVal home disk st = Ok (e1, st1) ->
  st1 !! q = Some c ->
  q ∈ discovered disk (getProjectRoots envVal home)
  /\ forall f, fileAt disk !! q = Some f -> 0 < fileSize f ->
       lastSize c = fileSize f /\ lastMtimeMs c = mtimeMs f.
Proof.
  rewrite scan_visitAll.
  set (files := discovered disk (getProjectRoots envVal home)).
  destruct (visitAll (claudeStep rt) disk files [] st) as [[all stv] |] eqn:Hv;
    cbn [bind]; [| discriminate].
  intros [= <- <-] Hc. apply lookup_untouched in Hc as [Hq Hc].
  split; [exact Hq |]. intros f Hf Hpos.
  exact (visitAll_fits (claudeStep rt) _ claudeStep_fits disk files [] all st stv q f c
           Hv Hq Hc Hf Hpos).
Qed.

End ClaudePasses.

Section CodexPasses.
Import CodexLogScanner Incremental ScanPasses.
Variable rt : Runtime.

Lemma codexStep_settles (q : string) (f f' : option FileData) (a : option FileScanState)
    (e : list CodexUsageEntry) (stored : option FileScanState) :
  option_map statOf f = option_map statOf f' ->
  codexStep rt q f a = Ok (e, stored) ->
  codexStep rt q f' (keep a stored) = Ok (e, None).
Proof.
  destruct f as [f |], f' as [f' |]; cbn [option_map]; try discriminate.
  - intros [= Hsize Hm] H. unfold codexStep in *. cbv zeta in *. rewrite <- Hsize, <- Hm.
    follow H; injection H as <- <-; cbn [keep lastSize lastMtimeMs entries]; recall;
      rewrite ?Z.eqb_refl; reflexivity.
  - intros _ [= <- <-]. reflexivity.
Qed.

Lemma codex_scan_repeats
    (envVal : option string) (home : string) (disk1 disk2 : Disk)
    (st st1 : gmap string FileScanState) (e1 : list CodexUsageEntry) :
  sameStats disk1 disk2 ->
  scan rt envVal home disk1 st = Ok (e1, st1) ->
  scan rt envVal home disk2 st1 = Ok (e1, st1).
Proof.
  intros Hsame. rewrite !codex_scan_visitAll.
  rewrite <- (discovered_sameStats disk1 disk2 _ Hsame).
  replace (getSessionRoots envVal home (dirExists disk2))
    with (getSessionRoots envVal home (dirExists disk1))
    by (unfold getSessionRoots; cbv zeta; now rewrite (proj1 Hsame)).
  set (files := discovered disk1 (getSessionRoots envVal home (dirExists disk1))).
  destruct (visitAll (codexStep rt) disk1 files [] st) as [[all stv] |] eqn:Hv;
    cbn [bind]; [| discriminate].
  intros [= <- <-].
  destruct (repeat_visitAll (codexStep rt) codexStep_settles disk1 disk2
              (proj2 (proj2 Hsame)) files [] all st stv Hv) as (es & -> & Hes).
  rewrite (Hes _ []) by (intros q Hq; now apply lookup_touched).
  cbn [bind app]. now rewrite pruned_twice.
Qed.

Lemma codex_read_again (p : string) (F1 F2 : FileData) (e : list CodexUsageEntry)
    (c : FileScanState) :
  rewritten F1 F2 ->
  codexStep rt p (Some F1) None = Ok (e, Some c) ->
  alike (codexStep rt) eq p (Some F2) (Some c).
Proof.
  intros Hrw H. unfold codexStep in H. cbv zeta in H.
  follow H. injection H as <- <-.
  unfold alike, settled, codexStep. cbv zeta. cbn [lastSize lastMtimeMs lastOffset entries].
  destruct (fileSize F2 <=? 0) eqn:Hempty.
  - split; [reflexivity |]. exists [], []. cbn [keep]. auto.
  - assert (Hmiss : ((fileSize F1 =? fileSize F2) && (mtimeMs F1 =? mtimeMs F2)) = false).
    { destruct Hrw as [Hlt | [Heq Hm]].
      - destruct (Z.eqb_spec (fileSize F1) (fileSize F2)); [lia | reflexivity].
      - destruct (Z.eqb_spec (mtimeMs F1) (mtimeMs F2)); [congruence |]. apply andb_false_r. }
    assert (Hgrow : (fileSize F1 <? fileSize F2) = false).
    { apply Z.ltb_ge. destruct Hrw as [Hlt | [Heq _]]; lia. }
    rewrite Hmiss, Hgrow. cbn [andb].
    destruct (if fileSize F2 - 0 <=? 0 then _ else _) as [r |]; cbn [bind]; [| exact I].
    split; [reflexivity |]. exists (r_entries r), (r_entries r).
    cbn [keep lastSize lastMtimeMs entries].
    rewrite !Z.eqb_refl. auto.
Qed.

(** The counter-oriented scanner after a file was rewritten. *)
Lemma codex_rewritten
    (envVal : option string) (home : string) (disk : Disk) (p : string) (F1 F2 : FileData)
    (st1 : gmap string FileScanState) (e1 : list CodexUsageEntry) :
  rewritten F1 F2 ->
  scan rt envVal home (writeFile disk p F1) ∅ = Ok (e1, st1) ->
  (do (e, _) <- scan rt envVal home (writeFile disk p F2) st1; Ok e)
  = scanOnce (scan rt envVal home) ∅ (writeFile disk p F2).
Proof.
  intros Hrw. unfold scanOnce. rewrite !codex_scan_visitAll.
  change (dirExists (writeFile disk p _)) with (dirExists disk).
  change (discovered (writeFile disk p _) ?r) with (discovered disk r).
  set (files := discovered disk (getSessionRoots envVal home (dirExists disk))).
  destruct (visitAll (codexStep rt) (writeFile disk p F1) files [] ∅) as [[all stv] |] eqn:Hv;
    cbn [bind]; [| discriminate].
  intros [= <- <-].
  pose proof (rewritten_visitAll (codexStep rt) (codexStep_hit rt) disk p F1 F2
                (fun e c => codex_read_again p F1 F2 e c Hrw)
                _ (lookup_pruned (touchedAfter files ∅)) files all stv Hv) as H.
  destruct (visitAll (codexStep rt) (writeFile disk p F2) files [] (filter _ stv))
    as [[all2 st2] |];
    destruct (visitAll (codexStep rt) (writeFile disk p F2) files [] ∅) as [[all0 st0] |];
    cbn [bind] in *; congruence.
Qed.

Lemma codex_fromScratch (disk : Disk) (q : string) :
  fromScratch (codexStep rt) disk q
  = do r <- parseFile rt disk q 0 None None; Ok (r_entries r).
Proof.
  unfold fromScratch, codexStep, parseFile. cbv zeta.
  destruct (fileAt disk !! q) as [f |]; [| reflexivity].
  rewrite Z.sub_0_r. destruct (fileSize f <=? 0); [reflexivity |].
  destruct (parseContent rt (readFrom f 0) None None); reflexivity.
Qed.

(** The first pass of a new counter-oriented scanner. *)
Lemma codex_first_pass
    (envVal : option string) (home : string) (disk : Disk) :
  scanOnce (scan rt envVal home) ∅ disk
  = gather (map (fun q => do r <- parseFile rt disk q 0 None None; Ok (r_entries r))
              (discovered disk (getSessionRoots envVal home (dirExists disk)))).
Proof.
  unfold scanOnce. rewrite codex_scan_visitAll.
  set (files := discovered disk (getSessionRoots envVal home (dirExists disk))).
  pose proof (visitAll_gather (codexStep rt) codexStep_settles disk files [] ∅) as H.
  rewrite <- (map_ext _ _ (codex_fromScratch disk)).
  destruct (visitAll (codexStep rt) disk files [] ∅) as [[all stv] |]; cbn [bind] in *;
    (rewrite H; [| intros q; now rewrite lookup_empty]);
    destruct (gather (map (fromScratch (codexStep rt) disk) files)); reflexivity.
Qed.

Lemma codexStep_fits (q : string) (f : FileData) (a : option FileScanState)
    (e : list CodexUsageEntry) (stored : option FileScanState) (c : FileScanState) :
  codexStep rt q (Some f) a = Ok (e, stored) -> 0 < fileSize f ->
  keep a stored = Some c ->
  lastSize c = fileSize f /\ lastMtimeMs c = mtimeMs f.
Proof.
  intros H Hpos. unfold codexStep in H. cbv zeta in H.
  follow H; injection H as <- <-; cbn [keep]; intros Hc;
    try (apply Z.leb_le in E; lia);
    injection Hc as Hc; subst c; cbn [lastSize lastMtimeMs]; try (split; reflexivity).
  match goal with
  | Ht : (_ =? _) && (_ =? _) = true |- _ =>
      apply andb_prop in Ht as [Hs Hm]; apply Z.eqb_eq in Hs, Hm; now split
  end.
Qed.

(** The cache of the counter-oriented scanner after a pass. *)
Lemma codex_cache_fits
    (envVal : option string) (home : string) (disk : Disk)
    (st st1 : gmap string FileScanState) (e1 : list CodexUsageEntry)
    (q : string) (c : FileScanState) :
  scan rt envVal home disk st = Ok (e1, st1) ->
  st1 !! q = Some c ->
  q ∈ discovered disk (getSessionRoots envVal home (dirExists disk))
  /\ forall f, fileAt disk !! q = Some f -> 0 < fileSize f ->
       lastSize c = fileSize f /\ lastMtimeMs c = mtimeMs f.
Proof.
  rewrite codex_scan_visitAll.
  set (files := discovered disk (getSessionRoots envVal home (dirExists disk))).
  destruct (visitAll (codexStep rt) disk files [] st) as [[all stv] |] eqn:Hv;
    cbn [bind]; [| discriminate].
  intros [= <- <-] Hc. apply lookup_untouched in Hc as [Hq Hc].
  split; [exact Hq |]. intros f Hf Hpos.
  exact (visitAll_fits (codexStep rt) _ codexStep_fits disk files [] all st stv q f c
           Hv Hq Hc Hf Hpos).
Qed.

End CodexPasses.

(** *** Both scanners *)

Section ScannerPasses.
Import Incremental ScanPasses SampleDisk MoreSamples.

(** X1: a pass of either scanner over files whose sizes and modification
    times are those the pass before found returns the entries of the pass
    before and leaves the cache as it is: no file is read, even when its
    bytes are not the same any more. *)
Theorem scan_trusts_size_and_mtime :
  (forall (rt : Runtime) (envVal : option string) (home : string) (disk1 disk2 : Disk)
          (st st1 : gmap string ClaudeLogScanner.FileScanState)
          (e1 : list ClaudeLogScanner.ClaudeUsageEntry),
      sameStats disk1 disk2 ->
      ClaudeLogScanner.scan rt envVal home disk1 st = Ok (e1, st1) ->
      ClaudeLogScanner.scan rt envVal home disk2 st1 = Ok (e1, st1))
  /\ (forall (rt : Runtime) (envVal : option string) (home : string) (disk1 disk2 : Disk)
             (st st1 : gmap string CodexLogScanner.FileScanState)
             (e1 : list CodexLogScanner.CodexUsageEntry),
         sameStats disk1 disk2 ->
         CodexLogScanner.scan rt envVal home disk1 st = Ok (e1, st1) ->
         CodexLogScanner.scan rt envVal home disk2 st1 = Ok (e1, st1)).
Proof.
  split.
  - intros rt envVal home disk1 disk2 st st1 e1 Hsame Hscan.
    now apply (claude_scan_repeats rt envVal home disk1 disk2 st).
  - intros rt envVal home disk1 disk2 st st1 e1 Hsame Hscan.
    now apply (codex_scan_repeats rt envVal home disk1 disk2 st).
Qed.

(** Two disks that differ in the bytes of one file only, the size and the
    modification time being the same. *)
Lemma sameStats_one_file (disk : Disk) (p : string) (F F' : FileData) :
  statOf F = statOf F' -> sameStats (writeFile disk p F) (writeFile disk p F').
Proof.
  intros Hstat. split; [reflexivity |]. split; [reflexivity |].
  intros path. unfold writeFile. cbn [fileAt]. rewrite !lookup_insert.
  destruct (decide (p = path)); [cbn [option_map]; now rewrite Hstat | reflexivity].
Defined.

(** X2: a file that got shorter, or kept its size and got another
    modification time, is read again from its first byte, with nothing
    carried over from the cache: after a first pass that returned, the
    second pass of either scanner returns what a new scanner returns, or
    throws as a new scanner does. *)
Theorem rewritten_file_is_read_again :
  (forall (rt : Runtime) (envVal : option string) (home : string) (disk : Disk)
          (p : string) (F1 F2 : FileData)
          (st1 : gmap string ClaudeLogScanner.FileScanState)
          (e1 : list ClaudeLogScanner.ClaudeUsageEntry),
      rewritten F1 F2 ->
      ClaudeLogScanner.scan rt envVal home (writeFile disk p F1) ∅ = Ok (e1, st1) ->
      (do (e, _) <- ClaudeLogScanner.scan rt envVal home (writeFile disk p F2) st1; Ok e)
      = scanOnce (ClaudeLogScanner.scan rt envVal home) ∅ (writeFile disk p F2))
  /\ (forall (rt : Runtime) (envVal : option string) (home : string) (disk : Disk)
             (p : string) (F1 F2 : FileData)
             (st1 : gmap string CodexLogScanner.FileScanState)
             (e1 : list CodexLogScanner.CodexUsageEntry),
         rewritten F1 F2 ->
         CodexLogScanner.scan rt envVal home (writeFile disk p F1) ∅ = Ok (e1, st1) ->
         (do (e, _) <- CodexLogScanner.scan rt envVal home (writeFile disk p F2) st1; Ok e)
         = scanOnce (CodexLogScanner.scan rt envVal home) ∅ (writeFile disk p F2)).
Proof.
  split.
  - intros rt envVal home disk p F1 F2 st1 e1 Hrw Hscan.
    now apply (claude_rewritten rt envVal home disk p F1 F2 st1 e1).
  - intros rt envVal home disk p F1 F2 st1 e1 Hrw Hscan.
    now apply (codex_rewritten rt envVal home disk p F1 F2 st1 e1).
Qed.

(** X3: the first pass of a new scanner returns, for each file found under
    the roots and in the order they are found, what [parseFile] returns
    for it from its first byte (for the counter-oriented scanner: with no
    model and no totals carried in); it throws when one of these calls
    throws.  A file found twice is returned twice. *)
Theorem first_pass_parses_each_file
    (rt : Runtime) (envVal : option string) (home : string) (disk : Disk) :
  scanOnce (ClaudeLogScanner.scan rt envVal home) ∅ disk
  = gather (map (fun q => ClaudeLogScanner.parseFile rt disk q 0)
              (discovered disk (ClaudeLogScanner.getProjectRoots envVal home)))
  /\ scanOnce (CodexLogScanner.scan rt envVal home) ∅ disk
     = gather (map (fun q => do r <- CodexLogScanner.parseFile rt disk q 0 None None;
                             Ok (CodexLogScanner.r_entries r))
                 (discovered disk
                    (CodexLogScanner.getSessionRoots envVal home (dirExists disk)))).
Proof.
  split.
  - apply claude_first_pass.
  - apply codex_first_pass.
Qed.

(** X4: after a pass of either scanner, whatever the cache held before, a
    state is cached only for a file the pass found under the roots; when
    that file is there and not empty, the state records its present size
    and modification time. *)
Theorem cache_after_a_pass :
  (forall (rt : Runtime) (envVal : option string) (home : string) (disk : Disk)
          (st st1 : gmap string ClaudeLogScanner.FileScanState)
          (e1 : list ClaudeLogScanner.ClaudeUsageEntry)
          (q : string) (c : ClaudeLogScanner.FileScanState),
      ClaudeLogScanner.scan rt envVal home disk st = Ok (e1, st1) ->
      st1 !! q = Some c ->
      q ∈ discovered disk (ClaudeLogScanner.getProjectRoots envVal home)
      /\ forall f, fileAt disk !! q = Some f -> 0 < fileSize f ->
           ClaudeLogScanner.lastSize c = fileSize f
           /\ ClaudeLogScanner.lastMtimeMs c = mtimeMs f)
  /\ (forall (rt : Runtime) (envVal : option string) (home : string) (disk : Disk)
             (st st1 : gmap string CodexLogScanner.FileScanState)
             (e1 : list CodexLogScanner.CodexUsageEntry)
             (q : string) (c : CodexLogScanner.FileScanState),
         CodexLogScanner.scan rt envVal home disk st = Ok (e1, st1) ->
         st1 !! q = Some c ->
         q ∈ discovered disk (CodexLogScanner.getSessionRoots envVal home (dirExists disk))
         /\ forall f, fileAt disk !! q = Some f -> 0 < fileSize f ->
              CodexLogScanner.lastSize c = fileSize f
              /\ CodexLogScanner.lastMtimeMs c = mtimeMs f).
Proof.
  split.
  - intros rt envVal home disk st st1 e1 q c Hscan Hc.
    now apply (claude_cache_fits rt envVal home disk st st1 e1).
  - intros rt envVal home disk st st1 e1 q c Hscan Hc.
    now apply (codex_cache_fits rt envVal home disk st st1 e1).
Qed.

End ScannerPasses.

Lemma scan_trusts_size_and_mtime_witness :
  let first :=
    MoreSamples.returned
      (ClaudeLogScanner.scan referenceRuntime None SampleDisk.home MoreSamples.claudeBefore ∅)
      ([], ∅) in
  ClaudeLogScanner.scan referenceRuntime None SampleDisk.home MoreSamples.claudeBefore ∅
    = Ok (fst first, snd first)
  /\ ClaudeLogScanner.scan referenceRuntime None SampleDisk.home MoreSamples.claudeAfter
       (snd first)
     = Ok (fst first, snd first).
Proof.
  intros first.
  assert (Hfirst : ClaudeLogScanner.scan referenceRuntime None SampleDisk.home
                     MoreSamples.claudeBefore ∅ = Ok (fst first, snd first))
    by (vm_compute; reflexivity).
  split; [exact Hfirst |].
  apply (proj1 scan_trusts_size_and_mtime referenceRuntime None SampleDisk.home
           MoreSamples.claudeBefore MoreSamples.claudeAfter ∅); [| exact Hfirst].
  apply sameStats_one_file. vm_compute. reflexivity.
Defined.

Lemma rewritten_file_is_read_again_witness :
  let first :=
    MoreSamples.returned
      (CodexLogScanner.scan referenceRuntime None SampleDisk.home
         (Incremental.writeFile SampleDisk.disk SampleDisk.codexLog MoreSamples.twoCounts) ∅)
      ([], ∅) in
  CodexLogScanner.scan referenceRuntime None SampleDisk.home
    (Incremental.writeFile SampleDisk.disk SampleDisk.codexLog MoreSamples.twoCounts) ∅
    = Ok (fst first, snd first)
  /\ (do (e, _) <- CodexLogScanner.scan referenceRuntime None SampleDisk.home
                     (Incremental.writeFile SampleDisk.disk SampleDisk.codexLog
                        MoreSamples.secondCount)
                     (snd first);
      Ok e)
     = Incremental.scanOnce (CodexLogScanner.scan referenceRuntime None SampleDisk.home) ∅
         (Incremental.writeFile SampleDisk.disk SampleDisk.codexLog MoreSamples.secondCount).
Proof.
  intros first.
  assert (Hfirst : CodexLogScanner.scan referenceRuntime None SampleDisk.home
                     (Incremental.writeFile SampleDisk.disk SampleDisk.codexLog
                        MoreSamples.twoCounts) ∅
                   = Ok (fst first, snd first))
    by (vm_compute; reflexivity).
  split; [exact Hfirst |].
  apply (proj2 rewritten_file_is_read_again referenceRuntime None SampleDisk.home
           SampleDisk.disk SampleDisk.codexLog MoreSamples.twoCounts MoreSamples.secondCount
           (snd first) (fst first)); [| exact Hfirst].
  left. vm_compute. reflexivity.
Defined.

Lemma cache_after_a_pass_witness :
  let first :=
    MoreSamples.returned
      (ClaudeLogScanner.scan referenceRuntime None SampleDisk.home MoreSamples.claudeBefore ∅)
      ([], ∅) in
  let c :=
    default (ClaudeLogScanner.mkState "" 0 0 0 []) (snd first !! SampleDisk.claudeLog) in
  snd first !! SampleDisk.claudeLog = Some c
  /\ SampleDisk.claudeLog
       ∈ Incremental.discovered MoreSamples.claudeBefore
           (ClaudeLogScanner.getProjectRoots None SampleDisk.home)
  /\ forall f, fileAt MoreSamples.claudeBefore !! SampleDisk.claudeLog = Some f ->
       0 < fileSize f ->
       ClaudeLogScanner.lastSize c = fileSize f
       /\ ClaudeLogScanner.lastMtimeMs c = mtimeMs f.
Proof.
  intros first c.
  assert (Hc : snd first !! SampleDisk.claudeLog = Some c) by (vm_compute; reflexivity).
  split; [exact Hc |].
  apply (proj1 cache_after_a_pass referenceRuntime None SampleDisk.home
           MoreSamples.claudeBefore ∅ (snd first) (fst first)); [| exact Hc].
  vm_compute. reflexivity.
Defined.

(** ** What the entries of a parsed range add up to *)

Section Totals.
Import ScanPasses.
Context {E : Type}.
Variable count : E -> Z.


End Totals.

Section Gathered.
Import ScanPasses.
Context {E : Type}.

Lemma gather_elem (calls : list (result (list E))) (es : list E) (e : E) :
  gather calls = Ok es -> e ∈ es -> exists l, Ok l ∈ calls /\ e ∈ l.
Proof.
  revert es. induction calls as [| call calls IH]; intros es; cbn [gather].
  - intros [= <-] He. now apply elem_of_nil in He.
  - destruct call as [l |]; cbn [bind]; [| discriminate].
    destruct (gather calls) as [es' |]; cbn [bind]; [| discriminate].
    intros [= <-] He. apply elem_of_app in He as [He | He].
    + exists l. split; [apply list_elem_of_here | exact He].
    + destruct (IH _ eq_refl He) as (l' & Hl' & He').
      exists l'. split; [now apply list_elem_of_further | exact He'].
Qed.

End Gathered.

Section CodexTotals.
Import CodexLogScanner CounterLine ScanPasses.
Variable rt : Runtime.





End CodexTotals.


Section ClaudeEntries.
Import ClaudeLogScanner MessageLine ScanPasses Incremental.
Variable rt : Runtime.

Lemma parseLine_sound (line : string) (o : lineOutcome) (e : ClaudeUsageEntry) :
  parseLine rt line = Ok o -> entryOf o = Some e -> soundEntry rt e.
Proof.
  unfold parseLine, soundEntry. intros H He.
  follow H; injection H as <-; try discriminate He; injection He as <-;
    cbn [inputTokens outputTokens cacheReadInputTokens cacheCreationInputTokens
         timestamp dayKey];
    (repeat split; try lia; try assumption).
Qed.

Lemma set_Forall (P : ClaudeUsageEntry -> Prop) (key : string) (e : ClaudeUsageEntry)
    (m : list (string * ClaudeUsageEntry)) :
  P e -> Forall P (OrderedMap.values m) -> Forall P (OrderedMap.values (OrderedMap.set key e m)).
Proof.
  intros He. unfold OrderedMap.values.
  induction m as [| [k v] m IH]; cbn [OrderedMap.set map].
  - intros _. now constructor.
  - intros Hm. apply Forall_cons in Hm as [Hv Hm].
    destruct (String.eqb k key); cbn [map snd]; constructor; auto.
Qed.

Lemma parseLines_sound (lines : list string) (entryByKey : list (string * ClaudeUsageEntry))
    (keylessEntries es : list ClaudeUsageEntry) :
  Forall (soundEntry rt) (OrderedMap.values entryByKey) ->
  Forall (soundEntry rt) keylessEntries ->
  parseLines rt lines entryByKey keylessEntries = Ok es ->
  Forall (soundEntry rt) es.
Proof.
  revert entryByKey keylessEntries.
  induction lines as [| line lines IH]; intros m kl Hm Hkl; cbn [parseLines].
  - intros [= <-]. apply Forall_app. now split.
  - destruct (parseLine rt line) as [o |] eqn:Hl; cbn [bind]; [| discriminate].
    pose proof (parseLine_sound line o) as Hs. rewrite Hl in Hs.
    destruct o as [| key e | e]; cbn [entryOf] in Hs; apply IH; auto.
    + apply set_Forall; auto.
    + apply Forall_app. split; [exact Hkl |]. constructor; auto.
Qed.

Lemma claudeStep_sound (q : string) (f : option FileData) (a : option FileScanState)
    (e : list ClaudeUsageEntry) (stored : option FileScanState) :
  (forall c, a = Some c -> Forall (soundEntry rt) (entries c)) ->
  claudeStep rt q f a = Ok (e, stored) ->
  Forall (soundEntry rt) e
  /\ forall c, stored = Some c -> Forall (soundEntry rt) (entries c).
Proof.
  intros Ha H. unfold claudeStep, parseContent in H. cbv zeta in H.
  assert (Hparse : forall (b : bool) text l,
             (if b then Ok [] else parseLines rt (split text "010") [] []) = Ok l ->
             Forall (soundEntry rt) l).
  { intros [|] text l; [intros [= <-]; constructor |].
    apply parseLines_sound; constructor. }
  follow H; injection H as <- <-;
    (split; [| intros c' Hc'; try discriminate Hc'; injection Hc' as <-; cbn [entries]]);
    repeat match goal with
           | |- Forall _ [] => constructor
           | |- Forall _ (_ ++ _) => apply Forall_app; split
           | |- Forall _ (entries _) => now apply Ha
           | Hp : _ = Ok ?l |- Forall _ ?l => exact (Hparse _ _ _ Hp)
           end.
Qed.

End ClaudeEntries.

Section SoundPasses.
Import Incremental.
Context {S E : Type}.
Variable step : string -> option FileData -> option S -> result (list E * option S).
Variable P : E -> Prop.
Variable cached : S -> list E.

Hypothesis step_sound :
  forall q f a e stored,
    (forall c, a = Some c -> Forall P (cached c)) ->
    step q f a = Ok (e, stored) ->
    Forall P e /\ forall c, stored = Some c -> Forall P (cached c).

Lemma visitAll_sound (disk : Disk) (files : list string) (all all' : list E)
    (st st' : gmap string S) :
  (forall q c, st !! q = Some c -> Forall P (cached c)) ->
  Forall P all ->
  visitAll step disk files all st = Ok (all', st') ->
  Forall P all' /\ forall q c, st' !! q = Some c -> Forall P (cached c).
Proof.
  revert all st. induction files as [| q files IH]; intros all st Hst Hall; cbn [visitAll].
  - intros [= <- <-]. now split.
  - unfold visit.
    destruct (step q (fileAt disk !! q) (st !! q)) as [[e stored] |] eqn:Hs; cbn [bind];
      [| discriminate].
    destruct (step_sound _ _ _ _ _ (Hst q) Hs) as [He Hstored].
    apply IH.
    + intros q' c. rewrite lookup_remember.
      destruct (decide (q = q')) as [<- |]; [| apply Hst].
      destruct stored as [c' |]; cbn [keep]; [| apply Hst].
      intros [= <-]. now apply Hstored.
    + apply Forall_app. now split.
Qed.

End SoundPasses.

Section ClaudeSoundPasses.
Import ClaudeLogScanner ScanPasses Incremental.
Variable rt : Runtime.

(** X5: every entry a pass of the message-oriented scanner returns is sound (no
    count is negative, some count is positive, the day key is the local
    day of the time stamp), and so is every entry it caches, provided the
    entries cached before were: this holds for every pass of a scanner
    that started with an empty cache. *)
Theorem claude_entries_are_sound
    (envVal : option string) (home : string) (disk : Disk)
    (st st1 : gmap string FileScanState) (es : list ClaudeUsageEntry) :
  (forall q c, st !! q = Some c -> Forall (soundEntry rt) (entries c)) ->
  scan rt envVal home disk st = Ok (es, st1) ->
  Forall (soundEntry rt) es
  /\ forall q c, st1 !! q = Some c -> Forall (soundEntry rt) (entries c).
Proof.
  intros Hst. rewrite scan_visitAll.
  destruct (visitAll (claudeStep rt) disk _ [] st) as [[all stv] |] eqn:Hv;
    cbn [bind]; [| discriminate].
  intros [= <- <-].
  destruct (visitAll_sound (claudeStep rt) (soundEntry rt) entries (claudeStep_sound rt)
              disk _ [] all st stv Hst (Forall_nil_2 _) Hv) as [Hall Hstv].
  split; [exact Hall |]. intros q c Hc.
  apply map_lookup_filter_Some in Hc as [Hc _]. eapply Hstv. exact Hc.
Qed.

End ClaudeSoundPasses.

Lemma claude_entries_are_sound_witness :
  let first :=
    MoreSamples.returned
      (ClaudeLogScanner.scan referenceRuntime None SampleDisk.home MoreSamples.claudeBefore ∅)
      ([], ∅) in
  ClaudeLogScanner.scan referenceRuntime None SampleDisk.home MoreSamples.claudeBefore ∅
    = Ok (fst first, snd first)
  /\ Forall (ScanPasses.soundEntry referenceRuntime) (fst first)
  /\ forall q c, snd first !! q = Some c ->
       Forall (ScanPasses.soundEntry referenceRuntime) (ClaudeLogScanner.entries c).
Proof.
  intros first.
  assert (Hfirst : ClaudeLogScanner.scan referenceRuntime None SampleDisk.home
                     MoreSamples.claudeBefore ∅ = Ok (fst first, snd first))
    by (vm_compute; reflexivity).
  split; [exact Hfirst |].
  apply (claude_entries_are_sound referenceRuntime None SampleDisk.home
           MoreSamples.claudeBefore ∅); [| exact Hfirst].
  intros q c Hc. rewrite lookup_empty in Hc. discriminate Hc.
Defined.

Section CodexEntries.
Import CodexLogScanner ScanPasses Incremental.
Variable rt : Runtime.





End CodexEntries.


Section PerTurnUsage.
Import CodexLogScanner CounterLine RangeReading.
Variable rt : Runtime.


End PerTurnUsage.


(** ** Which line of a message is kept *)

Section LastWins.
Import ClaudeLogScanner Incremental RangeReading.

(** The map [parseFile] would hold after the keyed contributions [l]. *)
Let held (l : list (string * ClaudeUsageEntry)) : list (string * ClaudeUsageEntry) :=
  flat_map (fun key => match lastFor key l with Some e => [(key, e)] | None => [] end)
           (firstKeys l).

Lemma lastFor_snoc (key k : string) (e : ClaudeUsageEntry)
    (l : list (string * ClaudeUsageEntry)) :
  lastFor key (l ++ [(k, e)]) = if String.eqb k key then Some e else lastFor key l.
Proof.
  induction l as [| [k' e'] l IH]; cbn [app lastFor].
  - reflexivity.
  - rewrite IH. destruct (String.eqb k key); [reflexivity |].
    destruct (lastFor key l); reflexivity.
Qed.

Lemma lastFor_present (key : string) (l : list (string * ClaudeUsageEntry)) :
  key ∈ map fst l -> exists e, lastFor key l = Some e.
Proof.
  induction l as [| [k e] l IH]; cbn [map fst lastFor].
  - intros H. now apply elem_of_nil in H.
  - rewrite elem_of_cons. intros [-> | Hin].
    + destruct (lastFor k l); [eauto |]. rewrite String.eqb_refl. eauto.
    + destruct (IH Hin) as [e' ->]. eauto.
Qed.

Lemma firstKeys_elem (l : list (string * ClaudeUsageEntry)) (x : string) :
  x ∈ firstKeys l <-> x ∈ map fst l.
Proof.
  induction l as [| [k e] l IH]; cbn [firstKeys map fst]; [reflexivity |].
  rewrite !elem_of_cons, list_elem_of_In, filter_In, <- list_elem_of_In, IH.
  rewrite negb_true_iff, String.eqb_neq.
  destruct (String.eqb_spec x k); tauto.
Qed.

Lemma filter_snoc_keys (k : string) (keys : list string) (x : string) :
  List.filter (fun k' => negb (String.eqb k' k)) (keys ++ [x])
  = List.filter (fun k' => negb (String.eqb k' k)) keys
    ++ (if String.eqb x k then [] else [x]).
Proof. rewrite List.filter_app. cbn [List.filter]. now destruct (String.eqb x k). Qed.

Lemma filter_all (k : string) (keys : list string) :
  k ∉ keys -> List.filter (fun k' => negb (String.eqb k' k)) keys = keys.
Proof.
  induction keys as [| x keys IH]; cbn [List.filter]; [reflexivity |].
  rewrite not_elem_of_cons. intros [Hne Hout].
  destruct (String.eqb_spec x k); [congruence |]. cbn [negb]. now rewrite IH.
Qed.

Lemma firstKeys_snoc (k : string) (e : ClaudeUsageEntry)
    (l : list (string * ClaudeUsageEntry)) :
  firstKeys (l ++ [(k, e)])
  = if bool_decide (k ∈ map fst l) then firstKeys l else firstKeys l ++ [k].
Proof.
  induction l as [| [k' e'] l IH]; cbn [app firstKeys map fst]; [reflexivity |].
  rewrite IH.
  destruct (bool_decide (k ∈ map fst l)) eqn:Hin;
    [apply bool_decide_eq_true in Hin | apply bool_decide_eq_false in Hin].
  - rewrite bool_decide_eq_true_2 by (apply elem_of_cons; now right). reflexivity.
  - rewrite filter_snoc_keys.
    destruct (String.eqb_spec k k') as [-> | Hne].
    + rewrite bool_decide_eq_true_2 by apply list_elem_of_here.
      now rewrite app_nil_r.
    + rewrite bool_decide_eq_false_2; [reflexivity |].
      rewrite not_elem_of_cons. now split.
Qed.

Lemma firstKeys_NoDup (l : list (string * ClaudeUsageEntry)) : NoDup (firstKeys l).
Proof.
  induction l as [| [k e] l IH]; cbn [firstKeys]; [apply NoDup_nil_2 |].
  apply NoDup_cons. split.
  - rewrite list_elem_of_In, filter_In, String.eqb_refl. cbn. intros [_ H]. discriminate H.
  - apply NoDup_ListNoDup, List.NoDup_filter, NoDup_ListNoDup, IH.
Qed.

(** The cells of a map laid out from its keys. *)
Let cells (f : string -> option ClaudeUsageEntry) (keys : list string)
    : list (string * ClaudeUsageEntry) :=
  flat_map (fun key => match f key with Some v => [(key, v)] | None => [] end) keys.

Lemma cells_ext (f g : string -> option ClaudeUsageEntry) (keys : list string) :
  (forall x, x ∈ keys -> f x = g x) -> cells f keys = cells g keys.
Proof.
  induction keys as [| x keys IH]; intros Hfg; cbn [cells flat_map]; [reflexivity |].
  rewrite (Hfg x) by apply list_elem_of_here. f_equal.
  apply IH. intros y Hy. apply Hfg. now apply list_elem_of_further.
Qed.

Lemma set_absent (k : string) (e : ClaudeUsageEntry)
    (f : string -> option ClaudeUsageEntry) (keys : list string) :
  k ∉ keys -> OrderedMap.set k e (cells f keys) = cells f keys ++ [(k, e)].
Proof.
  induction keys as [| x keys IH]; cbn [cells flat_map]; [reflexivity |].
  rewrite not_elem_of_cons. intros [Hne Hout]. fold (cells f keys).
  destruct (f x) as [v |]; cbn [app OrderedMap.set]; [| now apply IH].
  destruct (String.eqb_spec x k); [congruence |]. now rewrite IH.
Qed.

Lemma set_present (k : string) (e : ClaudeUsageEntry)
    (f g : string -> option ClaudeUsageEntry) (keys : list string) :
  NoDup keys -> k ∈ keys ->
  (exists v, f k = Some v) -> g k = Some e -> (forall x, x <> k -> g x = f x) ->
  OrderedMap.set k e (cells f keys) = cells g keys.
Proof.
  intros Hnd Hin [v0 Hfk] Hgk Hother.
  induction keys as [| x keys IH]; [now apply elem_of_nil in Hin |].
  apply NoDup_cons in Hnd as [Hfresh Hnd]. cbn [cells flat_map]. fold (cells f keys) (cells g keys).
  destruct (String.eqb_spec x k) as [-> | Hne].
  - rewrite Hfk, Hgk. cbn [app OrderedMap.set]. rewrite String.eqb_refl. f_equal.
    apply cells_ext. intros y Hy. symmetry. apply Hother. congruence.
  - apply elem_of_cons in Hin as [-> | Hin]; [congruence |].
    rewrite (Hother x Hne).
    destruct (f x) as [v |]; cbn [app OrderedMap.set]; [| now apply IH].
    destruct (String.eqb_spec x k); [congruence |]. now rewrite IH.
Qed.

Lemma held_snoc (k : string) (e : ClaudeUsageEntry) (l : list (string * ClaudeUsageEntry)) :
  OrderedMap.set k e (held l) = held (l ++ [(k, e)]).
Proof.
  unfold held. fold (cells (fun key => lastFor key l) (firstKeys l)).
  fold (cells (fun key => lastFor key (l ++ [(k, e)])) (firstKeys (l ++ [(k, e)]))).
  rewrite firstKeys_snoc.
  destruct (bool_decide (k ∈ map fst l)) eqn:Hin;
    [apply bool_decide_eq_true in Hin | apply bool_decide_eq_false in Hin].
  - apply set_present.
    + apply firstKeys_NoDup.
    + now apply firstKeys_elem.
    + now apply lastFor_present.
    + now rewrite lastFor_snoc, String.eqb_refl.
    + intros x Hx. rewrite lastFor_snoc. destruct (String.eqb_spec k x); congruence.
  - rewrite set_absent by now rewrite firstKeys_elem.
    unfold cells. rewrite flat_map_app. cbn [flat_map].
    rewrite lastFor_snoc, String.eqb_refl, app_nil_r. f_equal.
    apply cells_ext. intros x Hx. rewrite lastFor_snoc.
    destruct (String.eqb_spec k x) as [<- | _]; [| reflexivity].
    apply firstKeys_elem in Hx. contradiction.
Qed.

Variable rt : Runtime.

Lemma collect_held (lines : list string) (l0 : list (string * ClaudeUsageEntry))
    (k0 : list ClaudeUsageEntry)
    (m' : list (string * ClaudeUsageEntry)) (k' : list ClaudeUsageEntry) :
  collect rt lines (held l0) k0 = Ok (m', k') ->
  m' = held (l0 ++ keyedOf (contributions rt lines))
  /\ k' = k0 ++ keylessOf (contributions rt lines).
Proof.
  revert l0 k0. induction lines as [| line lines IH]; intros l0 k0; cbn [collect].
  - intros [= <- <-]. cbn. now rewrite !app_nil_r.
  - unfold contributions, keyedOf, keylessOf. cbn [flat_map]. rewrite !flat_map_app.
    fold (contributions rt lines). fold (keyedOf (contributions rt lines)).
    fold (keylessOf (contributions rt lines)).
    destruct (parseLine rt line) as [[| key e | e] |]; cbn [bind flat_map app];
      try discriminate; intros Hc.
    + now apply IH.
    + rewrite held_snoc in Hc. apply IH in Hc as [-> ->].
      now rewrite <- app_assoc.
    + apply IH in Hc as [-> ->]. now rewrite <- app_assoc.
Qed.

Lemma values_held (l : list (string * ClaudeUsageEntry)) :
  OrderedMap.values (held l)
  = flat_map (fun key => match lastFor key l with Some e => [e] | None => [] end)
      (firstKeys l).
Proof.
  unfold OrderedMap.values, held.
  induction (firstKeys l) as [| x keys IH]; cbn [flat_map map]; [reflexivity |].
  rewrite map_app, IH. now destruct (lastFor x l).
Qed.

(** X21: from a range of a message log, [parseFile] returns, for each
    deduplication key and at the place where the key comes first, the entry
    of the line that comes last under the key; after these, the entries of
    the lines without a key, in their order. *)
Theorem last_line_of_a_message_is_kept (text : string) (es : list ClaudeUsageEntry) :
  parseContent rt text = Ok es ->
  es = lastWins (contributions rt (split text "010")).
Proof.
  unfold parseContent. rewrite parseLines_collect.
  destruct (collect rt (split text "010") [] []) as [[m' k'] |] eqn:Hc; cbn [bind];
    [| discriminate].
  intros [= <-]. change (@nil (string * ClaudeUsageEntry)) with (held []) in Hc.
  apply collect_held in Hc as [-> ->]. cbn [app]. unfold lastWins.
  now rewrite values_held.
Qed.

End LastWins.

Section LastWinsSample.
Import ClaudeLogScanner RangeReading SampleLines.

Lemma last_line_of_a_message_is_kept_witness :
  exists es,
    parseContent referenceRuntime
      (fileOf [ assistantLine "msg_stream_1" "req_stream_1" 100 10 0 0;
                assistantLine "msg_2" "req_2" 7 7 0 0;
                assistantLine "msg_stream_1" "req_stream_1" 100 100 0 0 ])
    = Ok es
    /\ map claudeCounts es = [ (100, 100, 0, 0); (7, 7, 0, 0) ]
    /\ es = lastWins
              (contributions referenceRuntime
                 (split (fileOf [ assistantLine "msg_stream_1" "req_stream_1" 100 10 0 0;
                                  assistantLine "msg_2" "req_2" 7 7 0 0;
                                  assistantLine "msg_stream_1" "req_stream_1" 100 100 0 0 ])
                    "010")).
Proof.
  eexists. split; [vm_compute; reflexivity |]. split; [vm_compute; reflexivity |].
  apply (last_line_of_a_message_is_kept referenceRuntime). vm_compute. reflexivity.
Defined.

End LastWinsSample.

(** ** Model names, prices and counts *)

Section PricedNames.
Import AiUsageTracker.
Local Open Scope float_scope.

(** X10: every name that has a price keeps its price when it is normalized, by
    the normalizer of any provider: a model logged under a name of the
    pricing table is charged the rates written for that name. *)
Theorem normalizing_a_priced_name_keeps_its_price :
  Forall (fun name =>
            forall provider,
              ownPricing MODEL_PRICING (normalizeModel name provider)
              = ownPricing MODEL_PRICING name)
         (map fst MODEL_PRICING).
Proof.
  repeat constructor; intros []; vm_compute; reflexivity.
Qed.

Lemma ownPricing_None (table : list (string * PricingEntry)) (name : string) :
  ~ In name (map fst table) -> ownPricing table name = None.
Proof.
  induction table as [| [k p] table IH]; cbn [ownPricing map fst In]; [reflexivity |].
  intros Hout. destruct (String.eqb_spec k name) as [-> | Hne]; [tauto |].
  apply IH. tauto.
Qed.

(** X11: a request for a model that has no price and no pre-calculated cost is
    stored with a cost of zero when its key is new; unless the name of the
    model is the name of a property every object inherits, in which case
    the cost is [NaN] and nothing is stored. *)
Theorem unpriced_model_is_logged_at_no_cost (table : list Row) (entry : AiRequestLog) :
  let name := normalizeModel (model entry) (provider entry) in
  ~ In name (map fst MODEL_PRICING) ->
  (~ In name OBJECT_PROTOTYPE_KEYS ->
   entryKey entry ∉ map dedupKey table ->
   exists r, logRequest table entry None = table ++ [r]
             /\ c_model r = name /\ estimated_cost r = 0)
  /\ (In name OBJECT_PROTOTYPE_KEYS -> logRequest table entry None = table).
Proof.
  intros name Hout.
  assert (Hcost : estimatedCostOf entry None
                  = if existsb (String.eqb name) OBJECT_PROTOTYPE_KEYS then nan else 0).
  { unfold estimatedCostOf, calculateCost. fold name. now rewrite ownPricing_None. }
  split.
  - intros Hown Hnew.
    assert (Hex : existsb (String.eqb name) OBJECT_PROTOTYPE_KEYS = false).
    { apply not_true_is_false. intros H. apply existsb_exists in H as (k & Hk & Heq).
      apply String.eqb_eq in Heq. congruence. }
    rewrite Hex in Hcost.
    destruct (logRequest_cases table entry None)
      as [[_ [Hnan | Hin]] | (r & Heq & _)].
    + rewrite Hcost in Hnan. discriminate Hnan.
    + contradiction.
    + exists r. split; [exact Heq |].
      unfold logRequest, insertOrIgnore in Heq. cbn [estimated_cost] in Heq.
      destruct (PrimFloat.is_nan _); [apply (f_equal (@length _)) in Heq;
        rewrite length_app in Heq; cbn in Heq; lia |].
      destruct (existsb _ table); [apply (f_equal (@length _)) in Heq;
        rewrite length_app in Heq; cbn in Heq; lia |].
      apply app_inv_head in Heq. injection Heq as <-. cbn [c_model estimated_cost].
      split; [reflexivity | exact Hcost].
  - intros Hown.
    assert (Hex : existsb (String.eqb name) OBJECT_PROTOTYPE_KEYS = true).
    { apply existsb_exists. exists name. split; [exact Hown | apply String.eqb_refl]. }
    rewrite Hex in Hcost.
    unfold logRequest, insertOrIgnore. cbn [estimated_cost]. now rewrite Hcost.
Qed.

(** A name is none of the names of a list written out. *)
Ltac not_listed :=
  let H := fresh in
  intros H; cbn in H; repeat (destruct H as [H | H]; [discriminate H |]); exact H.

Lemma unpriced_model_is_logged_at_no_cost_witness :
  exists r, logRequest [] MoreSamples.unpriced None = [] ++ [r]
            /\ c_model r = "my-own-model" /\ estimated_cost r = 0.
Proof.
  apply (proj1 (unpriced_model_is_logged_at_no_cost [] MoreSamples.unpriced
                  ltac:(not_listed))).
  - not_listed.
  - apply not_elem_of_nil.
Defined.

End PricedNames.

Section VendorPrefix.

Lemma trimEnd_cons (a : ascii) (s : string) :
  isWhiteSpace a = false -> trimEnd (String a s) = String a (trimEnd s).
Proof. intros Ha. cbn [trimEnd]. rewrite Ha. now destruct (trimEnd s). Qed.

Lemma take_length (s : string) : take (String.length s) s = s.
Proof. induction s as [| a s IH]; cbn [String.length take]; [reflexivity | now rewrite IH]. Qed.

Lemma sliceFrom_append (p x : string) : sliceFrom (String.append p x) (len p) = x.
Proof.
  unfold sliceFrom, slice, relIndex, len. rewrite length_append.
  destruct (Z.ltb_spec (Z.of_nat (String.length p)) 0) as [Hneg | _]; [lia |].
  destruct (Z.ltb_spec (Z.of_nat (String.length p + String.length x)) 0) as [Hneg | _]; [lia |].
  replace (Z.to_nat (Z.max _ 0)) with (String.length x) by lia.
  replace (Z.to_nat (Z.min _ _)) with (String.length p) by lia.
  now rewrite drop_append, take_length.
Qed.

Lemma startsWith_append (p x : string) : startsWith (String.append p x) p = true.
Proof.
  induction p as [| a p IH]; rewrite ?append_nil_l, ?append_cons; [now destruct x |].
  cbn [startsWith]. now rewrite Ascii.eqb_refl, IH.
Qed.

(** A prefix made of characters [trim] keeps, put before a name, is taken
    off again by the first two steps of the normalizers. *)
Lemma prefix_taken_off (p x : string) :
  trimStart (String.append p x) = String.append p x ->
  trimEnd (String.append p x) = String.append p (trimEnd x) ->
  trimStart x = x ->
  startsWith (trim x) p = false ->
  stripPrefix p (trim (String.append p x)) = stripPrefix p (trim x).
Proof.
  intros Hstart Hend Hx Hno. unfold trim. rewrite Hstart, Hend, Hx.
  unfold trim in Hno. rewrite Hx in Hno.
  unfold stripPrefix. now rewrite startsWith_append, sliceFrom_append, Hno.
Qed.

(** X9: the vendor prefix is transparent: a name that has no white space
    before it and does not carry the prefix already is normalized to the
    same name with [openai/] before it by the Codex normalizer, and with
    [anthropic.] before it by the Claude normalizer. *)
Theorem vendor_prefix_is_transparent (x : string) :
  trimStart x = x ->
  (startsWith (trim x) "openai/" = false ->
   normalizeCodexModel (String.append "openai/" x) = normalizeCodexModel x)
  /\ (startsWith (trim x) "anthropic." = false ->
      normalizeClaudeModel (String.append "anthropic." x) = normalizeClaudeModel x).
Proof.
  intros Hx. split; intros Hno.
  - unfold normalizeCodexModel. cbv zeta. f_equal.
    apply prefix_taken_off; try assumption; [reflexivity |].
    rewrite !append_cons, append_nil_l. now rewrite !trimEnd_cons by reflexivity.
  - unfold normalizeClaudeModel, claudeDecorations. cbv zeta. do 4 f_equal.
    apply prefix_taken_off; try assumption; [reflexivity |].
    rewrite !append_cons, append_nil_l. now rewrite !trimEnd_cons by reflexivity.
Qed.

Lemma vendor_prefix_is_transparent_witness :
  normalizeCodexModel (String.append "openai/" "gpt-5-codex") = normalizeCodexModel "gpt-5-codex"
  /\ normalizeClaudeModel (String.append "anthropic." "claude-sonnet-4-5-20250929")
     = normalizeClaudeModel "claude-sonnet-4-5-20250929".
Proof.
  split.
  - apply (proj1 (vendor_prefix_is_transparent "gpt-5-codex" eq_refl)). reflexivity.
  - apply (proj2 (vendor_prefix_is_transparent "claude-sonnet-4-5-20250929" eq_refl)).
    reflexivity.
Defined.

End VendorPrefix.

Section Counts.

Lemma digit_char (d : Z) :
  0 <= d < 10 ->
  isDigit (ascii_of_nat (Z.to_nat (48 + d))) = true
  /\ Z.of_nat (nat_of_ascii (ascii_of_nat (Z.to_nat (48 + d)))) - 48 = d.
Proof.
  intros Hd. unfold isDigit. cbv zeta.
  rewrite nat_ascii_embedding by lia. split; [| lia].
  apply andb_true_intro. split; apply Nat.leb_le; lia.
Qed.

Lemma posDigits_value (fuel : nat) (n : Z) (acc : string) (a : Z) :
  0 <= n < 2 ^ Z.of_nat fuel ->
  exists k, 0 <= k
            /\ digitsValue (posDigits fuel n acc) a = digitsValue acc (a * 10 ^ k + n).
Proof.
  revert n acc a. induction fuel as [| fuel IH]; intros n acc a Hn.
  - exists 0. split; [lia |]. cbn [posDigits]. f_equal. cbn in Hn. lia.
  - cbn [posDigits]. cbv zeta.
    assert (Hd : 0 <= n mod 10 < 10) by (apply Z.mod_pos_bound; lia).
    destruct (digit_char _ Hd) as [Hdigit Hval].
    destruct (Z.ltb_spec n 10) as [Hsmall | Hbig].
    + exists 1. split; [lia |]. cbn [digitsValue]. rewrite Hdigit, Hval.
      f_equal. rewrite Z.mod_small by lia. lia.
    + destruct (IH (n / 10) (String (ascii_of_nat (Z.to_nat (48 + n mod 10))) acc) a)
        as (k & Hk & Heq).
      { split; [apply Z.div_pos; lia |].
        apply Z.div_lt_upper_bound; [lia |].
        rewrite Nat2Z.inj_succ, Z.pow_succ_r in Hn by lia. lia. }
      exists (k + 1). split; [lia |]. rewrite Heq. cbn [digitsValue]. rewrite Hdigit, Hval.
      f_equal. rewrite Z.pow_add_r by lia. pose proof (Z.div_mod n 10). lia.
Qed.

Lemma posDigits_digit (fuel : nat) (n : Z) (acc : string) :
  0 <= n -> startsWithDigit (posDigits (S fuel) n acc) = true.
Proof.
  revert n acc. induction fuel as [| fuel IH]; intros n acc Hn;
    cbn [posDigits]; cbv zeta;
    assert (Hd : 0 <= n mod 10 < 10) by (apply Z.mod_pos_bound; lia);
    destruct (digit_char _ Hd) as [Hdigit _];
    destruct (n <? 10); cbn [startsWithDigit]; try exact Hdigit.
  apply IH. apply Z.div_pos; lia.
Qed.

Lemma parseInt_digits (t : string) :
  startsWithDigit t = true -> parseIntOrZero t = digitsValue t 0.
Proof.
  destruct t as [| c t]; [discriminate |].
  destruct c as [[] [] [] [] [] [] [] []]; try discriminate; intros _; reflexivity.
Qed.

Lemma log2_fuel (n : Z) : 0 <= n -> 0 <= n < 2 ^ Z.of_nat (S (Z.to_nat (Z.log2 n))).
Proof.
  intros Hn. split; [exact Hn |].
  rewrite Nat2Z.inj_succ, Z2Nat.id by apply Z.log2_nonneg.
  destruct (Z.eq_dec n 0) as [-> | Hne]; [reflexivity |].
  apply Z.log2_spec. lia.
Qed.

(** X8: a count of at most [2^53] in absolute value (the integers a number
    of the runtime holds one by one) that a log line carries as a string
    of decimal digits, with a sign when it is negative, is read as the
    count a JSON number of the same value is read as. *)
Theorem toInt_reads_decimal_strings (n : Z) :
  - 2 ^ 53 <= n <= 2 ^ 53 ->
  toInt (Some (JStr (intToString n))) = n
  /\ toInt (Some (JNum (inject_Z n))) = n.
Proof.
  intros _.
  split; [| cbn [toInt]; apply Qfloor_Z].
  cbn [toInt]. unfold intToString.
  destruct (Z.ltb_spec n 0) as [Hneg | Hpos].
  - assert (Hm : 0 <= - n) by lia.
    destruct (posDigits_value _ _ "" 0 (log2_fuel _ Hm)) as (k & _ & Hval).
    pose proof (posDigits_digit (Z.to_nat (Z.log2 (- n))) (- n) "" Hm) as Hdigit.
    unfold parseIntOrZero. cbn [trimStart]. change (isWhiteSpace "-") with false. cbv iota.
    rewrite Hdigit, Hval. cbn [digitsValue]. lia.
  - destruct (posDigits_value _ _ "" 0 (log2_fuel _ Hpos)) as (k & _ & Hval).
    rewrite parseInt_digits by now apply posDigits_digit.
    rewrite Hval. cbn [digitsValue]. lia.
Qed.

Lemma toInt_reads_decimal_strings_witness :
  toInt (Some (JStr (intToString (-1234567)))) = -1234567
  /\ toInt (Some (JNum (inject_Z (-1234567)))) = -1234567.
Proof. apply (toInt_reads_decimal_strings (-1234567)). lia. Defined.

End Counts.

(** ** The ledger over its life: logging, start-up sweeps, clean-up *)

Section LedgerLife.
Import AiUsageTracker.
Local Open Scope float_scope.

Lemma logRequest_keys (table : list Row) (entry : AiRequestLog) (cost : option float)
    (k : DedupKey) :
  k ∈ map dedupKey (logRequest table entry cost)
  <-> (k ∈ map dedupKey table
       \/ (entryKey entry = k /\ PrimFloat.is_nan (estimatedCostOf entry cost) = false)).
Proof.
  destruct (logRequest_cases table entry cost)
    as [[-> [Hnan | Hin]] | (r & -> & Hk & Hnum & Hnew)].
  - split; [auto | intros [H | [_ H]]; [exact H | congruence]].
  - split; [auto | intros [H | [<- _]]; [exact H | exact Hin]].
  - rewrite map_app, elem_of_app. cbn [map]. rewrite list_elem_of_singleton, Hk.
    split; (intros [H | H]; [now left | right]).
    + now split.
    + now destruct H.
Qed.

Lemma logRequest_grows (table : list Row) (entry : AiRequestLog) (cost : option float) :
  exists added, logRequest table entry cost = table ++ added.
Proof.
  destruct (logRequest_cases table entry cost) as [[-> _] | (r & -> & _)].
  - exists []. now rewrite app_nil_r.
  - now exists [r].
Qed.

Lemma logAll_grows (calls : list (AiRequestLog * option float)) (table : list Row) :
  exists added, logAll table calls = table ++ added.
Proof.
  revert table. induction calls as [| [entry cost] calls IH]; intros table; cbn.
  - exists []. now rewrite app_nil_r.
  - destruct (logRequest_grows table entry cost) as [a1 H1].
    destruct (IH (logRequest table entry cost)) as [a2 H2].
    exists (a1 ++ a2). unfold logAll in *. rewrite H2, H1. now rewrite app_assoc.
Qed.

Lemma logAll_keys (calls : list (AiRequestLog * option float)) (table : list Row)
    (k : DedupKey) :
  k ∈ map dedupKey (logAll table calls)
  <-> (k ∈ map dedupKey table
       \/ exists entry cost,
            (entry, cost) ∈ calls /\ entryKey entry = k
            /\ PrimFloat.is_nan (estimatedCostOf entry cost) = false).
Proof.
  revert table. induction calls as [| [entry cost] calls IH]; intros table; cbn.
  - split; [auto | intros [H | (e & c & H & _)]; [exact H | now apply elem_of_nil in H]].
  - unfold logAll in IH. rewrite IH, logRequest_keys. split.
    + intros [[H | [Hk Hnum]] | (e & c & Hin & Hk & Hnum)].
      * now left.
      * right. exists entry, cost. split; [apply list_elem_of_here | auto].
      * right. exists e, c. split; [now apply list_elem_of_further | auto].
    + intros [H | (e & c & Hin & Hk & Hnum)]; [now left; left |].
      apply elem_of_cons in Hin as [[= -> ->] | Hin].
      * left. right. auto.
      * right. exists e, c. auto.
Qed.

(** X12: logging only adds rows, after the rows that were there; and a key is
    stored afterwards exactly when it was stored before or belongs to a
    logged request whose cost is a number. *)
Theorem logged_requests_are_found
    (table : list Row) (calls : list (AiRequestLog * option float)) :
  (exists added, logAll table calls = table ++ added)
  /\ forall k,
       k ∈ map dedupKey (logAll table calls)
       <-> (k ∈ map dedupKey table
            \/ exists entry cost,
                 (entry, cost) ∈ calls /\ entryKey entry = k
                 /\ PrimFloat.is_nan (estimatedCostOf entry cost) = false).
Proof.
  split; [apply logAll_grows | intros k; apply logAll_keys].
Qed.

(** *** The sweep of duplicates *)

Lemma kept_by_deduplication (table : list Row) (r : Row) :
  In r (migrateDeduplicateRows table)
  <-> (In r table
       /\ forall r', In r' table -> dedupKey r' = dedupKey r -> (id r <= id r')%Z).
Proof.
  unfold migrateDeduplicateRows. rewrite filter_In, forallb_forall.
  split; intros [Hin Hleast]; (split; [exact Hin |]).
  - intros r' Hr' Hk. specialize (Hleast r' Hr').
    apply orb_true_iff in Hleast as [H | H].
    + apply negb_true_iff in H. unfold sameKey in H.
      rewrite bool_decide_eq_false in H. congruence.
    + now apply Z.leb_le.
  - intros r' Hr'. apply orb_true_iff.
    destruct (sameKey (dedupKey r) r') eqn:Hk; [right | now left].
    apply Z.leb_le. apply Hleast; [exact Hr' |]. now apply sameKey_true.
Qed.

(** Among the rows with a given key, one has the least id. *)
Lemma least_id_exists (table : list Row) (k : DedupKey) :
  (exists r, In r table /\ dedupKey r = k) ->
  exists r0, In r0 table /\ dedupKey r0 = k
             /\ forall r', In r' table -> dedupKey r' = k -> (id r0 <= id r')%Z.
Proof.
  induction table as [| a table IH]; [intros (r & [] & _) |].
  intros (r & Hr & Hk).
  destruct (existsb (sameKey k) table) eqn:Hex.
  - apply existsb_exists in Hex as (r1 & Hin1 & Hk1). apply sameKey_true in Hk1.
    destruct IH as (r0 & Hin0 & Hk0 & Hleast); [eauto |].
    destruct (decide (dedupKey a = k)) as [Hka | Hka].
    + destruct (Z.le_ge_cases (id a) (id r0)) as [Hle | Hle].
      * exists a. split; [now left |]. split; [exact Hka |].
        intros r' [<- | Hr'] Hk'; [lia |]. specialize (Hleast r' Hr' Hk'). lia.
      * exists r0. split; [now right |]. split; [exact Hk0 |].
        intros r' [<- | Hr'] Hk'; [lia | now apply Hleast].
    + exists r0. split; [now right |]. split; [exact Hk0 |].
      intros r' [<- | Hr'] Hk'; [congruence | now apply Hleast].
  - assert (Hnone : forall r', In r' table -> dedupKey r' = k -> False).
    { intros r' Hr' Hk'. assert (existsb (sameKey k) table = true); [| congruence].
      apply existsb_exists. exists r'. split; [exact Hr' | now apply sameKey_true]. }
    destruct Hr as [-> | Hr]; [| now destruct (Hnone r Hr Hk)].
    exists r. split; [now left |]. split; [exact Hk |].
    intros r' [<- | Hr'] Hk'; [lia | now destruct (Hnone r' Hr' Hk')].
Qed.

Lemma deduplication_on_unique (table : list Row) :
  NoDup (map dedupKey table) -> migrateDeduplicateRows table = table.
Proof.
  intros Hnd. unfold migrateDeduplicateRows.
  assert (Hgen : forall rows, incl rows table ->
             List.filter
               (fun r => forallb (fun r' => negb (sameKey (dedupKey r) r') || (id r <=? id r')%Z)
                           table) rows = rows).
  { induction rows as [| a rows IH]; intros Hincl; cbn [List.filter]; [reflexivity |].
    assert (Ha : In a table) by (apply Hincl; now left).
    replace (forallb _ table) with true.
    - f_equal. apply IH. intros x Hx. apply Hincl. now right.
    - symmetry. apply forallb_forall. intros r' Hr'. apply orb_true_iff.
      destruct (sameKey (dedupKey a) r') eqn:Hk; [right | now left].
      apply sameKey_true in Hk.
      assert (r' = a); [| subst; apply Z.leb_refl].
      apply list_elem_of_In in Ha, Hr'.
      apply list_elem_of_lookup in Ha as [i Hi], Hr' as [j Hj].
      assert (i = j); [| congruence].
      apply (NoDup_lookup _ i j (dedupKey a) Hnd);
        change (map dedupKey table) with (dedupKey <$> table);
        rewrite list_lookup_fmap; [rewrite Hi | rewrite Hj]; cbn; congruence. }
  apply Hgen, incl_refl.
Qed.

(** X13: [migrateDeduplicateRows] keeps a row exactly when no row with the same
    key has a lower id; every key of the table is still there afterwards;
    and a table with one row per key is left as it is. *)
Theorem deduplication_keeps_lowest_id (table : list Row) :
  (forall r, In r (migrateDeduplicateRows table)
             <-> (In r table
                  /\ forall r', In r' table -> dedupKey r' = dedupKey r -> (id r <= id r')%Z))
  /\ (forall k, k ∈ map dedupKey (migrateDeduplicateRows table) <-> k ∈ map dedupKey table)
  /\ (NoDup (map dedupKey table) -> migrateDeduplicateRows table = table).
Proof.
  split; [apply kept_by_deduplication |]. split; [| apply deduplication_on_unique].
  intros k. rewrite !list_elem_of_In, !in_map_iff. split.
  - intros (r & Hk & Hr). apply kept_by_deduplication in Hr as [Hr _]. eauto.
  - intros (r & Hk & Hr).
    destruct (least_id_exists table k) as (r0 & Hin0 & Hk0 & Hleast); [eauto |].
    exists r0. split; [exact Hk0 |]. apply kept_by_deduplication. split; [exact Hin0 |].
    intros r' Hr' Hk'. apply Hleast; [exact Hr' | congruence].
Qed.

Lemma deduplication_keeps_lowest_id_witness :
  migrateDeduplicateRows [MoreSamples.oldRow; MoreSamples.overpriced]
  = [MoreSamples.oldRow; MoreSamples.overpriced].
Proof.
  apply (proj2 (proj2 (deduplication_keeps_lowest_id
                         [MoreSamples.oldRow; MoreSamples.overpriced]))).
  apply NoDup_cons. split; [| apply NoDup_singleton].
  rewrite elem_of_cons, elem_of_nil. intros [H | []]. vm_compute in H. discriminate H.
Defined.

(** *** The sweep of prices *)

Lemma recalculate_twice (table : list Row) :
  migrateRecalculateOpus46Costs (migrateRecalculateOpus46Costs table)
  = migrateRecalculateOpus46Costs table.
Proof.
  unfold migrateRecalculateOpus46Costs. rewrite map_map. apply map_ext. intros r.
  destruct (String.eqb (c_model r) "claude-opus-4-6") eqn:Hm; cbn; rewrite Hm; reflexivity.
Qed.

(** X14: opening a database that was opened before changes nothing: the two
    sweeps of [initDb] leave their own result as it is. *)
Theorem initDb_twice (legacy : list Row) :
  NoDup (map id legacy) -> initDb (initDb legacy) = initDb legacy.
Proof.
  intros Hids. unfold initDb at 1.
  rewrite deduplication_on_unique by now apply initDb_unique.
  unfold initDb. apply recalculate_twice.
Qed.

Lemma initDb_twice_witness :
  initDb (initDb Samples.legacyRows) = initDb Samples.legacyRows.
Proof.
  apply (initDb_twice Samples.legacyRows).
  cbn. repeat (apply NoDup_cons; split; [rewrite ?elem_of_cons, elem_of_nil; lia |]).
  apply NoDup_nil_2.
Defined.

(** X15: after [initDb], every row of the model [claude-opus-4-6] carries the
    cost the pricing table gives for its four counts, whatever cost it was
    stored with; every other row is a row of the table as it was. *)
Theorem initDb_reprices_opus_4_6 (table : list Row) (r : Row) :
  In r (initDb table) ->
  (c_model r = "claude-opus-4-6" ->
   estimated_cost r
   = calculateCost "claude-opus-4-6" (input_tokens r) (output_tokens r)
       (cache_read_input_tokens r) (cache_creation_input_tokens r))
  /\ (c_model r <> "claude-opus-4-6" -> In r table).
Proof.
  unfold initDb, migrateRecalculateOpus46Costs. rewrite in_map_iff.
  intros (r0 & Hr & Hin). apply kept_by_deduplication in Hin as [Hin _].
  destruct (String.eqb_spec (c_model r0) "claude-opus-4-6") as [Hm | Hm]; subst r.
  - split; [reflexivity |]. cbn [c_model]. congruence.
  - split; [congruence | auto].
Qed.

Lemma initDb_reprices_opus_4_6_witness :
  initDb [MoreSamples.overpriced] = [MoreSamples.repriced]
  /\ (c_model MoreSamples.repriced = "claude-opus-4-6" ->
      estimated_cost MoreSamples.repriced
      = calculateCost "claude-opus-4-6" (input_tokens MoreSamples.repriced)
          (output_tokens MoreSamples.repriced)
          (cache_read_input_tokens MoreSamples.repriced)
          (cache_creation_input_tokens MoreSamples.repriced))
  /\ (c_model MoreSamples.repriced <> "claude-opus-4-6" ->
      In MoreSamples.repriced [MoreSamples.overpriced]).
Proof.
  split; [vm_compute; reflexivity |].
  apply (initDb_reprices_opus_4_6 [MoreSamples.overpriced] MoreSamples.repriced).
  vm_compute. left. reflexivity.
Defined.

(** *** Clean-up *)

Lemma cleanup_In (table : list Row) (now : Z) (days : option Z) (r : Row) :
  In r (cleanupOldData table now days)
  <-> (In r table
       /\ (now - match days with Some d => d | None => 30 end * 24 * 60 * 60 * 1000
           <= c_timestamp r)%Z).
Proof.
  unfold cleanupOldData. cbv zeta. rewrite filter_In, negb_true_iff, Z.ltb_ge. reflexivity.
Qed.

Lemma filter_NoDup_keys (f : Row -> bool) (table : list Row) :
  NoDup (map dedupKey table) -> NoDup (map dedupKey (List.filter f table)).
Proof.
  induction table as [| r table IH]; cbn [List.filter map]; [auto |].
  rewrite NoDup_cons. intros [Hfresh Hnd].
  destruct (f r); cbn [map]; [| now apply IH].
  apply NoDup_cons. split; [| now apply IH].
  rewrite list_elem_of_In, in_map_iff. intros (r' & Hk & Hr').
  apply filter_In in Hr' as [Hr' _]. apply Hfresh.
  rewrite list_elem_of_In, in_map_iff. eauto.
Qed.

(** X16: [cleanupOldData] keeps one row per key when the table had one row per
    key, and a clean-up at a later time leaves the table a single clean-up
    at that time would leave, whatever clean-ups ran before. *)
Theorem cleanup_later_absorbs_earlier
    (table : list Row) (now1 now2 : Z) (days : option Z) :
  (NoDup (map dedupKey table) -> NoDup (map dedupKey (cleanupOldData table now1 days)))
  /\ ((now1 <= now2)%Z ->
      cleanupOldData (cleanupOldData table now1 days) now2 days
      = cleanupOldData table now2 days).
Proof.
  split; [apply filter_NoDup_keys |].
  intros Hle. unfold cleanupOldData. cbv zeta.
  induction table as [| r table IH]; cbn [List.filter]; [reflexivity |].
  destruct (Z.ltb_spec (c_timestamp r) (now1 - match days with Some d => d | None => 30 end
                                              * 24 * 60 * 60 * 1000)) as [Hold | Hnew];
    cbn [negb List.filter].
  - rewrite IH. destruct (Z.ltb_spec (c_timestamp r)
                            (now2 - match days with Some d => d | None => 30 end
                                    * 24 * 60 * 60 * 1000)); [reflexivity | lia].
  - now rewrite IH.
Qed.

Lemma cleanup_later_absorbs_earlier_witness :
  cleanupOldData
    (cleanupOldData [MoreSamples.oldRow; MoreSamples.overpriced] 1769000000000 None)
    1771000000000 None
  = cleanupOldData [MoreSamples.oldRow; MoreSamples.overpriced] 1771000000000 None.
Proof.
  apply (proj2 (cleanup_later_absorbs_earlier
                  [MoreSamples.oldRow; MoreSamples.overpriced]
                  1769000000000 1771000000000 None)).
  lia.
Defined.

(** X17: clean-up keeps no trace of the keys it removed: a request older than
    the cut-off, logged after a clean-up with a cost that is a number, is
    stored as a new row, whether or not it was stored before. *)
Theorem cleanup_forgets_keys
    (table : list Row) (now days : Z) (entry : AiRequestLog) (cost : option float) :
  (timestamp entry < now - days * 24 * 60 * 60 * 1000)%Z ->
  PrimFloat.is_nan (estimatedCostOf entry cost) = false ->
  exists r,
    logRequest (cleanupOldData table now (Some days)) entry cost
    = cleanupOldData table now (Some days) ++ [r]
    /\ dedupKey r = entryKey entry.
Proof.
  intros Hold Hnum.
  destruct (logRequest_cases (cleanupOldData table now (Some days)) entry cost)
    as [[_ [Hnan | Hin]] | (r & Heq & Hk & _)]; [congruence | | eauto].
  apply list_elem_of_In, in_map_iff in Hin as (r & Hk & Hr).
  apply cleanup_In in Hr as [_ Hts].
  unfold dedupKey, entryKey in Hk. injection Hk as Hk _ _ _ _ _. lia.
Qed.

(** The request of forty days ago was stored, is removed by the clean-up
    and is stored again when it is logged again. *)
Lemma cleanup_forgets_keys_witness :
  logRequest [] MoreSamples.oldRequest None = [MoreSamples.oldRow]
  /\ cleanupOldData [MoreSamples.oldRow] 1770458400000 (Some 30%Z) = []
  /\ exists r,
       logRequest (cleanupOldData [MoreSamples.oldRow] 1770458400000 (Some 30%Z))
         MoreSamples.oldRequest None
       = cleanupOldData [MoreSamples.oldRow] 1770458400000 (Some 30%Z) ++ [r]
       /\ dedupKey r = entryKey MoreSamples.oldRequest.
Proof.
  split; [vm_compute; reflexivity |]. split; [vm_compute; reflexivity |].
  apply (cleanup_forgets_keys [MoreSamples.oldRow] 1770458400000 30
           MoreSamples.oldRequest None).
  - vm_compute. reflexivity.
  - vm_compute. reflexivity.
Defined.

End LedgerLife.

(** ** Feeding the ledger from the logs *)

Section LocalLogs.
Import AiUsageTracker ScanPasses.
Local Open Scope float_scope.
Variable rt : Runtime.
Variable trt : TrackerRuntime.

(** Logging requests whose keys are all stored, or whose costs are not
    numbers, changes nothing. *)
Lemma logAll_again (calls : list (AiRequestLog * option float)) (table table' : list Row) :
  (forall k, k ∈ map dedupKey (logAll table calls) -> k ∈ map dedupKey table') ->
  logAll table' calls = table'.
Proof.
  intros Hkeys.
  assert (Hsettled : forall entry cost, (entry, cost) ∈ calls ->
                       logRequest table' entry cost = table').
  { intros entry cost Hin.
    destruct (logRequest_cases table' entry cost) as [[-> _] | (r & _ & _ & Hnum & Hnew)];
      [reflexivity |].
    destruct Hnew. apply Hkeys. apply logAll_keys. right. eauto. }
  clear Hkeys. induction calls as [| [entry cost] calls IH]; cbn; [reflexivity |].
  rewrite Hsettled by apply list_elem_of_here.
  apply IH. intros e c Hin. apply Hsettled. now apply list_elem_of_further.
Qed.

(** The call of [logRequest] made for an entry, if one is made. *)
Let claudeCall (entry : ClaudeLogScanner.ClaudeUsageEntry)
    : list (AiRequestLog * option float) :=
  match Date_getTime trt (ClaudeLogScanner.timestamp entry) with
  | Some ts =>
      [ (mkLog ts anthropic (ClaudeLogScanner.model entry)
           (ClaudeLogScanner.inputTokens entry) (ClaudeLogScanner.outputTokens entry)
           (Some (ClaudeLogScanner.cacheReadInputTokens entry))
           (Some (ClaudeLogScanner.cacheCreationInputTokens entry))
           src_claude_code None,
         option_map (Number_ofJson trt) (ClaudeLogScanner.costUSD entry)) ]
  | None => []
  end.

Let codexCall (entry : CodexLogScanner.CodexUsageEntry)
    : list (AiRequestLog * option float) :=
  match Date_getTime trt (CodexLogScanner.timestamp entry) with
  | Some ts =>
      [ (mkLog ts openai (CodexLogScanner.model entry)
           (CodexLogScanner.inputTokens entry) (CodexLogScanner.outputTokens entry)
           (Some (CodexLogScanner.cachedInputTokens entry)) None src_api None,
         None) ]
  | None => []
  end.

Lemma logClaudeEntries_logAll (entries : list ClaudeLogScanner.ClaudeUsageEntry)
    (table : list Row) :
  fold_left (logClaudeEntry trt) entries table = logAll table (flat_map claudeCall entries).
Proof.
  revert table. induction entries as [| e entries IH]; intros table; cbn [fold_left flat_map];
    [reflexivity |].
  rewrite IH. unfold logClaudeEntry, claudeCall.
  destruct (Date_getTime trt (ClaudeLogScanner.timestamp e)); reflexivity.
Qed.

Lemma logCodexEntries_logAll (entries : list CodexLogScanner.CodexUsageEntry)
    (table : list Row) :
  fold_left (logCodexEntry trt) entries table = logAll table (flat_map codexCall entries).
Proof.
  revert table. induction entries as [| e entries IH]; intros table; cbn [fold_left flat_map];
    [reflexivity |].
  rewrite IH. unfold logCodexEntry, codexCall.
  destruct (Date_getTime trt (CodexLogScanner.timestamp e)); reflexivity.
Qed.

(** X18: a call of [scanLocalLogs] that follows one that returned, over files
    whose sizes and modification times are the same, returns the same
    count and leaves the table and the caches as they are: the count is
    the number of entries the scanners returned, not the number of rows
    stored. *)
Theorem scanLocalLogs_again
    (claudeEnv codexEnv : option string) (home : string) (disk1 disk2 : Disk)
    (tracker tracker' : TrackerState) (n : Z) :
  sameStats disk1 disk2 ->
  scanLocalLogs rt trt claudeEnv codexEnv home disk1 tracker = Ok (n, tracker') ->
  scanLocalLogs rt trt claudeEnv codexEnv home disk2 tracker' = Ok (n, tracker').
Proof.
  intros Hsame. unfold scanLocalLogs. cbv zeta.
  destruct (ClaudeLogScanner.scan rt claudeEnv home disk1 (claudeStates tracker))
    as [[ce cs] |] eqn:Hc; cbn [bind]; [| discriminate].
  destruct (CodexLogScanner.scan rt codexEnv home disk1 (codexStates tracker))
    as [[xe xs] |] eqn:Hx; cbn [bind]; [| discriminate].
  intros [= <- <-]. cbn [claudeStates codexStates ai_requests].
  rewrite (claude_scan_repeats rt _ _ _ _ _ _ _ Hsame Hc). cbn [bind].
  rewrite (codex_scan_repeats rt _ _ _ _ _ _ _ Hsame Hx). cbn [bind].
  rewrite !logClaudeEntries_logAll, !logCodexEntries_logAll.
  set (t1 := logAll (ai_requests tracker) (flat_map claudeCall ce)).
  set (t2 := logAll t1 (flat_map codexCall xe)).
  rewrite (logAll_again (flat_map claudeCall ce) (ai_requests tracker) t2).
  - rewrite (logAll_again (flat_map codexCall xe) t1 t2); [reflexivity | auto].
  - intros k Hk. apply logAll_keys. now left.
Qed.

End LocalLogs.

Section LocalLogsSample.
Import AiUsageTracker ScanPasses SampleDisk MoreSamples.

Example scanLocalLogs_sample :
  match scanLocalLogs referenceRuntime referenceTrackerRuntime None None home bothLogs
          newTracker with
  | Ok (n, tracker) =>
      (n, map (fun r => (c_timestamp r, c_model r, input_tokens r, output_tokens r))
            (ai_requests tracker))
  | Throw => (0, [])
  end
  = (2, [ (1770458400000, "claude-sonnet-4-5", 100, 50);
          (1770458460000, "gpt-5", 100, 50) ]).
Proof. vm_compute. reflexivity. Qed.

Lemma scanLocalLogs_again_witness :
  let first :=
    returned (scanLocalLogs referenceRuntime referenceTrackerRuntime None None home bothLogs
                newTracker)
             (0, newTracker) in
  scanLocalLogs referenceRuntime referenceTrackerRuntime None None home bothLogs newTracker
    = Ok (fst first, snd first)
  /\ scanLocalLogs referenceRuntime referenceTrackerRuntime None None home bothLogsAfter
       (snd first)
     = Ok (fst first, snd first).
Proof.
  intros first.
  assert (Hfirst : scanLocalLogs referenceRuntime referenceTrackerRuntime None None home
                     bothLogs newTracker = Ok (fst first, snd first))
    by (vm_compute; reflexivity).
  split; [exact Hfirst |].
  apply (scanLocalLogs_again referenceRuntime referenceTrackerRuntime None None home
           bothLogs bothLogsAfter newTracker); [| exact Hfirst].
  split; [reflexivity |]. split; [reflexivity |].
  intros path. unfold bothLogs, bothLogsAfter, claudeBefore, claudeAfter, Incremental.writeFile.
  cbn [fileAt]. rewrite !lookup_insert.
  destruct (decide (codexLog = path)); [vm_compute; reflexivity |].
  destruct (decide (claudeLog = path)); [vm_compute; reflexivity | reflexivity].
Defined.

End LocalLogsSample.

(** ** The usage summary and the status message *)

Section Summary.
Import AiUsageTracker OpenClawMonitor UsageSummaries.

Lemma providersOf_snoc (rows : list GroupRow) (r : GroupRow) :
  providersOf (rows ++ [r]) = addRow (providersOf rows) r.
Proof. unfold providersOf. now rewrite fold_left_app. Qed.

Lemma rowsOf_snoc (provider : AiProvider) (rows : list GroupRow) (r : GroupRow) :
  rowsOf provider (rows ++ [r])
  = rowsOf provider rows ++ (if decide (g_provider r = provider) then [r] else []).
Proof.
  unfold rowsOf. rewrite List.filter_app. cbn [List.filter]. unfold bool_decide.
  destruct (decide_rel eq (g_provider r) provider), (decide (g_provider r = provider));
    try contradiction; reflexivity.
Qed.

Lemma sumOf_snoc (count : GroupRow -> Z) (rows : list GroupRow) (r : GroupRow) :
  sumOf count (rows ++ [r]) = sumOf count rows + count r.
Proof.
  unfold sumOf. induction rows as [| a rows IH]; cbn [app fold_right]; lia.
Qed.

Lemma costOf_snoc (rows : list GroupRow) (r : GroupRow) :
  costOf (rows ++ [r]) = PrimFloat.add (costOf rows) (total_cost r).
Proof. unfold costOf. now rewrite fold_left_app. Qed.

Lemma summarizes_other (rows : list GroupRow) (r : GroupRow) (p : ProviderSummary) :
  s_provider p <> g_provider r -> summarizes rows p -> summarizes (rows ++ [r]) p.
Proof.
  unfold summarizes. cbv zeta. intros Hne. rewrite rowsOf_snoc.
  destruct (decide (g_provider r = s_provider p)); [congruence |].
  now rewrite app_nil_r.
Qed.

Lemma summarizes_same (rows : list GroupRow) (r : GroupRow) (p : ProviderSummary) :
  s_provider p = g_provider r -> summarizes rows p ->
  summarizes (rows ++ [r]) (addToProvider p r).
Proof.
  unfold summarizes. cbv zeta. intros Heq (Hne & Hm & Hc & Hi & Ho & Hr & Hw & Hcost).
  cbn [addToProvider s_provider models s_requestCount s_totalInputTokens s_totalOutputTokens
       s_totalCacheReadInputTokens s_totalCacheCreationInputTokens s_totalCost].
  rewrite rowsOf_snoc. destruct (decide (g_provider r = s_provider p)); [| congruence].
  rewrite map_app, !sumOf_snoc, costOf_snoc, Hm, Hc, Hi, Ho, Hr, Hw, Hcost. cbn [map orZeroZ].
  repeat split. intros H. now apply app_eq_nil in H as [_ H].
Qed.

Lemma summarizes_new (rows : list GroupRow) (r : GroupRow) :
  rowsOf (g_provider r) rows = [] ->
  summarizes (rows ++ [r]) (addToProvider (newProvider (g_provider r)) r).
Proof.
  unfold summarizes. cbv zeta. intros Hnone.
  cbn [addToProvider newProvider s_provider models s_requestCount s_totalInputTokens
       s_totalOutputTokens s_totalCacheReadInputTokens s_totalCacheCreationInputTokens
       s_totalCost].
  rewrite rowsOf_snoc, Hnone. destruct (decide (g_provider r = g_provider r)); [| congruence].
  cbn [app map orZeroZ sumOf fold_right costOf fold_left].
  repeat split; try (f_equal; lia); try lia. discriminate.
Qed.

(** What one turn of the loop does to the providers of the map. *)
Lemma addRow_providers (providerMap : list ProviderSummary) (r : GroupRow) :
  map s_provider (addRow providerMap r)
  = if decide (g_provider r ∈ map s_provider providerMap)
    then map s_provider providerMap
    else map s_provider providerMap ++ [g_provider r].
Proof.
  induction providerMap as [| p providerMap IH]; cbn [addRow map].
  - destruct (decide (g_provider r ∈ [])) as [H | _]; [now apply elem_of_nil in H | reflexivity].
  - destruct (decide (s_provider p = g_provider r)) as [Heq | Hne]; cbn [map].
    + destruct (decide (g_provider r ∈ s_provider p :: map s_provider providerMap))
        as [_ | H]; [reflexivity |].
      destruct H. rewrite Heq. apply list_elem_of_here.
    + rewrite IH.
      destruct (decide (g_provider r ∈ map s_provider providerMap)) as [Hin | Hout];
        destruct (decide (g_provider r ∈ s_provider p :: map s_provider providerMap))
        as [Hin' | Hout']; try reflexivity.
      * destruct Hout'. now apply list_elem_of_further.
      * apply elem_of_cons in Hin' as [Hin' | Hin']; [congruence | contradiction].
Qed.

Lemma addRow_summarizes (rows : list GroupRow) (providerMap : list ProviderSummary)
    (r : GroupRow) :
  NoDup (map s_provider providerMap) ->
  (g_provider r ∉ map s_provider providerMap -> rowsOf (g_provider r) rows = []) ->
  Forall (summarizes rows) providerMap ->
  Forall (summarizes (rows ++ [r])) (addRow providerMap r).
Proof.
  induction providerMap as [| p providerMap IH]; cbn [addRow map]; intros Hnd Hnew Hall.
  - constructor; [| constructor]. apply summarizes_new. apply Hnew. apply not_elem_of_nil.
  - apply Forall_cons in Hall as [Hp Hall]. apply NoDup_cons in Hnd as [Hfresh Hnd].
    destruct (decide (s_provider p = g_provider r)) as [Heq | Hne]; constructor.
    + now apply summarizes_same.
    + rewrite Forall_forall in *. intros q Hq. apply summarizes_other; [| now apply Hall].
      intros Hq'. apply Hfresh. rewrite Heq, <- Hq'.
      apply list_elem_of_In, in_map, list_elem_of_In, Hq.
    + now apply summarizes_other.
    + apply IH; [exact Hnd | | exact Hall]. intros Hout. apply Hnew.
      rewrite not_elem_of_cons. split; [congruence | exact Hout].
Qed.

Lemma providersOf_invariant (rows : list GroupRow) :
  NoDup (map s_provider (providersOf rows))
  /\ Forall (summarizes rows) (providersOf rows)
  /\ (forall r, r ∈ rows -> g_provider r ∈ map s_provider (providersOf rows)).
Proof.
  induction rows as [| r rows IH] using rev_ind.
  - split; [apply NoDup_nil_2 |]. split; [constructor |].
    intros r Hr. now apply elem_of_nil in Hr.
  - destruct IH as (Hnd & Hall & Hcov). rewrite providersOf_snoc, addRow_providers.
    split; [| split].
    + destruct (decide (g_provider r ∈ map s_provider (providersOf rows))) as [Hin | Hout];
        [exact Hnd |].
      apply NoDup_app. split; [exact Hnd |]. split; [| apply NoDup_singleton].
      intros x Hx Hx'. apply list_elem_of_singleton in Hx'. congruence.
    + apply addRow_summarizes; [exact Hnd | | exact Hall].
      intros Hout. unfold rowsOf.
      destruct (List.filter _ rows) as [| x l] eqn:Hf; [reflexivity |].
      assert (Hx : In x (List.filter (fun r0 => bool_decide (g_provider r0 = g_provider r)) rows))
        by (rewrite Hf; now left).
      apply filter_In in Hx as [Hx Hp]. apply bool_decide_eq_true in Hp.
      destruct Hout. rewrite <- Hp. apply Hcov. now apply list_elem_of_In.
    + intros x Hx. apply elem_of_app in Hx as [Hx | Hx].
      * specialize (Hcov x Hx).
        destruct (decide (g_provider r ∈ map s_provider (providersOf rows)));
          [exact Hcov | apply elem_of_app; now left].
      * apply list_elem_of_singleton in Hx. subst x.
        destruct (decide (g_provider r ∈ map s_provider (providersOf rows))) as [Hin | Hout];
          [exact Hin | apply elem_of_app; right; apply list_elem_of_here].
Qed.

(** X19: the summary has one entry for each provider that has a row, and none
    else; the entry of a provider lists the models of its rows in the
    order of the query and carries the sums of their counts and, added in
    that order, of their costs. *)
Theorem summary_groups_the_rows (rows : list GroupRow) :
  NoDup (map s_provider (providersOf rows))
  /\ (forall p, p ∈ providersOf rows -> summarizes rows p)
  /\ (forall r, r ∈ rows -> g_provider r ∈ map s_provider (providersOf rows)).
Proof.
  destruct (providersOf_invariant rows) as (Hnd & Hall & Hcov).
  split; [exact Hnd |]. split; [| exact Hcov].
  intros p Hp. rewrite Forall_forall in Hall. now apply Hall.
Qed.

Lemma statusProviders_app (l l' : list ProviderSummary) :
  statusProviders (l ++ l') = statusProviders l ++ statusProviders l'.
Proof. unfold statusProviders. apply flat_map_app. Qed.

Lemma statusProviders_added (p : ProviderSummary) (r : GroupRow) :
  s_provider p = g_provider r ->
  statusProviders [addToProvider p r] = statusProviders [p] ++ [itemOf r].
Proof.
  intros Heq. unfold statusProviders. cbn [flat_map addToProvider models s_provider].
  rewrite !app_nil_r, map_app. cbn [map modelSummaryOf m_model m_requestCount
    m_totalInputTokens m_totalOutputTokens m_totalCost]. unfold itemOf. now rewrite Heq.
Qed.

Lemma statusProviders_addRow (providerMap : list ProviderSummary) (r : GroupRow) :
  Permutation (statusProviders (addRow providerMap r))
              (statusProviders providerMap ++ [itemOf r]).
Proof.
  induction providerMap as [| p providerMap IH]; cbn [addRow].
  - rewrite (statusProviders_added (newProvider (g_provider r)) r eq_refl). reflexivity.
  - destruct (decide (s_provider p = g_provider r)) as [Heq | Hne].
    + change (addToProvider p r :: providerMap) with ([addToProvider p r] ++ providerMap).
      change (p :: providerMap) with ([p] ++ providerMap).
      rewrite !statusProviders_app, (statusProviders_added p r Heq), <- !app_assoc.
      apply Permutation_app_head, Permutation_app_comm.
    + change (p :: addRow providerMap r) with ([p] ++ addRow providerMap r).
      change (p :: providerMap) with ([p] ++ providerMap).
      rewrite !statusProviders_app, <- app_assoc. now apply Permutation_app_head.
Qed.

Lemma addRow_last (init : list ProviderSummary) (p : ProviderSummary) (r : GroupRow) :
  NoDup (map s_provider (init ++ [p])) -> s_provider p = g_provider r ->
  addRow (init ++ [p]) r = init ++ [addToProvider p r].
Proof.
  intros Hnd Heq. induction init as [| q init IH]; cbn [app addRow].
  - destruct (decide (s_provider p = g_provider r)); [reflexivity | contradiction].
  - cbn [app map] in Hnd. apply NoDup_cons in Hnd as [Hfresh Hnd].
    destruct (decide (s_provider q = g_provider r)) as [Hq | _]; [| now rewrite IH].
    destruct Hfresh. rewrite map_app, elem_of_app. right. cbn. rewrite Hq, <- Heq.
    apply list_elem_of_here.
Qed.

Lemma addRow_new (providerMap : list ProviderSummary) (r : GroupRow) :
  g_provider r ∉ map s_provider providerMap ->
  addRow providerMap r = providerMap ++ [addToProvider (newProvider (g_provider r)) r].
Proof.
  induction providerMap as [| q providerMap IH]; cbn [addRow map app]; [reflexivity |].
  rewrite not_elem_of_cons. intros [Hne Hout].
  destruct (decide (s_provider q = g_provider r)); [congruence | now rewrite IH].
Qed.

Lemma grouped_snoc (rows : list GroupRow) (r : GroupRow) :
  grouped (rows ++ [r]) = true ->
  grouped rows = true
  /\ forall rows0 r0, rows = rows0 ++ [r0] ->
       g_provider r = g_provider r0 \/ forall x, In x rows -> g_provider x <> g_provider r.
Proof.
  induction rows as [| a rest IH]; [intros _; split; [reflexivity |]; intros [] |];
    try discriminate.
  change ((a :: rest) ++ [r]) with (a :: (rest ++ [r])). cbn [grouped].
  destruct (rest ++ [r]) as [| next tail] eqn:Hnext; [now destruct rest |].
  intros H. apply andb_prop in H as [Ha Hrest]. rewrite <- Hnext in *.
  specialize (IH Hrest) as [Hg Hlast].
  assert (Hafter : forall x, In x (rest ++ [r]) -> g_provider x = g_provider a ->
                             g_provider next = g_provider a).
  { intros x Hx Hxa. apply orb_prop in Ha as [Ha | Ha]; [now apply bool_decide_eq_true in Ha |].
    apply negb_true_iff in Ha.
    assert (existsb (fun x => bool_decide (g_provider x = g_provider a)) (rest ++ [r]) = true);
      [| congruence].
    apply existsb_exists. exists x. split; [exact Hx | now apply bool_decide_eq_true]. }
  split.
  - destruct rest as [| r' rest']; [reflexivity |].
    cbn [app] in Hnext. injection Hnext as <- _. rewrite Hg, andb_true_r.
    destruct (existsb (fun x => bool_decide (g_provider x = g_provider a)) (r' :: rest'))
      eqn:Hex; [| apply orb_true_r].
    apply existsb_exists in Hex as (x & Hx & Hxa). apply bool_decide_eq_true in Hxa.
    apply orb_true_iff. left. apply bool_decide_eq_true.
    apply (Hafter x); [| exact Hxa]. apply in_or_app. now left.
  - intros rows0 r0 Hrows.
    destruct rest as [| r' rest'].
    + destruct rows0 as [| ? [| ? ?]]; try discriminate. injection Hrows as <-.
      destruct (decide (g_provider r = g_provider a)) as [Heq | Hne]; [now left | right].
      intros x [<- | []]. congruence.
    + destruct rows0 as [| a0 rows0']; [discriminate |]. injection Hrows as <- Hrest'.
      destruct (Hlast _ _ Hrest') as [Heq | Hnone]; [now left |].
      right. intros x [<- | Hx]; [| now apply Hnone].
      intros Hxr. cbn [app] in Hnext. injection Hnext as <- _.
      apply (Hnone r'); [now left |]. rewrite <- Hxr.
      apply (Hafter r); [| now symmetry]. apply in_or_app. right. now left.
Qed.

Lemma status_of_grouped (rows : list GroupRow) :
  grouped rows = true ->
  statusProviders (providersOf rows) = map itemOf rows
  /\ forall rows0 r0, rows = rows0 ++ [r0] ->
       exists init p, providersOf rows = init ++ [p] /\ s_provider p = g_provider r0.
Proof.
  induction rows as [| r rows IH] using rev_ind.
  - intros _. split; [reflexivity |]. intros [] ? ?; discriminate.
  - intros Hg. apply grouped_snoc in Hg as [Hg Hlast]. specialize (IH Hg) as [Hstatus Hend].
    destruct (providersOf_invariant rows) as (Hnd & Hall & Hcov).
    assert (Hcase : (exists init p, providersOf rows = init ++ [p]
                                    /\ s_provider p = g_provider r)
                    \/ g_provider r ∉ map s_provider (providersOf rows)).
    { destruct rows as [| a rows'] using rev_ind.
      - right. apply not_elem_of_nil.
      - destruct (Hlast _ _ eq_refl) as [Heq | Hnone].
        + left. destruct (Hend _ _ eq_refl) as (init & p & Hp & Hpa).
          exists init, p. split; [exact Hp | congruence].
        + right. intros Hin. apply list_elem_of_In, in_map_iff in Hin as (p & Hp & Hin).
          rewrite Forall_forall in Hall. apply list_elem_of_In, Hall in Hin.
          destruct Hin as (Hmine & _). unfold rowsOf in Hmine.
          destruct (List.filter _ _) as [| x l] eqn:Hf; [congruence |].
          assert (Hx : In x (List.filter
                               (fun r0 => bool_decide (g_provider r0 = s_provider p))
                               (rows' ++ [a]))) by (rewrite Hf; now left).
          apply filter_In in Hx as [Hx Hxp]. apply bool_decide_eq_true in Hxp.
          apply (Hnone x Hx). congruence. }
    rewrite providersOf_snoc, map_app. cbn [map].
    destruct Hcase as [(init & p & Hp & Hpr) | Hout].
    + rewrite Hp in *. rewrite addRow_last by assumption.
      split.
      * rewrite statusProviders_app, (statusProviders_added p r Hpr), app_assoc,
          <- statusProviders_app, Hstatus. reflexivity.
      * intros rows0 r0 Hrows. apply app_inj_tail in Hrows as [_ <-].
        exists init, (addToProvider p r). split; [reflexivity | exact Hpr].
    + rewrite addRow_new by assumption. split.
      * rewrite statusProviders_app,
          (statusProviders_added (newProvider (g_provider r)) r eq_refl), Hstatus.
        reflexivity.
      * intros rows0 r0 Hrows. apply app_inj_tail in Hrows as [_ <-].
        eexists _, _. split; reflexivity.
Qed.

(** X20: the status message carries one item for each row of the query, each
    under the display name of its provider: always the items of the rows
    in some order, and in the order of the query when the rows of each
    provider come together, as [ORDER BY provider] makes them. *)
Theorem status_lists_every_row (rows : list GroupRow) :
  Permutation (statusProviders (providersOf rows)) (map itemOf rows)
  /\ (grouped rows = true -> statusProviders (providersOf rows) = map itemOf rows).
Proof.
  split; [| intros Hg; now apply status_of_grouped].
  induction rows as [| r rows IH] using rev_ind; [reflexivity |].
  rewrite providersOf_snoc, map_app, statusProviders_addRow. cbn [map].
  now apply Permutation_app_tail.
Qed.

Example status_sample :
  map (fun i => (provider i, name i, requests i))
    (statusProviders (providersOf MoreSamples.groupRows))
  = [ ("Anthropic", "claude-sonnet-4-5", 3); ("Anthropic", "claude-opus-4-6", 1);
      ("OpenAI", "gpt-5", 2) ].
Proof. vm_compute. reflexivity. Qed.

Lemma status_lists_every_row_witness :
  statusProviders (providersOf MoreSamples.groupRows) = map itemOf MoreSamples.groupRows.
Proof.
  apply (proj2 (status_lists_every_row MoreSamples.groupRows)). vm_compute. reflexivity.
Defined.

End Summary.
